(** * Rebecca: the AST engine of [src/Tree.c]

    A shallow embedding of the tree builder (nodes, trees, cursor moves,
    parent insertion, tree splicing) and of the Graphviz exporter, followed
    by the properties of the specification that concern them.

    C objects live in a store: a [Node *] or [Tree *] is an address, [NULL]
    is address 0, and reading through [NULL] or through an address that holds
    no object is undefined behaviour.  A failed [assert] aborts. *)

From Stdlib Require Import NArith Lia.
From stdpp Require Import base option list gmap strings.

Local Open Scope string_scope.
Local Open Scope list_scope.
Local Open Scope N_scope.

(** ** Outcomes of a C call *)

Inductive result (A : Type) : Type :=
| Ok (a : A)      (* the call returned *)
| Abort           (* an [assert] failed: the process is aborted *)
| Undef           (* undefined behaviour: NULL or dangling dereference,
                     slot outside an array *)
| OutOfFuel.      (* the step budget of the model ran out *)
Arguments Ok {A} a.
Arguments Abort {A}.
Arguments Undef {A}.
Arguments OutOfFuel {A}.

Definition result_bind {A B} (f : A → result B) (m : result A) : result B :=
  match m with
  | Ok a => f a
  | Abort => Abort
  | Undef => Undef
  | OutOfFuel => OutOfFuel
  end.

#[global] Instance result_mbind : MBind result := @result_bind.
#[global] Instance result_mret : MRet result := @Ok.

(** ** Data model *)

(** The token kinds of [include/RebeccaCompiler.h].

    Modelled from the spec: [Tree.c] is compiled against
    [include/RebeccaGenerator.h], which is not under src/; its switch in
    [CellBordersFormat] names three punctuation kinds ([TOKEN_SEMICOLON],
    [TOKEN_DOUBLE_QUOTE], [TOKEN_SINGLE_QUOTE]) on top of the enumeration
    that is available, so they are added to it here. *)
Inductive TokenType : Set :=
| TOKEN_UNKNOWN
| TOKEN_LEFT_PARENTHESIS | TOKEN_RIGHT_PARENTHESIS
| TOKEN_LEFT_BRACKET | TOKEN_RIGHT_BRACKET
| TOKEN_LEFT_BRACE | TOKEN_RIGHT_BRACE
| TOKEN_COLON | TOKEN_DOT | TOKEN_COMMA | TOKEN_STAR | TOKEN_SLASH
| TOKEN_BACK_SLASH | TOKEN_PERCENT | TOKEN_HASHTAG | TOKEN_PLUS
| TOKEN_PLUSPLUS | TOKEN_MINUS | TOKEN_LL | TOKEN_GG | TOKEN_PIPE
| TOKEN_PIPEPIPE | TOKEN_CARET | TOKEN_TILDE | TOKEN_QUESTION
| TOKEN_EXCLAMATION | TOKEN_EQ | TOKEN_L | TOKEN_G | TOKEN_LEQ | TOKEN_GEQ
| TOKEN_EQEQ | TOKEN_EXCLAMATION_EQ | TOKEN_BREAK | TOKEN_CONTINUE
| TOKEN_CLASS | TOKEN_STRUCT | TOKEN_ELSE | TOKEN_FALSE | TOKEN_CYCLE
| TOKEN_IF | TOKEN_LOAD | TOKEN_NULL | TOKEN_RETURN | TOKEN_STATIC
| TOKEN_THIS | TOKEN_TRUE | TOKEN_PRIVATE | TOKEN_PUBLIC
| TOKEN_NAME | TOKEN_NUMBER | TOKEN_COMP
| TOKEN_UNDERLINE
| TOKEN_EOF
| TOKEN_SEMICOLON | TOKEN_DOUBLE_QUOTE | TOKEN_SINGLE_QUOTE.

#[global] Instance TokenType_eq_dec : EqDecision TokenType.
Proof. solve_decision. Defined.

(** Modelled from the spec: the enumeration [PrsrNdType] is declared in the
    absent header.  [CheckIfRuleName] names four of its members; the spec
    lists the syntactic roles as rule-definition, rule-reference,
    variable-definition, variable-reference, or none, so one more member
    stands for "none". *)
Inductive PrsrNdType : Set :=
| PRSR_NONE
| VAR_NAME
| RULE_NAME
| RULE_NAME_REFERENCE
| VAR_NAME_REFERENCE.

#[global] Instance PrsrNdType_eq_dec : EqDecision PrsrNdType.
Proof. solve_decision. Defined.

(** Addresses.  [id]s are addresses cast to [uint64_t]. *)
Abbreviation ptr := N (only parsing).
Definition NULL : ptr := 0.

(** [Token]: the fields [Tree.c] reads and writes.  [tk_txt] is a [char *]:
    [None] is the null pointer. *)
Record Token : Type := mkToken {
  tk_type : TokenType;
  tk_txt : option string;
  tk_parser_type : PrsrNdType
}.

(** [Node].  [nd_token] is the [Token *] ([None]: null); [nd_children] is the
    [Array *] of child addresses ([None]: null, no array constructed yet);
    [nd_parent] is the back-reference. *)
Record Node : Type := mkNode {
  nd_token : option Token;
  nd_children : option (list ptr);
  nd_parent : ptr;
  nd_id : N
}.

(** [Tree]: root, cursor and the count of nodes created through it.  The
    counter moves only right after a block has been obtained from [calloc],
    so it stays below the number of live blocks and is kept unbounded. *)
Record Tree : Type := mkTree {
  tr_root : ptr;
  tr_current : ptr;
  tr_size : N
}.

(** One [fprintf] call of the exporter, with its arguments.  The format
    [NODE_FMT] is a macro of the absent header; a node record is kept as the
    five arguments handed to it. *)
Inductive fprintf_call : Type :=
| PrintText (s : string)
| PrintNodeRecord (id : N) (shape color label secondary : string)
| PrintEdge (from to : N).          (* "\tn%ld -> n%ld\n" *)

(** The memory of a run: node blocks, tree blocks, and the files written. *)
Record State : Type := mkState {
  nodes : gmap N Node;
  trees : gmap N Tree;
  files : gmap string (list fprintf_call)
}.

Definition empty_state : State := mkState ∅ ∅ ∅.

(** *** Field updates *)

Definition with_nodes (h : gmap N Node) (σ : State) : State :=
  mkState h (trees σ) (files σ).
Definition with_trees (h : gmap N Tree) (σ : State) : State :=
  mkState (nodes σ) h (files σ).
Definition with_files (h : gmap string (list fprintf_call)) (σ : State) : State :=
  mkState (nodes σ) (trees σ) h.

Definition set_token (k : option Token) (n : Node) : Node :=
  mkNode k (nd_children n) (nd_parent n) (nd_id n).
Definition set_children (cs : option (list ptr)) (n : Node) : Node :=
  mkNode (nd_token n) cs (nd_parent n) (nd_id n).
Definition set_parent (p : ptr) (n : Node) : Node :=
  mkNode (nd_token n) (nd_children n) p (nd_id n).
Definition set_id (i : N) (n : Node) : Node :=
  mkNode (nd_token n) (nd_children n) (nd_parent n) i.

Definition set_root (p : ptr) (t : Tree) : Tree :=
  mkTree p (tr_current t) (tr_size t).
Definition set_current (p : ptr) (t : Tree) : Tree :=
  mkTree (tr_root t) p (tr_size t).
Definition set_size (k : N) (t : Tree) : Tree :=
  mkTree (tr_root t) (tr_current t) k.

(** *** Reading and writing through pointers *)

Definition load_node (σ : State) (p : ptr) : result Node :=
  if decide (p = NULL) then Undef
  else match nodes σ !! p with Some n => Ok n | None => Undef end.

Definition store_node (p : ptr) (n : Node) (σ : State) : State :=
  with_nodes (<[p := n]> (nodes σ)) σ.

Definition load_tree (σ : State) (t : ptr) : result Tree :=
  if decide (t = NULL) then Undef
  else match trees σ !! t with Some tr => Ok tr | None => Undef end.

Definition store_tree (t : ptr) (tr : Tree) (σ : State) : State :=
  with_trees (<[t := tr]> (trees σ)) σ.

(** [p->f = v] for a node field. *)
Definition update_node (p : ptr) (f : Node → Node) (σ : State) : result State :=
  n ← load_node σ p; Ok (store_node p (f n) σ).

Definition update_tree (t : ptr) (f : Tree → Tree) (σ : State) : result State :=
  tr ← load_tree σ t; Ok (store_tree t (f tr) σ).

(** [n->children] when the array exists. *)
Definition load_children (σ : State) (p : ptr) : result (list ptr) :=
  n ← load_node σ p;
  match nd_children n with Some cs => Ok cs | None => Undef end.

(** ** Classification tables *)

Definition CellBordersFormat (t : TokenType) : string :=
  match t with
  | TOKEN_COLON
  | TOKEN_SEMICOLON
  | TOKEN_DOUBLE_QUOTE
  | TOKEN_SINGLE_QUOTE
  | TOKEN_EOF
  | TOKEN_EQ => "none"
  | TOKEN_NAME => "rectangle"
  | _ => "diamond"
  end.

Definition CheckIfRuleName (type : PrsrNdType) : string :=
  match type with
  | VAR_NAME => "yellow"
  | RULE_NAME => "cyan"
  | RULE_NAME_REFERENCE => "red"
  | VAR_NAME_REFERENCE => "green"
  | _ => "black"
  end.

(** ** Builder operations *)

(** [GetChild(n, idx)]: the slot [idx] of [n->children->data]. *)
Definition GetChild (σ : State) (n : ptr) (idx : N) : result ptr :=
  cs ← load_children σ n;
  match cs !! N.to_nat idx with Some c => Ok c | None => Undef end.

(** [Parent(t)]: [t->current = t->current->parent], with no check. *)
Definition Parent (t : ptr) (σ : State) : result State :=
  tr ← load_tree σ t;
  cur ← load_node σ (tr_current tr);
  Ok (store_tree t (set_current (nd_parent cur) tr) σ).

(** Modelled from the spec: [ArrayCtor] and [ArrayAdd] belong to an array
    library that is not under src/.  The spec has the children as an
    insertion-ordered, growable sequence created lazily on first use and
    appended to, so [ArrayCtor] is the empty list and [ArrayAdd] appends at
    the end. *)
Definition ArrayCtor : list ptr := [].
Definition ArrayAdd (a : list ptr) (x : ptr) : list ptr := a ++ [x].

Definition AddChild (t new_child : ptr) (σ : State) : result (ptr * State) :=
  if decide (t = NULL) then Abort else
  if decide (new_child = NULL) then Abort else
  nc ← load_node σ new_child;
  match nd_token nc with
  | None => Undef
  | Some tok =>
    match tk_txt tok with
    | None => Abort
    | Some _ =>
      tr ← load_tree σ t;
      if decide (tr_current tr = NULL) then
        Ok (new_child, store_tree t (set_current new_child (set_root new_child tr)) σ)
      else
        cur ← load_node σ (tr_current tr);
        let arr := match nd_children cur with
                   | None => ArrayCtor
                   | Some a => a
                   end in
        let σ1 := store_node (tr_current tr)
                    (set_children (Some (ArrayAdd arr new_child)) cur) σ in
        last_child ← GetChild σ1 (tr_current tr) (N.of_nat (length (ArrayAdd arr new_child)) - 1);
        σ2 ← update_node last_child (set_parent (tr_current tr)) σ1;
        Ok (new_child, store_tree t (set_current new_child tr) σ2)
    end
  end.

Definition InsertParent (t n : ptr) (σ : State) : result State :=
  tr ← load_tree σ t;
  let old_current := tr_current tr in
  oc ← load_node σ old_current;
  σ1 ← (if decide (nd_parent oc = NULL) then Ok σ
        else
          let parent := nd_parent oc in
          pn ← load_node σ parent;
          match nd_children pn with
          | None => Undef
          | Some [] => Undef       (* data + 0 - 1: no such slot *)
          | Some cs =>
            (* TODO of the source: always the last place of the array *)
            let σ' := store_node parent
                        (set_children (Some (<[(length cs - 1)%nat := n]> cs)) pn) σ in
            update_node n (set_parent parent) σ'
          end);
  σ2 ← update_tree t (set_current n) σ1;
  '(_, σ3) ← AddChild t old_current σ2;
  σ4 ← update_node old_current (set_parent n) σ3;
  σ5 ← Parent t σ4;
  tr5 ← load_tree σ5 t;
  if decide (old_current = tr_root tr5) then
    Ok (store_tree t (set_root n tr5) σ5)
  else Ok σ5.

(** The second loop of [AppendTree].  The bound [second_cur->children->size]
    is read again at every turn, so the loop runs on a step budget.  The
    first loop of the C function only fills a scratch buffer that is never
    read and is left out. *)
Fixpoint AppendTree_loop (fuel : nat) (first second_cur : ptr) (cur_child : N)
    (σ : State) : result State :=
  match fuel with
  | O => OutOfFuel
  | S fuel' =>
    cs ← load_children σ second_cur;
    if decide (cur_child < N.of_nat (length cs)) then
      child ← GetChild σ second_cur cur_child;
      '(_, σ1) ← AddChild first child σ;
      σ2 ← Parent first σ1;
      ft ← load_tree σ2 first;
      moved ← GetChild σ2 (tr_current ft) cur_child;
      σ3 ← update_node moved (set_parent (tr_current ft)) σ2;
      AppendTree_loop fuel' first second_cur (cur_child + 1) σ3
    else Ok σ
  end.

Definition AppendTree (fuel : nat) (first second : ptr) (σ : State) : result State :=
  st ← load_tree σ second;
  let second_cur := tr_current st in
  _ ← load_children σ second_cur;
  σ1 ← AppendTree_loop fuel first second_cur 0 σ;
  ft ← load_tree σ1 first;
  update_tree second (set_current (tr_current ft)) σ1.

(** ** Node creation and export

    What [Tree.c] takes from its environment is a parameter of the model:
    the canonical spelling of a token kind, the blocks [calloc] hands out
    and whether [fopen] succeeds. *)

Section Environment.

(** [TranslateTokenType] is declared in the header and defined in a file
    that is not under src/. *)
Variable TranslateTokenType : TokenType → string.

(** The address [calloc] returns for a [Node] block ([NULL]: failure),
    whether the [Token] block that follows is obtained, and the address
    returned for a [Tree] block. *)
Variable calloc_Node : State → ptr.
Variable calloc_Token : State → bool.
Variable calloc_Tree : State → ptr.

(** Whether [fopen(path, "w")] succeeds. *)
Variable fopen_w : State → string → bool.

Definition zero_Token : Token := mkToken TOKEN_UNKNOWN None PRSR_NONE.
Definition zero_Node : Node := mkNode None None NULL 0.
Definition zero_Tree : Tree := mkTree NULL NULL 0.

Definition NodeCtor (σ : State) : result (ptr * State) :=
  let n := calloc_Node σ in
  if decide (n = NULL) then Abort else
  let σ1 := store_node n zero_Node σ in
  if calloc_Token σ1 then
    Ok (n, store_node n (set_token (Some zero_Token) zero_Node) σ1)
  else Abort.

(** Modelled from the spec: [FillEmptyStr] is not under src/.  The spec has
    node creation deep-copy the text into the node's own token and fail
    fatally on a token with no text. *)
Definition FillEmptyStr (src : option string) (tok : Token) : result Token :=
  match src with
  | Some s => Ok (mkToken (tk_type tok) (Some s) (tk_parser_type tok))
  | None => Abort
  end.

Definition set_type (ty : TokenType) (tok : Token) : Token :=
  mkToken ty (tk_txt tok) (tk_parser_type tok).

(** The part shared by [CreateNodeByType] and [CreateNode]: fill the text,
    set the kind, take the address as id, count the node. *)
Definition fill_new_node (t : ptr) (src : option string) (ty : TokenType)
    (new_node : ptr) (σ : State) : result (ptr * State) :=
  nn ← load_node σ new_node;
  match nd_token nn with
  | None => Undef
  | Some tok =>
    tok1 ← FillEmptyStr src tok;
    let σ1 := store_node new_node (set_token (Some (set_type ty tok1)) nn) σ in
    σ2 ← update_node new_node (set_id new_node) σ1;
    σ3 ← update_tree t (fun tr => set_size (tr_size tr + 1) tr) σ2;
    Ok (new_node, σ3)
  end.

Definition CreateNodeByType (t : ptr) (type : TokenType) (σ : State)
    : result (ptr * State) :=
  '(new_node, σ1) ← NodeCtor σ;
  fill_new_node t (Some (TranslateTokenType type)) type new_node σ1.

(** [token] is the [Token *] argument ([None]: null). *)
Definition CreateNode (t : ptr) (token : option Token) (σ : State)
    : result (ptr * State) :=
  '(new_node, σ1) ← NodeCtor σ;
  match token with
  | None => Undef
  | Some tk => fill_new_node t (tk_txt tk) (tk_type tk) new_node σ1
  end.

Definition TreeCtor (type : TokenType) (σ : State) : result (ptr * State) :=
  let new_tree := calloc_Tree σ in
  if decide (new_tree = NULL) then Abort else
  let σ1 := store_tree new_tree zero_Tree σ in
  '(n, σ2) ← CreateNodeByType new_tree type σ1;
  '(_, σ3) ← AddChild new_tree n σ2;
  Ok (new_tree, σ3).

Definition Ttype (σ : State) (n : ptr) : result TokenType :=
  nn ← load_node σ n;
  match nd_token nn with Some tok => Ok (tk_type tok) | None => Undef end.

(** *** The exporter *)

(** A [for] loop over the slots [0 .. size-1] of a children array that the
    body does not change. *)
Fixpoint for_children (body : ptr → list fprintf_call → result (list fprintf_call))
    (cs : list ptr) (out : list fprintf_call) : result (list fprintf_call) :=
  match cs with
  | [] => Ok out
  | c :: cs' => out' ← body c out; for_children body cs' out'
  end.

(** The fifth argument of the node record. *)
Definition secondary_label (txt : string) (ty : TokenType) : string :=
  if decide (txt = TranslateTokenType ty) then "" else TranslateTokenType ty.

(** [f] is the [FILE *]: [None] is null, [Some out] a stream that holds
    [out] so far.  The recursion follows child links, so it runs on a
    budget of nested calls. *)
Fixpoint PrintNode (fuel : nat) (σ : State) (f : option (list fprintf_call))
    (n : ptr) : result (list fprintf_call) :=
  match fuel with
  | O => OutOfFuel
  | S fuel' =>
    match f with
    | None => Abort
    | Some out =>
      if decide (n = NULL) then Abort else
      nn ← load_node σ n;
      match nd_token nn with
      | None => Undef
      | Some tok =>
        match tk_txt tok with
        | None => Undef          (* strcmp on a null string *)
        | Some txt =>
          let out1 := out ++ [PrintNodeRecord (nd_id nn)
                                (CellBordersFormat (tk_type tok))
                                (CheckIfRuleName (tk_parser_type tok))
                                txt
                                (secondary_label txt (tk_type tok))] in
          match nd_children nn with
          | None => Ok out1
          | Some cs =>
            for_children (fun c o => PrintNode fuel' σ (Some o) c) cs out1
          end
        end
      end
    end
  end.

Definition edge_to (σ : State) (from : N) (c : ptr)
    (out : list fprintf_call) : result (list fprintf_call) :=
  cn ← load_node σ c; Ok (out ++ [PrintEdge from (nd_id cn)]).

Fixpoint ConnectNode (fuel : nat) (σ : State) (f : option (list fprintf_call))
    (n : ptr) : result (list fprintf_call) :=
  match fuel with
  | O => OutOfFuel
  | S fuel' =>
    match f with
    | None => Abort
    | Some out =>
      if decide (n = NULL) then Abort else
      nn ← load_node σ n;
      match nd_children nn with
      | None => Ok out
      | Some cs =>
        out1 ← for_children (edge_to σ (nd_id nn)) cs out;
        for_children (fun c o => ConnectNode fuel' σ (Some o) c) cs out1
      end
    end
  end.

Definition nl : string := String (Ascii.ascii_of_nat 10) EmptyString.
Definition tab : string := String (Ascii.ascii_of_nat 9) EmptyString.
Definition graph_dot : string := "../graph.dot".

(** [DebugTree].  The closing [system("dot ...")] hands the file to an
    external renderer and does not touch the store. *)
Definition DebugTree (fuel : nat) (t : ptr) (σ : State) : result State :=
  if decide (t = NULL) then Abort else
  if fopen_w σ graph_dot then
    let f0 := [PrintText ("digraph G{" +:+ nl);
               PrintText (tab +:+ "graph [dpi=50];" +:+ nl +:+ nl)] in
    tr ← load_tree σ t;
    f1 ← PrintNode fuel σ (Some f0) (tr_root tr);
    let f2 := f1 ++ [PrintText nl] in
    f3 ← ConnectNode fuel σ (Some f2) (tr_root tr);
    let f4 := f3 ++ [PrintText ("}" +:+ nl)] in
    Ok (with_files (<[graph_dot := f4]> (files σ)) σ)
  else Abort.

End Environment.

(** ** Vocabulary of the specification *)

(** The "small fixed table" of the border classification: the kinds drawn
    without a border, the identifier kind, and the shape of all the rest. *)
Definition no_border_types : list TokenType :=
  [TOKEN_COLON; TOKEN_SEMICOLON; TOKEN_DOUBLE_QUOTE; TOKEN_SINGLE_QUOTE;
   TOKEN_EOF; TOKEN_EQ].

Definition border_of_spec (t : TokenType) : string :=
  if bool_decide (t ∈ no_border_types) then "none"
  else if bool_decide (t = TOKEN_NAME) then "rectangle"
  else "diamond".

(** The colour of each of the four syntactic roles, and the default. *)
Definition role_colors : list (PrsrNdType * string) :=
  [(RULE_NAME, "cyan"); (RULE_NAME_REFERENCE, "red");
   (VAR_NAME, "yellow"); (VAR_NAME_REFERENCE, "green")].

Definition default_color : string := "black".

Fixpoint assoc_color (r : PrsrNdType) (tbl : list (PrsrNdType * string)) : option string :=
  match tbl with
  | [] => None
  | (r', c) :: tbl' => if decide (r = r') then Some c else assoc_color r tbl'
  end.

Definition color_of_spec (r : PrsrNdType) : string :=
  default (default_color) (assoc_color r role_colors).

(** A node block that is live at [p]. *)
Definition live (σ : State) (p : ptr) : Prop :=
  p ≠ NULL ∧ is_Some (nodes σ !! p).

(** A live node whose token carries a text: what [AddChild] asserts. *)
Definition has_text (σ : State) (p : ptr) : Prop :=
  p ≠ NULL ∧
  ∃ nn tok s, nodes σ !! p = Some nn ∧ nd_token nn = Some tok ∧ tk_txt tok = Some s.

(** The children of a node as a list: empty while no array exists. *)
Definition child_list (nn : Node) : list ptr :=
  default [] (nd_children nn).

(** No block sits at [NULL] and no child slot holds the address of a
    missing block. *)
Definition closed (σ : State) : Prop :=
  nodes σ !! NULL = None ∧
  map_Forall (λ _ np, Forall (λ c, is_Some (nodes σ !! c)) (child_list np)) (nodes σ).

#[global] Instance closed_dec σ : Decision (closed σ).
Proof. unfold closed. apply _. Defined.


(** A run of [AddChild] calls on one tree. *)
Fixpoint AddChild_all (t : ptr) (cs : list ptr) (σ : State) : result State :=
  match cs with
  | [] => Ok σ
  | c :: cs' => '(_, σ1) ← AddChild t c σ; AddChild_all t cs' σ1
  end.

(** ** A concrete environment

    A bump allocator, an environment where every [calloc] and [fopen]
    succeeds, and a table of canonical names: used to run the model on
    examples. *)

Definition bump_Node (σ : State) : ptr := fresh ({[NULL]} ∪ dom (nodes σ)).
Definition bump_Tree (σ : State) : ptr := fresh ({[NULL]} ∪ dom (trees σ)).
Definition always (σ : State) : bool := true.
Definition fopen_always (σ : State) (path : string) : bool := true.

Definition canon (t : TokenType) : string :=
  match t with
  | TOKEN_PLUS => "+"
  | TOKEN_NAME => "NAME"
  | TOKEN_EQ => "="
  | TOKEN_EOF => "EOF"
  | _ => "?"
  end.

Definition name_tok (s : string) : Token := mkToken TOKEN_NAME (Some s) PRSR_NONE.

(** A tree made by [TreeCtor]: the root is the only node and the cursor. *)
Definition σ_root : State :=
  match TreeCtor canon bump_Node always bump_Tree TOKEN_PLUS empty_state with
  | Ok (_, σ) => σ
  | _ => empty_state
  end.

Definition state_of (r : result State) : State :=
  match r with Ok σ => σ | _ => empty_state end.

Definition TreeCtor' := TreeCtor canon bump_Node always bump_Tree.
Definition CreateNode' := CreateNode bump_Node always.
Definition CreateNodeByType' := CreateNodeByType canon bump_Node always.

(** An empty tree at address 1 and three nodes created through it, none of
    them attached: nodes 1 ("a"), 2 ("b") and 3 ("c"). *)
Definition σ_three : State :=
  state_of (
    let σ0 := store_tree 1 zero_Tree empty_state in
    '(_, σ1) ← CreateNode' 1 (Some (name_tok "a")) σ0;
    '(_, σ2) ← CreateNode' 1 (Some (name_tok "b")) σ1;
    '(_, σ3) ← CreateNode' 1 (Some (name_tok "c")) σ2;
    Ok σ3).

(** The tree of the specification's scenario: root "+" (node 1) with the
    leaves "a" (node 2) and "b" (node 3); the cursor is on "b". *)
Definition σ_plus_ab : State :=
  state_of (
    '(t, σ1) ← TreeCtor' TOKEN_PLUS empty_state;
    '(a, σ2) ← CreateNode' t (Some (name_tok "a")) σ1;
    '(_, σ3) ← AddChild t a σ2;
    σ4 ← Parent t σ3;
    '(b, σ5) ← CreateNode' t (Some (name_tok "b")) σ4;
    '(_, σ6) ← AddChild t b σ5;
    Ok σ6).


(** ** The tree under a node, as a value

    [subtree fuel σ p] reads the store below [p] along child links, down to
    [fuel] levels: it is [Some T] when the blocks below [p] form a finite
    tree of live nodes that fits in that depth. *)

#[local] Set Warnings "-register-all".

Inductive rtree : Type :=
| RNode (p : ptr) (nn : Node) (kids : list rtree).

Definition rt_addr (T : rtree) : ptr := match T with RNode p _ _ => p end.
Definition rt_node (T : rtree) : Node := match T with RNode _ nn _ => nn end.
Definition rt_kids (T : rtree) : list rtree := match T with RNode _ _ ks => ks end.

Fixpoint subtree (fuel : nat) (σ : State) (p : ptr) : option rtree :=
  match fuel with
  | O => None
  | S fuel' =>
    if decide (p = NULL) then None else
    nn ← nodes σ !! p;
    kids ← mapM (subtree fuel' σ) (child_list nn);
    Some (RNode p nn kids)
  end.

(** Pre-order, depth first: a node, then its children's subtrees from the
    first child to the last. *)
Fixpoint preorder (T : rtree) : list Node :=
  match T with
  | RNode _ nn kids => nn :: concat (map preorder kids)
  end.

(** The edges in the order of the edge pass: the edges of a node to each of
    its children, then the edges inside each child's subtree. *)
Fixpoint edges_of (T : rtree) : list fprintf_call :=
  match T with
  | RNode _ nn kids =>
    map (λ k, PrintEdge (nd_id nn) (nd_id (rt_node k))) kids
    ++ concat (map edges_of kids)
  end.

Section Records.

Variable TranslateTokenType : TokenType → string.

(** The record of one node: id, border, colour, text and secondary label. *)
Definition record_of (nn : Node) : option fprintf_call :=
  tok ← nd_token nn;
  txt ← tk_txt tok;
  Some (PrintNodeRecord (nd_id nn)
          (CellBordersFormat (tk_type tok))
          (CheckIfRuleName (tk_parser_type tok))
          txt
          (secondary_label TranslateTokenType txt (tk_type tok))).

Definition node_records (T : rtree) : option (list fprintf_call) :=
  mapM record_of (preorder T).

(** The document of [DebugTree]: header, node records, a blank line, edge
    records, footer. *)
Definition graph_document (T : rtree) (recs : list fprintf_call) : list fprintf_call :=
  [PrintText ("digraph G{" +:+ nl); PrintText (tab +:+ "graph [dpi=50];" +:+ nl +:+ nl)]
  ++ recs ++ [PrintText nl] ++ edges_of T ++ [PrintText ("}" +:+ nl)].

End Records.

(** The scenario tree as a value, and its node records. *)
Definition T_plus_ab : rtree :=
  default (RNode NULL zero_Node []) (subtree 3 σ_plus_ab 1).

Definition recs_plus_ab : list fprintf_call :=
  default [] (node_records canon T_plus_ab).

(** The addresses of a tree value, in pre-order. *)
Fixpoint addrs (T : rtree) : list ptr :=
  match T with
  | RNode p _ kids => p :: concat (map addrs kids)
  end.

(** The store after [InsertParent(t, n)] on a cursor [X] (block [xn]) and a
    new parent [n] (block [nn]): [n] is written over the last slot of the
    old parent, if there is one, and takes it as parent; [X] is appended to
    the children of [n] and takes [n] as parent. *)
Definition splice_parent (n X : ptr) (xn nn : Node) (σ : State) : State :=
  let P := nd_parent xn in
  let σP :=
    if decide (P = NULL) then σ
    else match nodes σ !! P with
         | Some pn =>
           store_node P
             (set_children
                (Some (<[(length (child_list pn) - 1)%nat := n]> (child_list pn))) pn) σ
         | None => σ
         end in
  let nn1 := if decide (P = NULL) then nn else set_parent P nn in
  store_node X (set_parent n xn)
    (store_node n (set_children (Some (child_list nn ++ [X])) nn1) σP).

(** Root "+" (node 1) over "a" (node 2) over "c" (node 3), the cursor back
    on "a", and a node "=" (node 4) created but not attached. *)
Definition σ_wrap : State :=
  state_of (
    '(t, σ1) ← TreeCtor' TOKEN_PLUS empty_state;
    '(a, σ2) ← CreateNode' t (Some (name_tok "a")) σ1;
    '(_, σ3) ← AddChild t a σ2;
    '(c, σ4) ← CreateNode' t (Some (name_tok "c")) σ3;
    '(_, σ5) ← AddChild t c σ4;
    σ6 ← Parent t σ5;
    '(_, σ7) ← CreateNodeByType' t TOKEN_EQ σ6;
    Ok σ7).

Definition T_wrap : rtree :=
  default (RNode NULL zero_Node []) (subtree 2 σ_wrap 2).

(** Root "a" (node 1) over the siblings "b", "c", "d" (nodes 2, 3, 4) in
    this order, the cursor on the last one, and a detached node "e"
    (node 5). *)
Definition σ_siblings : State :=
  state_of (
    σ1 ← AddChild_all 1 [1; 2] σ_three;
    σ2 ← Parent 1 σ1;
    '(_, σ3) ← AddChild 1 3 σ2;
    σ4 ← Parent 1 σ3;
    '(d, σ5) ← CreateNode' 1 (Some (name_tok "d")) σ4;
    '(_, σ6) ← AddChild 1 d σ5;
    '(_, σ7) ← CreateNode' 1 (Some (name_tok "e")) σ6;
    Ok σ7).

(** ** The store after [AppendTree]

    [adopted F old moved q nq] is the block of [q] once the nodes [moved]
    have been appended to the children [old] of [F] and stamped with [F] as
    parent; [adopt_state] applies it to every node block. *)
Definition adopted (F : ptr) (old moved : list ptr) (q : ptr) (nq : Node) : Node :=
  let n1 := if decide (q = F ∧ moved ≠ [])
            then set_children (Some (old ++ moved)) nq else nq in
  if decide (q ∈ moved) then set_parent F n1 else n1.

(** The block of [q] after one more child [c] has been appended to the
    children [old] of [F]. *)
Definition adopt_node (F c : ptr) (old : list ptr) (q : ptr) (nq : Node) : Node :=
  let n1 := if decide (q = F) then set_children (Some (old ++ [c])) nq else nq in
  if decide (q = c) then set_parent F n1 else n1.


Definition adopt_state (F : ptr) (old moved : list ptr) (σ : State) : State :=
  with_nodes (map_imap (λ q nq, Some (adopted F old moved q nq)) (nodes σ)) σ.

(** Two trees made by [TreeCtor] in one store: tree 1 with root "+"
    (node 1), tree 2 with root "=" (node 2) over "a" (node 3) and "b"
    (node 4); both cursors are on the roots. *)
Definition σ_two_trees : State :=
  state_of (
    '(t1, σ1) ← TreeCtor' TOKEN_PLUS empty_state;
    '(t2, σ2) ← TreeCtor' TOKEN_EQ σ1;
    '(a, σ3) ← CreateNode' t2 (Some (name_tok "a")) σ2;
    '(_, σ4) ← AddChild t2 a σ3;
    σ5 ← Parent t2 σ4;
    '(b, σ6) ← CreateNode' t2 (Some (name_tok "b")) σ5;
    '(_, σ7) ← AddChild t2 b σ6;
    σ8 ← Parent t2 σ7;
    Ok σ8).

(** ** Parent-child symmetry *)

(** The parent field and the children of the block at an address. *)
Definition par (σ : State) (x : ptr) : option ptr := nd_parent <$> nodes σ !! x.
Definition kids (σ : State) (p : ptr) : option (list ptr) := child_list <$> nodes σ !! p.

(** [x] fills exactly one slot of [l]. *)
Definition count_slot (x : ptr) (l : list ptr) : nat :=
  length (filter (λ y, y = x) l).
Definition occurs_once (x : ptr) (l : list ptr) : Prop := count_slot x l = 1%nat.

(** From child to parent: a node with a parent fills exactly one child slot
    of that parent. *)
Definition parent_lists_child (σ : State) (x : ptr) (nx : Node) : Prop :=
  nd_parent nx = NULL ∨
  match kids σ (nd_parent nx) with
  | Some cs => occurs_once x cs
  | None => False
  end.

#[global] Instance parent_lists_child_dec σ x nx : Decision (parent_lists_child σ x nx).
Proof.
  unfold parent_lists_child, occurs_once.
  destruct (kids σ (nd_parent nx)); apply _.
Defined.

Definition forward (σ : State) : Prop := map_Forall (parent_lists_child σ) (nodes σ).

(** From parent to child: every node in a child slot of [p] names [p] as
    its parent. *)
Definition child_names_parent (σ : State) (p : ptr) (np : Node) : Prop :=
  Forall (λ c, par σ c = Some p) (child_list np).

Definition backward (σ : State) : Prop := map_Forall (child_names_parent σ) (nodes σ).

Definition symmetric (σ : State) : Prop :=
  nodes σ !! NULL = None ∧ forward σ ∧ backward σ.

#[global] Instance symmetric_dec σ : Decision (symmetric σ).
Proof. unfold symmetric, forward, backward, child_names_parent. apply _. Defined.

(** Every node block carries a token with a text. *)
Definition all_text (σ : State) : Prop :=
  map_Forall (λ _ nn, ∃ tok, nd_token nn = Some tok ∧ is_Some (tk_txt tok)) (nodes σ).

(** The cursor [x] is the last child of its parent, and so is every
    ancestor of it, up to a node without parent; [anc] lists the ancestors
    from the parent up, and no node comes twice on the way. *)
Inductive spine (σ : State) : ptr → list ptr → Prop :=
| spine_top x :
    x ≠ NULL → par σ x = Some NULL → spine σ x []
| spine_up x p cs anc :
    x ≠ NULL → par σ x = Some p → p ≠ NULL →
    kids σ p = Some cs → last cs = Some x →
    x ∉ p :: anc → spine σ p anc →
    spine σ x (p :: anc).

Definition cursor_ok (σ : State) (x : ptr) : Prop :=
  x = NULL ∨ ∃ anc, spine σ x anc.

(** What holds of a tree [t] under construction: the store is symmetric,
    every node carries a text, and the cursor is null or on the spine. *)
Definition tree_inv (t : ptr) (σ : State) : Prop :=
  t ≠ NULL ∧ symmetric σ ∧ all_text σ ∧
  ∃ tr, trees σ !! t = Some tr ∧ cursor_ok σ (tr_current tr).

(** A node that [AddChild] or [InsertParent] may be given on tree [t]: a
    live node without parent and without children that is not the cursor
    of [t]. *)
Definition detached (σ : State) (t : ptr) (c : ptr) : Prop :=
  c ≠ NULL ∧ par σ c = Some NULL ∧ kids σ c = Some [] ∧
  (tr_current <$> trees σ !! t) ≠ Some c.

(** A node that keeps its parent keeps its slot. *)
Definition slots_stable (σ σ' : State) : Prop :=
  ∀ x p cs i,
    par σ x = Some p → par σ' x = Some p →
    kids σ p = Some cs → cs !! i = Some x →
    ∃ cs', kids σ' p = Some cs' ∧ cs' !! i = Some x.

Section Reachable.

Variable TranslateTokenType : TokenType → string.
Variable calloc_Node : State → ptr.
Variable calloc_Token : State → bool.

(** One call on the tree [t]: a creation, an [AddChild] or [InsertParent]
    of a detached node, or a [Parent]. *)
Inductive step (t : ptr) (σ : State) : State → Prop :=
| step_CreateNode tok p σ' :
    CreateNode calloc_Node calloc_Token t (Some tok) σ = Ok (p, σ') →
    step t σ σ'
| step_CreateNodeByType ty p σ' :
    CreateNodeByType TranslateTokenType calloc_Node calloc_Token t ty σ = Ok (p, σ') →
    step t σ σ'
| step_AddChild c r σ' :
    detached σ t c → AddChild t c σ = Ok (r, σ') → step t σ σ'
| step_InsertParent n σ' :
    detached σ t n → InsertParent t n σ = Ok σ' → step t σ σ'
| step_Parent σ' :
    Parent t σ = Ok σ' → step t σ σ'.

(** The stores reached from a new, empty tree [t] in a store without
    nodes. *)
Inductive reachable (t : ptr) : State → Prop :=
| reachable_new σ :
    t ≠ NULL → nodes σ = ∅ → trees σ !! t = Some zero_Tree →
    reachable t σ
| reachable_step σ σ' :
    reachable t σ → step t σ σ' → reachable t σ'.

End Reachable.

(** Two trees made by [TreeCtor], each with its root only: tree 1 with
    root "+" (node 1), tree 2 with root "=" (node 2). *)
Definition σ_two_roots : State :=
  state_of (
    '(t1, σ1) ← TreeCtor' TOKEN_PLUS empty_state;
    '(t2, σ2) ← TreeCtor' TOKEN_EQ σ1;
    Ok σ2).

(** The store after [AppendTree(1, 2)] on [σ_two_trees]. *)
Definition σ_spliced : State := state_of (AppendTree 5 1 2 σ_two_trees).

(** A run on tree 1: create "a", attach it, create "b", insert it above
    the cursor. *)
Definition σ_run0 : State := store_tree 1 zero_Tree empty_state.
Definition σ_run1 : State :=
  state_of ('(_, σ) ← CreateNode' 1 (Some (name_tok "a")) σ_run0; Ok σ).
Definition σ_run2 : State := state_of ('(_, σ) ← AddChild 1 1 σ_run1; Ok σ).
Definition σ_run3 : State :=
  state_of ('(_, σ) ← CreateNode' 1 (Some (name_tok "b")) σ_run2; Ok σ).
Definition σ_run4 : State := state_of (InsertParent 1 2 σ_run3).

(** ** What the builder operations leave alone *)

(** [σ'] has the node blocks of [σ] at the same addresses with the same
    tokens and ids, the same files, and the same trees with the same node
    counts: only parent fields, children arrays, roots and cursors may
    differ. *)
Definition same_blocks (σ σ' : State) : Prop :=
  (∀ q, (nd_token <$> nodes σ' !! q) = (nd_token <$> nodes σ !! q) ∧
        (nd_id <$> nodes σ' !! q) = (nd_id <$> nodes σ !! q)) ∧
  (∀ t, (tr_size <$> trees σ' !! t) = (tr_size <$> trees σ !! t)) ∧
  files σ' = files σ.

(** Every node block holds its own address as id. *)
Definition ids_are_addresses (σ : State) : Prop :=
  map_Forall (λ q nq, nd_id nq = q) (nodes σ).

#[global] Instance ids_are_addresses_dec σ : Decision (ids_are_addresses σ).
Proof. unfold ids_are_addresses. apply _. Defined.

(** [q] is below [p]: a child of [p], or below one of its children. *)
Inductive descends (σ : State) : ptr → ptr → Prop :=
| descends_child p cs c :
    kids σ p = Some cs → c ∈ cs → descends σ p c
| descends_below p cs c q :
    kids σ p = Some cs → c ∈ cs → descends σ c q → descends σ p q.

(** The parents of [x] in turn, up to a node without parent. *)
Inductive chain (σ : State) : ptr → list ptr → Prop :=
| chain_top x :
    x ≠ NULL → par σ x = Some NULL → chain σ x []
| chain_up x p anc :
    x ≠ NULL → par σ x = Some p → p ≠ NULL → chain σ p anc →
    chain σ x (p :: anc).

(** The root of [t] is the last node on the chain of parents of a live
    cursor. *)
Definition rooted (t : ptr) (σ : State) : Prop :=
  ∀ tr, trees σ !! t = Some tr → tr_current tr ≠ NULL →
    ∃ anc, chain σ (tr_current tr) anc ∧
           last (tr_current tr :: anc) = Some (tr_root tr).

(** A height on the nodes: every node is strictly lower than its
    parent. *)
Definition ranked (σ : State) (rank : ptr → nat) : Prop :=
  ∀ x p, par σ x = Some p → p ≠ NULL → (rank x < rank p)%nat.

(** The root of [t], when set, is a live node. *)
Definition root_live (t : ptr) (σ : State) : Prop :=
  ∀ tr, trees σ !! t = Some tr → tr_root tr ≠ NULL →
    is_Some (nodes σ !! tr_root tr).

(** The run continued: create "c" (node 3) and attach it under the cursor
    "b" (node 2), next to "a". *)
Definition σ_run5 : State :=
  state_of ('(_, σ) ← CreateNode' 1 (Some (name_tok "c")) σ_run4; Ok σ).
Definition σ_run6 : State := state_of ('(_, σ) ← AddChild 1 3 σ_run5; Ok σ).

(** [σ_two_trees] after the cursor of tree 1 has ascended past its root. *)
Definition σ_ascended : State := state_of (Parent 1 σ_two_trees).

(** The root of [σ_root] given to [AddChild] as its own child. *)
Definition σ_self : State := state_of ('(_, σ) ← AddChild 1 1 σ_root; Ok σ).

(** [σ_siblings] with the cursor on the middle sibling "c" (node 3). *)
Definition σ_mid : State :=
  store_tree 1 (set_current 3 (default zero_Tree (trees σ_siblings !! 1))) σ_siblings.

(** * Properties *)

(** ** The outcome monad *)

Lemma bind_Ok {A B} (f : A → result B) (a : A) : (Ok a ≫= f) = f a.
Proof. reflexivity. Qed.

Lemma bind_Ok_inv {A B} (f : A → result B) (m : result A) (b : B) :
  (m ≫= f) = Ok b → ∃ a, m = Ok a ∧ f a = Ok b.
Proof. destruct m; try discriminate. intros H. eauto. Qed.

Lemma bind_Abort_inv {A B} (f : A → result B) (m : result A) :
  (m ≫= f) = Abort → m = Abort ∨ ∃ a, m = Ok a ∧ f a = Abort.
Proof. destruct m; try discriminate; eauto. Qed.

(** Split a successful bind in hypothesis [H]. *)
Ltac inv_bind H :=
  let a := fresh "a" in
  let Ha := fresh "Hstep" in
  apply bind_Ok_inv in H as (a & Ha & H).

(** ** The store *)

(** Compute the fields of a store built from [store_node], [store_tree]. *)
Ltac proj_state :=
  cbn [nodes trees files store_node store_tree with_nodes with_trees with_files].

Lemma load_node_Ok σ p n :
  load_node σ p = Ok n ↔ p ≠ NULL ∧ nodes σ !! p = Some n.
Proof.
  unfold load_node. case_decide as Hp.
  - split; [discriminate | tauto].
  - destruct (nodes σ !! p) as [n'|]; split.
    + by intros [= ->].
    + by intros [_ [= ->]].
    + discriminate.
    + by intros [_ ?].
Qed.

Lemma load_tree_Ok σ t tr :
  load_tree σ t = Ok tr ↔ t ≠ NULL ∧ trees σ !! t = Some tr.
Proof.
  unfold load_tree. case_decide as Hp.
  - split; [discriminate | tauto].
  - destruct (trees σ !! t) as [n'|]; split.
    + by intros [= ->].
    + by intros [_ [= ->]].
    + discriminate.
    + by intros [_ ?].
Qed.

Lemma load_node_live σ p n :
  p ≠ NULL → nodes σ !! p = Some n → load_node σ p = Ok n.
Proof. intros. by apply load_node_Ok. Qed.

Lemma load_tree_live σ t tr :
  t ≠ NULL → trees σ !! t = Some tr → load_tree σ t = Ok tr.
Proof. intros. by apply load_tree_Ok. Qed.

Lemma load_node_dangling σ p : nodes σ !! p = None → load_node σ p = Undef.
Proof. intros H. unfold load_node. case_decide; [done|]. by rewrite H. Qed.

Lemma load_node_not_Abort σ p : load_node σ p ≠ Abort.
Proof. unfold load_node. case_decide; [done|]. by destruct (nodes σ !! p). Qed.

Lemma load_tree_not_Abort σ t : load_tree σ t ≠ Abort.
Proof. unfold load_tree. case_decide; [done|]. by destruct (trees σ !! t). Qed.

Lemma nodes_store_node p n σ : nodes (store_node p n σ) = <[p := n]> (nodes σ).
Proof. reflexivity. Qed.

Lemma trees_store_node p n σ : trees (store_node p n σ) = trees σ.
Proof. reflexivity. Qed.

Lemma nodes_store_tree t tr σ : nodes (store_tree t tr σ) = nodes σ.
Proof. reflexivity. Qed.

Lemma trees_store_tree t tr σ : trees (store_tree t tr σ) = <[t := tr]> (trees σ).
Proof. reflexivity. Qed.

Lemma files_store_node p n σ : files (store_node p n σ) = files σ.
Proof. reflexivity. Qed.

Lemma files_store_tree t tr σ : files (store_tree t tr σ) = files σ.
Proof. reflexivity. Qed.

Lemma update_node_Ok p f σ σ' :
  update_node p f σ = Ok σ' ↔
  ∃ n, p ≠ NULL ∧ nodes σ !! p = Some n ∧ σ' = store_node p (f n) σ.
Proof.
  unfold update_node. split.
  - intros H. inv_bind H. apply load_node_Ok in Hstep as [??].
    injection H as <-. eauto.
  - intros (n & ? & ? & ->). by rewrite (load_node_live σ p n).
Qed.

Lemma update_node_live p f σ n :
  p ≠ NULL → nodes σ !! p = Some n →
  update_node p f σ = Ok (store_node p (f n) σ).
Proof. intros. unfold update_node. by rewrite (load_node_live σ p n). Qed.

Lemma update_tree_live t f σ tr :
  t ≠ NULL → trees σ !! t = Some tr →
  update_tree t f σ = Ok (store_tree t (f tr) σ).
Proof. intros. unfold update_tree. by rewrite (load_tree_live σ t tr). Qed.

Lemma update_tree_Ok t f σ σ' :
  update_tree t f σ = Ok σ' ↔
  ∃ tr, t ≠ NULL ∧ trees σ !! t = Some tr ∧ σ' = store_tree t (f tr) σ.
Proof.
  unfold update_tree. split.
  - intros H. inv_bind H. apply load_tree_Ok in Hstep as [??].
    injection H as <-. eauto.
  - intros (n & ? & ? & ->). by rewrite (load_tree_live σ t n).
Qed.

(** ** Classification tables (C7) *)

(** C7.  The border shape and the colour are total functions given by a
    fixed table with a default: the six punctuation kinds have no border,
    the identifier kind is a rectangle and every other kind a diamond; each
    of the four syntactic roles has a colour of its own, distinct from the
    single colour of every other role. *)
Theorem classification_tables_total :
  (∀ t : TokenType, CellBordersFormat t = border_of_spec t) ∧
  (∀ r : PrsrNdType, CheckIfRuleName r = color_of_spec r) ∧
  NoDup (default_color :: (role_colors.*2)) ∧
  NoDup (role_colors.*1) ∧
  TOKEN_NAME ∉ no_border_types.
Proof.
  split_and!.
  - intros t. by destruct t.
  - intros r. by destruct r.
  - compute_done.
  - compute_done.
  - compute_done.
Qed.

(** ** [GetChild], [Parent] and [AddChild] step by step *)

Lemma load_children_Ok σ p cs :
  load_children σ p = Ok cs ↔
  ∃ n, p ≠ NULL ∧ nodes σ !! p = Some n ∧ nd_children n = Some cs.
Proof.
  unfold load_children. split.
  - intros H. inv_bind H. apply load_node_Ok in Hstep as [??].
    destruct (nd_children a) eqn:E; [|done]. injection H as ->. eauto.
  - intros (n & ? & Hn & Hc). rewrite (load_node_live σ p n) by done.
    rewrite bind_Ok. by rewrite Hc.
Qed.

Lemma GetChild_Ok σ p i c :
  GetChild σ p i = Ok c ↔
  ∃ n cs, p ≠ NULL ∧ nodes σ !! p = Some n ∧ nd_children n = Some cs ∧
          cs !! N.to_nat i = Some c.
Proof.
  unfold GetChild. split.
  - intros H. inv_bind H. apply load_children_Ok in Hstep as (n & ? & ? & ?).
    destruct (a !! N.to_nat i) eqn:E; [|done]. injection H as ->. eauto 10.
  - intros (n & cs & ? & Hn & Hc & Hi).
    assert (load_children σ p = Ok cs) as -> by (apply load_children_Ok; eauto).
    rewrite bind_Ok. by rewrite Hi.
Qed.

Lemma last_slot_index {A} (l : list A) (x : A) :
  N.to_nat (N.of_nat (length (l ++ [x])) - 1) = length l.
Proof. rewrite length_app. simpl. lia. Qed.

Lemma child_list_Some nn cs : nd_children nn = Some cs → child_list nn = cs.
Proof. unfold child_list. by intros ->. Qed.

Lemma child_list_None nn : nd_children nn = None → child_list nn = [].
Proof. unfold child_list. by intros ->. Qed.

(** [Parent] on a live tree with a live cursor. *)
Lemma Parent_live t σ tr cur :
  t ≠ NULL → trees σ !! t = Some tr →
  tr_current tr ≠ NULL → nodes σ !! tr_current tr = Some cur →
  Parent t σ = Ok (store_tree t (set_current (nd_parent cur) tr) σ).
Proof.
  intros Ht Htr Hc Hcur. unfold Parent.
  rewrite (load_tree_live σ t tr) by done. rewrite bind_Ok.
  by rewrite (load_node_live σ _ cur).
Qed.

Lemma Parent_Ok_inv t σ σ' :
  Parent t σ = Ok σ' →
  ∃ tr cur, t ≠ NULL ∧ trees σ !! t = Some tr ∧ tr_current tr ≠ NULL ∧
            nodes σ !! tr_current tr = Some cur ∧
            σ' = store_tree t (set_current (nd_parent cur) tr) σ.
Proof.
  unfold Parent. intros H. inv_bind H. apply load_tree_Ok in Hstep as [??].
  inv_bind H. apply load_node_Ok in Hstep as [??]. injection H as <-.
  eauto 10.
Qed.

(** The first branch of [AddChild]: the cursor is null. *)
Lemma AddChild_null_cursor t c σ tr :
  t ≠ NULL → has_text σ c → trees σ !! t = Some tr → tr_current tr = NULL →
  AddChild t c σ =
    Ok (c, store_tree t (set_current c (set_root c tr)) σ).
Proof.
  intros Ht (Hc & nn & tok & s & Hnn & Htok & Hs) Htr Hcur. unfold AddChild.
  rewrite !decide_False by done.
  rewrite (load_node_live σ c nn) by done. rewrite bind_Ok, Htok, Hs.
  rewrite (load_tree_live σ t tr) by done. rewrite bind_Ok.
  by rewrite decide_True.
Qed.

(** The state after the second branch of [AddChild]: [c] is appended to the
    children of the cursor [x], then stamped with [x] as parent. *)
Definition append_child (x c : ptr) (cur : Node) (σ : State) : State :=
  let σ1 := store_node x (set_children (Some (child_list cur ++ [c])) cur) σ in
  match nodes σ1 !! c with
  | Some nc => store_node c (set_parent x nc) σ1
  | None => σ1
  end.

Lemma AddChild_live_cursor t c σ tr cur :
  t ≠ NULL → has_text σ c → trees σ !! t = Some tr →
  tr_current tr ≠ NULL → nodes σ !! tr_current tr = Some cur →
  AddChild t c σ =
    Ok (c, store_tree t (set_current c tr) (append_child (tr_current tr) c cur σ)).
Proof.
  intros Ht (Hc & nn & tok & s & Hnn & Htok & Hs) Htr Hx Hcur. unfold AddChild.
  rewrite !decide_False by done.
  rewrite (load_node_live σ c nn) by done. rewrite bind_Ok, Htok, Hs.
  rewrite (load_tree_live σ t tr) by done. rewrite bind_Ok.
  rewrite decide_False by done.
  rewrite (load_node_live σ _ cur) by done. rewrite bind_Ok.
  set (arr := match nd_children cur with None => ArrayCtor | Some a => a end).
  assert (arr = child_list cur) as Harr by (unfold arr, child_list; by destruct (nd_children cur)).
  set (σ1 := store_node (tr_current tr) _ σ).
  assert (GetChild σ1 (tr_current tr) (N.of_nat (length (ArrayAdd arr c)) - 1) = Ok c) as ->.
  { apply GetChild_Ok.
    exists (set_children (Some (ArrayAdd arr c)) cur), (ArrayAdd arr c).
    split_and!; [done| |reflexivity|].
    - unfold σ1. rewrite nodes_store_node. apply lookup_insert_eq.
    - unfold ArrayAdd. rewrite last_slot_index. by rewrite list_lookup_middle. }
  rewrite bind_Ok. unfold append_child. subst σ1. unfold ArrayAdd.
  rewrite Harr. clear arr Harr.
  set (σ1 := store_node (tr_current tr) _ σ).
  assert (is_Some (nodes σ1 !! c)) as [nc Hnc].
  { unfold σ1. rewrite nodes_store_node.
    destruct (decide (tr_current tr = c)) as [->|].
    - rewrite lookup_insert_eq. eauto.
    - rewrite lookup_insert_ne by done. eauto. }
  rewrite Hnc. unfold update_node. rewrite (load_node_live _ c nc) by done.
  by rewrite bind_Ok.
Qed.

Lemma has_text_live σ p : has_text σ p → live σ p.
Proof. intros (? & nn & ? & ? & Hn & _). split; eauto. Qed.

Lemma has_text_store_tree σ t tr p :
  has_text (store_tree t tr σ) p ↔ has_text σ p.
Proof. reflexivity. Qed.

Lemma has_text_store_node σ q f nq p :
  nodes σ !! q = Some nq → nd_token (f nq) = nd_token nq →
  has_text σ p → has_text (store_node q (f nq) σ) p.
Proof.
  intros Hq Hf (Hp & nn & tok & s & Hnn & Htok & Hs). split; [done|].
  rewrite nodes_store_node. destruct (decide (q = p)) as [->|Hne].
  - rewrite lookup_insert_eq. rewrite Hq in Hnn. injection Hnn as ->.
    exists (f nn), tok, s. by rewrite Hf.
  - rewrite lookup_insert_ne by done. eauto 10.
Qed.

Lemma has_text_append_child σ x c cur p :
  nodes σ !! x = Some cur →
  has_text σ p → has_text (append_child x c cur σ) p.
Proof.
  intros Hx Hp. unfold append_child.
  set (σ1 := store_node x _ σ).
  assert (has_text σ1 p) as Hp1.
  { unfold σ1. by apply (has_text_store_node σ x (set_children _) cur). }
  destruct (nodes σ1 !! c) as [nc|] eqn:Hc; [|done].
  by apply (has_text_store_node σ1 c (set_parent x) nc).
Qed.

(** ** Cursor ascent (C5) *)

(** C5 (as amended).  On a live tree whose cursor is a live node, [Parent]
    returns with the cursor moved to the parent field of the previous cursor
    and nothing else changed; there is no check, so no call of [Parent] ever
    aborts, and from the root (parent field null) it returns with a null
    cursor. *)
Theorem Parent_ascends_unchecked :
  (∀ t σ, Parent t σ ≠ Abort) ∧
  (∀ t σ tr cur,
     t ≠ NULL → trees σ !! t = Some tr →
     tr_current tr ≠ NULL → nodes σ !! tr_current tr = Some cur →
     ∃ σ', Parent t σ = Ok σ' ∧
           trees σ' !! t = Some (set_current (nd_parent cur) tr) ∧
           nodes σ' = nodes σ ∧
           (∀ t', t' ≠ t → trees σ' !! t' = trees σ !! t') ∧
           (nd_parent cur = NULL →
              ∃ tr', trees σ' !! t = Some tr' ∧ tr_current tr' = NULL ∧
                     tr_root tr' = tr_root tr)).
Proof.
  split.
  - intros t σ. unfold Parent. intros H.
    apply bind_Abort_inv in H as [H | (tr & _ & H)].
    { by apply load_tree_not_Abort in H. }
    apply bind_Abort_inv in H as [H | (cur & _ & H)]; [|done].
    by apply load_node_not_Abort in H.
  - intros t σ tr cur Ht Htr Hc Hcur. eexists. split.
    { by apply Parent_live. }
    rewrite trees_store_tree, nodes_store_tree, lookup_insert_eq.
    split_and!; try done.
    + intros t' Hne. by rewrite lookup_insert_ne.
    + intros Hp. eexists. split; [done|]. by rewrite Hp.
Qed.

(** ** Preconditions of [AddChild] (C6) *)

(** C6.  [AddChild] aborts exactly when the tree argument is null, the
    child argument is null, or the child's token has a null text; when none
    of these holds, on a live tree whose cursor is null or a live node, it
    returns the child, which is the new cursor. *)
Theorem AddChild_preconditions :
  (∀ t c σ,
     AddChild t c σ = Abort ↔
     t = NULL ∨ c = NULL ∨
     ∃ nn tok, nodes σ !! c = Some nn ∧ nd_token nn = Some tok ∧ tk_txt tok = None) ∧
  (∀ t c σ tr,
     t ≠ NULL → trees σ !! t = Some tr → has_text σ c →
     tr_current tr = NULL ∨ live σ (tr_current tr) →
     ∃ σ' tr', AddChild t c σ = Ok (c, σ') ∧
               trees σ' !! t = Some tr' ∧ tr_current tr' = c).
Proof.
  split.
  - intros t c σ. unfold AddChild.
    destruct (decide (t = NULL)) as [Ht|Ht]; [by split; eauto|].
    destruct (decide (c = NULL)) as [Hc|Hc]; [by split; eauto|].
    destruct (nodes σ !! c) as [nn|] eqn:Hnn.
    2:{ rewrite (load_node_dangling σ c) by done.
        split; [done|]. intros [?|[?|(? & ? & ? & _)]]; done. }
    rewrite (load_node_live σ c nn) by done. rewrite bind_Ok.
    destruct (nd_token nn) as [tok|] eqn:Htok.
    2:{ split; [done|]. intros [?|[?|(? & ? & ? & ? & _)]]; simplify_eq. }
    destruct (tk_txt tok) as [s|] eqn:Hs.
    2:{ split; [|done]. intros _. right; right. eauto. }
    split.
    2:{ intros [?|[?|(? & ? & ? & ? & ?)]]; simplify_eq. }
    intros H. exfalso.
    apply bind_Abort_inv in H as [H | (tr & _ & H)].
    { by apply load_tree_not_Abort in H. }
    case_decide; [done|].
    apply bind_Abort_inv in H as [H | (cur & _ & H)].
    { by apply load_node_not_Abort in H. }
    apply bind_Abort_inv in H as [H | (lc & _ & H)].
    { unfold GetChild, load_children in H.
      apply bind_Abort_inv in H as [H | (cs & _ & H)].
      - apply bind_Abort_inv in H as [H | (n' & _ & H)].
        + by apply load_node_not_Abort in H.
        + by destruct (nd_children n').
      - by destruct (cs !! _). }
    apply bind_Abort_inv in H as [H | (? & _ & H)]; [|done].
    unfold update_node in H.
    apply bind_Abort_inv in H as [H | (? & _ & H)]; [|done].
    by apply load_node_not_Abort in H.
  - intros t c σ tr Ht Htr Hc [Hcur | [Hcur [cur Hlive]]].
    + rewrite (AddChild_null_cursor t c σ tr) by done.
      eexists _, _. split; [done|].
      rewrite trees_store_tree, lookup_insert_eq. done.
    + rewrite (AddChild_live_cursor t c σ tr cur) by done.
      eexists _, _. split; [done|].
      rewrite trees_store_tree, lookup_insert_eq. done.
Qed.

(** ** Rooting (C4) *)

Lemma AddChild_all_keeps_root t cs : ∀ σ tr,
  t ≠ NULL → trees σ !! t = Some tr → live σ (tr_current tr) →
  Forall (has_text σ) cs →
  ∃ σ' tr', AddChild_all t cs σ = Ok σ' ∧ trees σ' !! t = Some tr' ∧
            tr_root tr' = tr_root tr ∧ live σ' (tr_current tr').
Proof.
  induction cs as [|c cs IH]; intros σ tr Ht Htr Hlive Hcs.
  - simpl. by exists σ, tr.
  - apply Forall_cons in Hcs as [Hc Hcs]. simpl.
    destruct Hlive as [Hcur [cur Hlive]].
    rewrite (AddChild_live_cursor t c σ tr cur) by done.
    rewrite bind_Ok.
    set (σ1 := store_tree t _ _).
    destruct (IH σ1 (set_current c tr)) as (σ' & tr' & Hrun & Htr' & Hroot & Hl).
    + done.
    + unfold σ1. by rewrite trees_store_tree, lookup_insert_eq.
    + simpl. apply has_text_live. unfold σ1. apply has_text_store_tree.
      by apply has_text_append_child.
    + eapply Forall_impl; [exact Hcs|]. intros p Hp. unfold σ1.
      apply has_text_store_tree. by apply has_text_append_child.
    + exists σ', tr'. by rewrite Hrun, Htr', Hroot.
Qed.

(** C4 (as amended).  On an empty tree (null root, null cursor) the first
    [AddChild] makes its node both root and cursor, and however many
    [AddChild] calls follow it, each returns and the root is still that
    first node.  More generally an [AddChild] made while the cursor is a
    live node leaves the root alone; [AddChild] tests the cursor, not the
    root, so one made while the cursor is null installs its node as root
    and cursor whatever the root was. *)
Theorem AddChild_rooting :
  (∀ t σ tr c cs,
     t ≠ NULL → trees σ !! t = Some tr →
     tr_root tr = NULL → tr_current tr = NULL →
     has_text σ c → Forall (has_text σ) cs →
     ∃ σ1 tr1 σ' tr',
       AddChild t c σ = Ok (c, σ1) ∧
       trees σ1 !! t = Some tr1 ∧ tr_root tr1 = c ∧ tr_current tr1 = c ∧
       AddChild_all t cs σ1 = Ok σ' ∧
       trees σ' !! t = Some tr' ∧ tr_root tr' = c) ∧
  (∀ t σ tr c,
     t ≠ NULL → trees σ !! t = Some tr →
     has_text σ c → live σ (tr_current tr) →
     ∃ σ' tr',
       AddChild t c σ = Ok (c, σ') ∧
       trees σ' !! t = Some tr' ∧ tr_root tr' = tr_root tr ∧ tr_current tr' = c) ∧
  (∀ t σ tr c,
     t ≠ NULL → trees σ !! t = Some tr →
     has_text σ c → tr_current tr = NULL →
     ∃ σ' tr',
       AddChild t c σ = Ok (c, σ') ∧
       trees σ' !! t = Some tr' ∧ tr_root tr' = c ∧ tr_current tr' = c).
Proof.
  split_and!.
  - intros t σ tr c cs Ht Htr Hroot Hcur Hc Hcs.
    rewrite (AddChild_null_cursor t c σ tr) by done.
    set (σ1 := store_tree t _ σ).
    destruct (AddChild_all_keeps_root t cs σ1 (set_current c (set_root c tr)))
      as (σ' & tr' & Hrun & Htr' & Hr & _).
    + done.
    + unfold σ1. by rewrite trees_store_tree, lookup_insert_eq.
    + simpl. by apply has_text_live.
    + eapply Forall_impl; [exact Hcs|]. intros p Hp. by apply has_text_store_tree.
    + exists σ1, (set_current c (set_root c tr)), σ', tr'.
      split_and!; try done.
      unfold σ1. by rewrite trees_store_tree, lookup_insert_eq.
  - intros t σ tr c Ht Htr Hc [Hcur [cur Hlive]].
    rewrite (AddChild_live_cursor t c σ tr cur) by done.
    eexists _, _. split; [done|]. proj_state.
    by rewrite lookup_insert_eq.
  - intros t σ tr c Ht Htr Hc Hcur.
    rewrite (AddChild_null_cursor t c σ tr) by done.
    eexists _, _. split; [done|]. proj_state.
    by rewrite lookup_insert_eq.
Qed.

(** ** Node creation (C10) *)



Lemma bump_Node_fresh σ : bump_Node σ ≠ NULL → nodes σ !! bump_Node σ = None.
Proof.
  intros _. apply not_elem_of_dom. unfold bump_Node.
  pose proof (is_fresh ({[NULL]} ∪ dom (nodes σ))) as H. set_solver.
Qed.

Section Creation.

Variable TranslateTokenType : TokenType → string.
Variable calloc_Node : State → ptr.
Variable calloc_Token : State → bool.

(** [calloc] never hands out a block that is still live. *)
Hypothesis calloc_Node_fresh :
  ∀ σ, calloc_Node σ ≠ NULL → nodes σ !! calloc_Node σ = None.

Lemma NodeCtor_Ok σ p σ' :
  NodeCtor calloc_Node calloc_Token σ = Ok (p, σ') ↔
  p = calloc_Node σ ∧ p ≠ NULL ∧
  calloc_Token (store_node p zero_Node σ) = true ∧
  σ' = store_node p (set_token (Some zero_Token) zero_Node) (store_node p zero_Node σ).
Proof.
  unfold NodeCtor. case_decide as Hn.
  - split; [done|]. intros (-> & ? & _). done.
  - destruct (calloc_Token _) eqn:Htok; split.
    + intros [= <- <-]. done.
    + intros (-> & _ & _ & ->). done.
    + done.
    + intros (-> & _ & ? & _). congruence.
Qed.

Lemma fill_new_node_Ok t src ty p σ0 σ' q tr s :
  let σ := store_node p (set_token (Some zero_Token) zero_Node) (store_node p zero_Node σ0) in
  p ≠ NULL → t ≠ NULL → trees σ0 !! t = Some tr → src = Some s →
  fill_new_node t src ty p σ = Ok (q, σ') →
  q = p ∧
  nodes σ' = <[p := mkNode (Some (mkToken ty (Some s) PRSR_NONE)) None NULL p]> (nodes σ0) ∧
  trees σ' = <[t := set_size (tr_size tr + 1) tr]> (trees σ0) ∧
  files σ' = files σ0.
Proof.
  intros σ Hp Ht Htr -> H. unfold fill_new_node in H.
  rewrite (load_node_live σ p (set_token (Some zero_Token) zero_Node)) in H.
  2: done.
  2:{ unfold σ. rewrite nodes_store_node. apply lookup_insert_eq. }
  rewrite bind_Ok in H. simpl in H.
  unfold update_node in H.
  rewrite (load_node_live _ p (set_token (Some (set_type ty (mkToken TOKEN_UNKNOWN (Some s) PRSR_NONE))) (set_token (Some zero_Token) zero_Node))) in H.
  2: done.
  2:{ rewrite nodes_store_node. apply lookup_insert_eq. }
  rewrite ?bind_Ok in H. unfold update_tree in H.
  rewrite (load_tree_live _ t tr) in H by done.
  rewrite ?bind_Ok in H. simpl in H. injection H as <- <-.
  split; [done|]. split_and!.
  - rewrite nodes_store_tree, !nodes_store_node. unfold σ.
    rewrite !nodes_store_node. by rewrite !insert_insert_eq.
  - by rewrite trees_store_tree.
  - done.
Qed.

Lemma fill_new_node_returns t src ty p σ0 tr s :
  let σ := store_node p (set_token (Some zero_Token) zero_Node) (store_node p zero_Node σ0) in
  p ≠ NULL → t ≠ NULL → trees σ0 !! t = Some tr → src = Some s →
  ∃ σ', fill_new_node t src ty p σ = Ok (p, σ').
Proof.
  intros σ Hp Ht Htr ->. unfold fill_new_node.
  rewrite (load_node_live σ p (set_token (Some zero_Token) zero_Node)).
  2: done.
  2:{ unfold σ. rewrite nodes_store_node. apply lookup_insert_eq. }
  rewrite bind_Ok. simpl.
  unfold update_node.
  rewrite (load_node_live _ p (set_token (Some (set_type ty (mkToken TOKEN_UNKNOWN (Some s) PRSR_NONE))) (set_token (Some zero_Token) zero_Node))).
  2: done.
  2:{ rewrite nodes_store_node. apply lookup_insert_eq. }
  rewrite ?bind_Ok. unfold update_tree.
  rewrite (load_tree_live _ t tr) by done.
  rewrite ?bind_Ok. simpl. eauto.
Qed.



End Creation.

(** ** The exporter (C8, C9) *)

Lemma mbind_Some {A B} (f : A → option B) (a : A) : (Some a ≫= f) = f a.
Proof. reflexivity. Qed.

Lemma subtree_S fuel σ p :
  subtree (S fuel) σ p =
    if decide (p = NULL) then None else
    nn ← nodes σ !! p;
    kids ← mapM (subtree fuel σ) (child_list nn);
    Some (RNode p nn kids).
Proof. reflexivity. Qed.

Lemma subtree_Some_inv fuel σ p T :
  subtree fuel σ p = Some T →
  ∃ fuel' nn kids,
    fuel = S fuel' ∧ p ≠ NULL ∧ nodes σ !! p = Some nn ∧
    Forall2 (λ c k, subtree fuel' σ c = Some k) (child_list nn) kids ∧
    T = RNode p nn kids.
Proof.
  destruct fuel as [|fuel']; [done|]. rewrite subtree_S.
  case_decide as Hp; [done|]. intros H.
  destruct (nodes σ !! p) as [nn|] eqn:Hnn; [|done]. simpl in H.
  destruct (mapM (subtree fuel' σ) (child_list nn)) as [kids|] eqn:Hk; [|done].
  simpl in H. injection H as <-. apply mapM_Some in Hk.
  exists fuel', nn, kids. done.
Qed.

Lemma subtree_root fuel σ p T :
  subtree fuel σ p = Some T →
  p ≠ NULL ∧ nodes σ !! p = Some (rt_node T) ∧ rt_addr T = p.
Proof.
  intros H. apply subtree_Some_inv in H as (? & nn & kids & _ & ? & ? & _ & ->).
  done.
Qed.

(** More fuel reads the same tree. *)
Lemma subtree_mono fuel : ∀ σ p T,
  subtree fuel σ p = Some T → subtree (S fuel) σ p = Some T.
Proof.
  induction fuel as [|fuel IH]; intros σ p T H; [done|].
  apply subtree_Some_inv in H as (f' & nn & kids & [= <-] & Hp & Hnn & Hk & ->).
  rewrite subtree_S. rewrite decide_False by done. rewrite Hnn, mbind_Some.
  assert (mapM (subtree (S fuel) σ) (child_list nn) = Some kids) as ->; [|done].
  apply mapM_Some. eapply Forall2_impl; [exact Hk|]. intros c k. apply IH.
Qed.

Lemma subtree_mono_le fuel fuel' σ p T :
  (fuel ≤ fuel')%nat → subtree fuel σ p = Some T → subtree fuel' σ p = Some T.
Proof.
  induction 1 as [|m _ IH]; [done|]. intros H. by apply subtree_mono, IH.
Qed.

(** The tree read depends on the node blocks only. *)
Lemma subtree_nodes_ext fuel : ∀ σ σ' p,
  nodes σ' = nodes σ → subtree fuel σ' p = subtree fuel σ p.
Proof.
  induction fuel as [|fuel IH]; intros σ σ' p E; [done|].
  rewrite !subtree_S, E. case_decide; [done|].
  destruct (nodes σ !! p) as [nn|]; [|done]. rewrite !mbind_Some.
  by rewrite (mapM_ext _ (subtree fuel σ)) by (intros; by apply IH).
Qed.

Lemma for_children_app body cs1 cs2 out :
  for_children body (cs1 ++ cs2) out =
    out' ← for_children body cs1 out; for_children body cs2 out'.
Proof.
  revert out. induction cs1 as [|c cs1 IH]; intros out; [done|].
  simpl. destruct (body c out) as [o| | |]; try done. apply IH.
Qed.

Section Exporter.

Variable TranslateTokenType : TokenType → string.
Variable fopen_w : State → string → bool.


Lemma PrintNode_children fuel σ
  (IH : ∀ p T recs out,
      subtree fuel σ p = Some T →
      Forall2 (λ nn r, record_of TranslateTokenType nn = Some r) (preorder T) recs →
      PrintNode TranslateTokenType fuel σ (Some out) p = Ok (out ++ recs)) :
  ∀ cs kids recs out,
    Forall2 (λ c k, subtree fuel σ c = Some k) cs kids →
    Forall2 (λ nn r, record_of TranslateTokenType nn = Some r) (concat (map preorder kids)) recs →
    for_children (λ c o, PrintNode TranslateTokenType fuel σ (Some o) c) cs out = Ok (out ++ recs).
Proof.
  induction cs as [|c cs IHcs]; intros kids recs out Hk Hr.
  - apply Forall2_nil_inv_l in Hk as ->. simpl in Hr.
    apply Forall2_nil_inv_l in Hr as ->. simpl. by rewrite app_nil_r.
  - apply Forall2_cons_inv_l in Hk as (k & kids' & Hc & Hk & ->).
    simpl in Hr. apply Forall2_app_inv_l in Hr as (r1 & r2 & Hr1 & Hr2 & ->).
    simpl. rewrite (IH c k r1 out Hc Hr1). rewrite bind_Ok.
    rewrite (IHcs kids' r2 _ Hk Hr2). by rewrite app_assoc.
Qed.

(** The node pass writes the records of the tree under [p] in pre-order. *)
Lemma PrintNode_preorder fuel : ∀ σ p T recs out,
  subtree fuel σ p = Some T →
  Forall2 (λ nn r, record_of TranslateTokenType nn = Some r) (preorder T) recs →
  PrintNode TranslateTokenType fuel σ (Some out) p = Ok (out ++ recs).
Proof.
  induction fuel as [|fuel IH]; intros σ p T recs out HT Hr; [done|].
  apply subtree_Some_inv in HT as (f' & nn & kids & [= <-] & Hp & Hnn & Hk & ->).
  simpl in Hr. apply Forall2_cons_inv_l in Hr as (r & recs' & Hrec & Hr & ->).
  simpl. rewrite decide_False by done.
  rewrite (load_node_live σ p nn) by done. rewrite bind_Ok.
  unfold record_of in Hrec.
  destruct (nd_token nn) as [tok|]; [|done]. simpl in Hrec.
  destruct (tk_txt tok) as [txt|]; [|done]. simpl in Hrec. injection Hrec as <-.
  destruct (nd_children nn) as [cs|] eqn:Hcs.
  - rewrite (child_list_Some nn cs Hcs) in Hk.
    rewrite (PrintNode_children fuel σ (IH σ) cs kids recs' _ Hk Hr).
    by rewrite <- app_assoc.
  - rewrite (child_list_None nn Hcs) in Hk.
    apply Forall2_nil_inv_l in Hk as ->. simpl in Hr.
    by apply Forall2_nil_inv_l in Hr as ->.
Qed.

Lemma for_children_cons body c cs out :
  for_children body (c :: cs) out =
    out' ← body c out; for_children body cs out'.
Proof. reflexivity. Qed.

Lemma edge_to_live σ from c cn out :
  c ≠ NULL → nodes σ !! c = Some cn →
  edge_to σ from c out = Ok (out ++ [PrintEdge from (nd_id cn)]).
Proof. intros ??. unfold edge_to. by rewrite (load_node_live σ c cn). Qed.

Lemma edge_loop σ from : ∀ cs kids out fuel,
  Forall2 (λ c k, subtree fuel σ c = Some k) cs kids →
  for_children (edge_to σ from) cs out =
    Ok (out ++ map (λ k, PrintEdge from (nd_id (rt_node k))) kids).
Proof.
  induction cs as [|c cs IH]; intros kids out fuel Hk.
  - apply Forall2_nil_inv_l in Hk as ->. simpl. by rewrite app_nil_r.
  - apply Forall2_cons_inv_l in Hk as (k & kids' & Hc & Hk & ->).
    apply subtree_root in Hc as (Hne & Hn & _).
    rewrite for_children_cons, (edge_to_live σ from c _ out Hne Hn), bind_Ok.
    rewrite (IH kids' _ fuel Hk). by rewrite <- app_assoc.
Qed.

Lemma ConnectNode_children fuel σ
  (IH : ∀ p T out,
      subtree fuel σ p = Some T →
      ConnectNode fuel σ (Some out) p = Ok (out ++ edges_of T)) :
  ∀ cs kids out,
    Forall2 (λ c k, subtree fuel σ c = Some k) cs kids →
    for_children (λ c o, ConnectNode fuel σ (Some o) c) cs out =
      Ok (out ++ concat (map edges_of kids)).
Proof.
  induction cs as [|c cs IHcs]; intros kids out Hk.
  - apply Forall2_nil_inv_l in Hk as ->. simpl. by rewrite app_nil_r.
  - apply Forall2_cons_inv_l in Hk as (k & kids' & Hc & Hk & ->).
    simpl. rewrite (IH c k out Hc), bind_Ok.
    rewrite (IHcs kids' _ Hk). by rewrite app_assoc.
Qed.

(** The edge pass writes the edges of the tree under [p]: parent to each
    child, then the children's subtrees in order. *)
Lemma ConnectNode_edges fuel : ∀ σ p T out,
  subtree fuel σ p = Some T →
  ConnectNode fuel σ (Some out) p = Ok (out ++ edges_of T).
Proof.
  induction fuel as [|fuel IH]; intros σ p T out HT; [done|].
  apply subtree_Some_inv in HT as (f' & nn & kids & [= <-] & Hp & Hnn & Hk & ->).
  simpl. rewrite decide_False by done.
  rewrite (load_node_live σ p nn) by done. rewrite bind_Ok.
  destruct (nd_children nn) as [cs|] eqn:Hcs.
  - rewrite (child_list_Some nn cs Hcs) in Hk.
    rewrite (edge_loop σ (nd_id nn) cs kids out fuel Hk), bind_Ok.
    rewrite (ConnectNode_children fuel σ (IH σ) cs kids _ Hk).
    by rewrite <- app_assoc.
  - rewrite (child_list_None nn Hcs) in Hk.
    apply Forall2_nil_inv_l in Hk as ->. simpl. by rewrite app_nil_r.
Qed.

Lemma secondary_label_cases txt ty :
  (txt = TranslateTokenType ty → secondary_label TranslateTokenType txt ty = "") ∧
  (txt ≠ TranslateTokenType ty → secondary_label TranslateTokenType txt ty = TranslateTokenType ty) ∧
  (TranslateTokenType ty ≠ "" →
     (secondary_label TranslateTokenType txt ty ≠ "" ↔ txt ≠ TranslateTokenType ty)).
Proof.
  unfold secondary_label. case_decide as E.
  - split_and!; [done | done | intros _; split; done].
  - split_and!; [done | done |]. intros Hne. split; done.
Qed.

(** C8.  For every node of a finite tree whose tokens carry a text, the
    node pass writes the records of the nodes in pre-order, and the
    secondary label of each record is empty when the text of the node equals
    the canonical name of its token kind and is that canonical name
    otherwise; so, canonical names being non-empty, the label is non-empty
    if and only if the text differs from the canonical name. *)
Theorem secondary_label_condition fuel σ p T recs out :
  subtree fuel σ p = Some T →
  node_records TranslateTokenType T = Some recs →
  PrintNode TranslateTokenType fuel σ (Some out) p = Ok (out ++ recs) ∧
  Forall2 (λ nn r,
      ∃ tok txt sec,
        nd_token nn = Some tok ∧ tk_txt tok = Some txt ∧
        r = PrintNodeRecord (nd_id nn)
              (CellBordersFormat (tk_type tok))
              (CheckIfRuleName (tk_parser_type tok)) txt sec ∧
        (txt = TranslateTokenType (tk_type tok) → sec = "") ∧
        (txt ≠ TranslateTokenType (tk_type tok) →
           sec = TranslateTokenType (tk_type tok)) ∧
        (TranslateTokenType (tk_type tok) ≠ "" →
           (sec ≠ "" ↔ txt ≠ TranslateTokenType (tk_type tok))))
    (preorder T) recs.
Proof.
  intros HT Hrecs. apply mapM_Some in Hrecs. split.
  - by apply (PrintNode_preorder fuel σ p T).
  - eapply Forall2_impl; [exact Hrecs|]. intros nn r Hr.
    unfold record_of in Hr.
    destruct (nd_token nn) as [tok|] eqn:Htok; [|done]. simpl in Hr.
    destruct (tk_txt tok) as [txt|] eqn:Htxt; [|done]. simpl in Hr.
    injection Hr as <-.
    exists tok, txt, (secondary_label TranslateTokenType txt (tk_type tok)).
    destruct (secondary_label_cases txt (tk_type tok)) as (H1 & H2 & H3).
    by split_and!.
Qed.

Lemma DebugTree_run fuel t σ tr T recs :
  t ≠ NULL → trees σ !! t = Some tr →
  subtree fuel σ (tr_root tr) = Some T →
  node_records TranslateTokenType T = Some recs →
  fopen_w σ graph_dot = true →
  DebugTree TranslateTokenType fopen_w fuel t σ =
    Ok (with_files (<[graph_dot := graph_document T recs]> (files σ)) σ).
Proof.
  intros Ht Htr HT Hrecs Hopen. unfold DebugTree.
  rewrite decide_False by done. rewrite Hopen.
  rewrite (load_tree_live σ t tr) by done. rewrite bind_Ok.
  apply mapM_Some in Hrecs.
  rewrite (PrintNode_preorder fuel σ _ T recs _ HT Hrecs), bind_Ok.
  rewrite (ConnectNode_edges fuel σ _ T _ HT), bind_Ok.
  unfold graph_document. do 3 f_equal.
  by rewrite <- !app_assoc.
Qed.

(** C9.  For a finite tree whose tokens carry a text, an export writes the
    node records in pre-order, then the edge records, and changes neither a
    node nor a tree; a second export right after it, with any budget at
    least as large, writes the very same document and leaves the store as
    the first export left it. *)
Theorem export_deterministic fuel t σ tr T recs :
  t ≠ NULL → trees σ !! t = Some tr →
  subtree fuel σ (tr_root tr) = Some T →
  node_records TranslateTokenType T = Some recs →
  fopen_w σ graph_dot = true →
  ∃ σ1,
    DebugTree TranslateTokenType fopen_w fuel t σ = Ok σ1 ∧
    files σ1 !! graph_dot = Some (graph_document T recs) ∧
    nodes σ1 = nodes σ ∧ trees σ1 = trees σ ∧
    ∀ fuel', (fuel ≤ fuel')%nat → fopen_w σ1 graph_dot = true →
      DebugTree TranslateTokenType fopen_w fuel' t σ1 = Ok σ1.
Proof.
  intros Ht Htr HT Hrecs Hopen.
  exists (with_files (<[graph_dot := graph_document T recs]> (files σ)) σ).
  split; [by apply DebugTree_run with (tr := tr)|].
  split; [apply lookup_insert_eq|]. split; [done|]. split; [done|].
  intros fuel' Hle Hopen'.
  rewrite (DebugTree_run fuel' t _ tr T recs); try done.
  - unfold with_files. simpl. by rewrite insert_insert_eq.
  - rewrite (subtree_nodes_ext fuel' σ) by done.
    by apply (subtree_mono_le fuel).
Qed.

End Exporter.

(** ** Reading back what was stored *)

Lemma state_eq σ σ' :
  nodes σ = nodes σ' → trees σ = trees σ' → files σ = files σ' → σ = σ'.
Proof. destruct σ, σ'. simpl. by intros -> -> ->. Qed.

Lemma load_node_store_node_eq p n σ :
  p ≠ NULL → load_node (store_node p n σ) p = Ok n.
Proof.
  intros. apply load_node_live; [done|]. rewrite nodes_store_node.
  apply lookup_insert_eq.
Qed.

Lemma load_node_store_node_ne p q n σ :
  p ≠ q → load_node (store_node p n σ) q = load_node σ q.
Proof.
  intros. unfold load_node. rewrite nodes_store_node.
  by rewrite lookup_insert_ne.
Qed.

Lemma load_node_store_tree t tr σ q :
  load_node (store_tree t tr σ) q = load_node σ q.
Proof. reflexivity. Qed.

Lemma load_tree_store_tree_eq t tr σ :
  t ≠ NULL → load_tree (store_tree t tr σ) t = Ok tr.
Proof.
  intros. apply load_tree_live; [done|]. rewrite trees_store_tree.
  apply lookup_insert_eq.
Qed.

Lemma load_tree_store_node p n σ t :
  load_tree (store_node p n σ) t = load_tree σ t.
Proof. reflexivity. Qed.

Lemma store_tree_store_tree t tr tr' σ :
  store_tree t tr (store_tree t tr' σ) = store_tree t tr σ.
Proof.
  apply state_eq; try done. rewrite !trees_store_tree.
  apply insert_insert_eq.
Qed.

Lemma store_node_store_node p n n' σ :
  store_node p n (store_node p n' σ) = store_node p n σ.
Proof.
  apply state_eq; try done. rewrite !nodes_store_node.
  apply insert_insert_eq.
Qed.

Lemma store_tree_store_node t tr p n σ :
  store_tree t tr (store_node p n σ) = store_node p n (store_tree t tr σ).
Proof. by apply state_eq. Qed.

Lemma store_node_id p n σ : nodes σ !! p = Some n → store_node p n σ = σ.
Proof.
  intros H. apply state_eq; try done. rewrite nodes_store_node.
  by apply insert_id.
Qed.

Lemma store_tree_id t tr σ : trees σ !! t = Some tr → store_tree t tr σ = σ.
Proof.
  intros H. apply state_eq; try done. rewrite trees_store_tree.
  by apply insert_id.
Qed.

Lemma set_parent_set_parent p q n : set_parent p (set_parent q n) = set_parent p n.
Proof. reflexivity. Qed.

Lemma set_parent_id n : set_parent (nd_parent n) n = n.
Proof. by destruct n. Qed.

Lemma set_parent_same p n : nd_parent n = p → set_parent p n = n.
Proof. intros <-. apply set_parent_id. Qed.

Lemma set_current_id tr : set_current (tr_current tr) tr = tr.
Proof. by destruct tr. Qed.

Lemma has_text_store_other σ q nq p :
  q ≠ p → has_text σ p → has_text (store_node q nq σ) p.
Proof.
  intros Hne (Hp & nn & tok & s & Hnn & Htok & Hs). split; [done|].
  exists nn, tok, s. rewrite nodes_store_node, lookup_insert_ne by done. done.
Qed.

(** [append_child] when the child is not the cursor itself. *)
Lemma append_child_ne x c cur nc σ :
  x ≠ c → nodes σ !! c = Some nc →
  append_child x c cur σ =
    store_node c (set_parent x nc)
      (store_node x (set_children (Some (child_list cur ++ [c])) cur) σ).
Proof.
  intros Hne Hc. unfold append_child.
  rewrite nodes_store_node, lookup_insert_ne by done. by rewrite Hc.
Qed.

Lemma trees_append_child x c cur σ : trees (append_child x c cur σ) = trees σ.
Proof.
  unfold append_child.
  by destruct (nodes (store_node x _ σ) !! c).
Qed.

Lemma files_append_child x c cur σ : files (append_child x c cur σ) = files σ.
Proof.
  unfold append_child.
  by destruct (nodes (store_node x _ σ) !! c).
Qed.

(** ** [InsertParent] (C2) *)

(** The second half of [InsertParent], from the assignment to the cursor
    on. *)
Lemma InsertParent_tail t n X σ1 tr xn nn1 :
  t ≠ NULL → trees σ1 !! t = Some tr → X = tr_current tr →
  has_text σ1 X → nodes σ1 !! X = Some xn →
  n ≠ NULL → nodes σ1 !! n = Some nn1 → n ≠ X →
  (σ2 ← update_tree t (set_current n) σ1;
   '(_, σ3) ← AddChild t X σ2;
   σ4 ← update_node X (set_parent n) σ3;
   σ5 ← Parent t σ4;
   tr5 ← load_tree σ5 t;
   if decide (X = tr_root tr5) then Ok (store_tree t (set_root n tr5) σ5)
   else Ok σ5) =
  Ok (store_tree t
        (mkTree (if decide (X = tr_root tr) then n else tr_root tr) n (tr_size tr))
        (store_node X (set_parent n xn)
           (store_node n (set_children (Some (child_list nn1 ++ [X])) nn1) σ1))).
Proof.
  intros Ht Htr1 HXdef HX1 Hxn1 Hn Hnn1 HnX.
  assert (X ≠ NULL) as HXn by apply HX1.
  unfold update_tree. rewrite (load_tree_live σ1 t tr) by done. rewrite !bind_Ok.
  rewrite (AddChild_live_cursor t X _ (set_current n tr) nn1); try done.
  2:{ rewrite trees_store_tree. apply lookup_insert_eq. }
  rewrite bind_Ok. simpl tr_current.
  rewrite (append_child_ne n X nn1 xn) by done.
  unfold update_node. rewrite load_node_store_tree.
  rewrite load_node_store_node_eq by done. rewrite !bind_Ok.
  rewrite set_parent_set_parent.
  rewrite (Parent_live t _ (set_current X (set_current n tr)) (set_parent n xn)); try done.
  2,3: proj_state; apply lookup_insert_eq.
  rewrite bind_Ok.
  rewrite load_tree_store_tree_eq by done. rewrite bind_Ok. simpl tr_root.
  assert (∀ tr' : Tree,
    store_tree t tr'
      (store_node X (set_parent n xn)
         (store_tree t (set_current X (set_current n tr))
            (store_node X (set_parent n xn)
               (store_node n (set_children (Some (child_list nn1 ++ [X])) nn1)
                  (store_tree t (set_current n tr) σ1))))) =
    store_tree t tr'
      (store_node X (set_parent n xn)
         (store_node n (set_children (Some (child_list nn1 ++ [X])) nn1) σ1))) as Hnorm.
  { intros tr'. apply state_eq; proj_state.
    - by rewrite insert_insert_eq.
    - by rewrite !insert_insert_eq.
    - done. }
  case_decide as Hroot.
  - rewrite store_tree_store_tree. by rewrite Hnorm.
  - by rewrite Hnorm.
Qed.

Lemma InsertParent_run t n σ tr xn nn :
  let X := tr_current tr in
  t ≠ NULL → trees σ !! t = Some tr →
  has_text σ X → nodes σ !! X = Some xn →
  n ≠ NULL → nodes σ !! n = Some nn → n ≠ X →
  (nd_parent xn = NULL ∨
   ∃ pn c cs, nodes σ !! nd_parent xn = Some pn ∧ nd_children pn = Some (c :: cs) ∧
              nd_parent xn ≠ X ∧ nd_parent xn ≠ n) →
  InsertParent t n σ =
    Ok (store_tree t
          (mkTree (if decide (X = tr_root tr) then n else tr_root tr) n (tr_size tr))
          (splice_parent n X xn nn σ)).
Proof.
  intros X Ht Htr HX Hxn Hn Hnn HnX Hpar.
  unfold InsertParent. rewrite (load_tree_live σ t tr) by done. rewrite bind_Ok.
  fold X. rewrite (load_node_live σ X xn) by apply HX || done. rewrite bind_Ok.
  unfold splice_parent.
  destruct (decide (nd_parent xn = NULL)) as [HP|HP].
  - rewrite bind_Ok.
    by apply (InsertParent_tail t n X σ tr xn nn).
  - destruct Hpar as [?|(pn & c & cs & Hpn & Hcs & HPX & HPn)]; [done|].
    rewrite Hpn. rewrite (load_node_live σ _ pn) by done. rewrite bind_Ok, Hcs.
    rewrite (child_list_Some pn _ Hcs).
    set (σP := store_node (nd_parent xn) _ σ).
    rewrite (update_node_live n (set_parent (nd_parent xn)) σP nn); try done.
    2:{ unfold σP. proj_state. by rewrite lookup_insert_ne. }
    rewrite bind_Ok.
    rewrite (InsertParent_tail t n X (store_node n (set_parent (nd_parent xn) nn) σP)
               tr xn (set_parent (nd_parent xn) nn)); try done.
    + by rewrite store_node_store_node.
    + apply has_text_store_other; [done|]. by apply has_text_store_other.
    + unfold σP. rewrite !nodes_store_node, !lookup_insert_ne by done. done.
    + rewrite nodes_store_node. apply lookup_insert_eq.
Qed.

Lemma elem_of_concat_map {A B} (f : A → list B) (l : list A) (x : B) :
  x ∈ concat (map f l) ↔ ∃ a, a ∈ l ∧ x ∈ f a.
Proof.
  induction l as [|a l IH]; simpl.
  - split; [by intros ?%elem_of_nil | by intros (? & ?%elem_of_nil & _)].
  - rewrite elem_of_app, IH. split.
    + intros [H | (b & ? & ?)].
      * exists a. split; [apply list_elem_of_here | done].
      * exists b. split; [by apply list_elem_of_further | done].
    + intros (b & [-> | ?]%elem_of_cons & ?); [by left|]. right. eauto.
Qed.

Lemma subtree_frame_kids fuel σ σ'
  (IH : ∀ c k, subtree fuel σ c = Some k →
          (∀ q, q ∈ addrs k → nodes σ' !! q = nodes σ !! q) →
          subtree fuel σ' c = Some k) :
  ∀ cs kids,
    Forall2 (λ c k, subtree fuel σ c = Some k) cs kids →
    (∀ q, q ∈ concat (map addrs kids) → nodes σ' !! q = nodes σ !! q) →
    Forall2 (λ c k, subtree fuel σ' c = Some k) cs kids.
Proof.
  induction 1 as [|c k cs kids Hc _ IHk]; intros Hsame; constructor.
  - apply IH; [done|]. intros q Hq. apply Hsame. simpl.
    apply elem_of_app. by left.
  - apply IHk. intros q Hq. apply Hsame. simpl.
    apply elem_of_app. by right.
Qed.

(** A tree read from blocks that did not change is the same tree. *)
Lemma subtree_frame fuel : ∀ σ σ' c k,
  subtree fuel σ c = Some k →
  (∀ q, q ∈ addrs k → nodes σ' !! q = nodes σ !! q) →
  subtree fuel σ' c = Some k.
Proof.
  induction fuel as [|fuel IH]; intros σ σ' c k Hk Hsame; [done|].
  apply subtree_Some_inv in Hk as (f' & nn & kids & [= <-] & Hp & Hnn & Hk & ->).
  rewrite subtree_S, decide_False by done.
  rewrite Hsame by (simpl; apply list_elem_of_here).
  rewrite Hnn, mbind_Some.
  assert (mapM (subtree fuel σ') (child_list nn) = Some kids) as ->; [|done].
  apply mapM_Some. apply (subtree_frame_kids fuel σ σ' (IH σ σ') _ _ Hk).
  intros q Hq. apply Hsame. simpl. by apply list_elem_of_further.
Qed.

Lemma splice_parent_lookup_X n X xn nn σ :
  nodes (splice_parent n X xn nn σ) !! X = Some (set_parent n xn).
Proof. unfold splice_parent. proj_state. apply lookup_insert_eq. Qed.

Lemma splice_parent_lookup_n n X xn nn σ :
  n ≠ X →
  nodes (splice_parent n X xn nn σ) !! n =
    Some (mkNode (nd_token nn) (Some (child_list nn ++ [X]))
            (if decide (nd_parent xn = NULL) then nd_parent nn else nd_parent xn)
            (nd_id nn)).
Proof.
  intros. unfold splice_parent. proj_state.
  rewrite lookup_insert_ne, lookup_insert_eq by done.
  by case_decide.
Qed.

Lemma splice_parent_lookup_other n X xn nn σ q :
  q ≠ X → q ≠ n → q ≠ nd_parent xn →
  nodes (splice_parent n X xn nn σ) !! q = nodes σ !! q.
Proof.
  intros. unfold splice_parent. proj_state.
  rewrite !lookup_insert_ne by done.
  case_decide; [done|]. destruct (nodes σ !! nd_parent xn); [|done].
  proj_state. by rewrite lookup_insert_ne.
Qed.

Lemma splice_parent_lookup_P n X xn nn σ pn :
  nd_parent xn ≠ NULL → nd_parent xn ≠ X → nd_parent xn ≠ n →
  nodes σ !! nd_parent xn = Some pn →
  nodes (splice_parent n X xn nn σ) !! nd_parent xn =
    Some (set_children
            (Some (<[(length (child_list pn) - 1)%nat := n]> (child_list pn))) pn).
Proof.
  intros ? ? ? Hpn. unfold splice_parent. proj_state.
  rewrite !lookup_insert_ne by done.
  rewrite decide_False by done. rewrite Hpn. proj_state.
  apply lookup_insert_eq.
Qed.

Lemma last_slot_minus {A} (front : list A) (x : A) :
  (length (front ++ [x]) - 1)%nat = length front.
Proof. rewrite length_app. simpl. lia. Qed.

Lemma last_insert_last {A} (l : list A) (x : A) :
  l ≠ [] → last (<[(length l - 1)%nat := x]> l) = Some x.
Proof.
  intros Hl. rewrite last_lookup, length_insert.
  replace (Init.Nat.pred (length l)) with (length l - 1)%nat by lia.
  apply list_lookup_insert_eq. destruct l; [done|]. simpl. lia.
Qed.

(** C2.  Let the cursor of [t] be the node [X], with the finite tree [T]
    beneath it, in which neither [X], nor [n], nor the parent of [X] occurs
    below [X].  [InsertParent(t, n)] returns; [n] is written into the last
    child slot of the old parent of [X] and takes that parent (every other
    slot is kept; when [X] is the last child, this is the slot of [X]), or
    becomes the root if [X] was the root; [X] is the one child added to [n]
    and has [n] as parent; the subtrees beneath [X] are exactly the ones
    before; no other node changes; the cursor is [n]. *)
Theorem InsertParent_correct t n σ tr xn nn fuel T :
  let X := tr_current tr in
  let P := nd_parent xn in
  t ≠ NULL → trees σ !! t = Some tr →
  has_text σ X → nodes σ !! X = Some xn →
  n ≠ NULL → nodes σ !! n = Some nn → n ≠ X →
  (P = NULL ∨
   ∃ pn c cs, nodes σ !! P = Some pn ∧ nd_children pn = Some (c :: cs) ∧
              P ≠ X ∧ P ≠ n) →
  subtree fuel σ X = Some T →
  Forall (λ k, (X ∉ addrs k) ∧ (n ∉ addrs k) ∧ (P ∉ addrs k)) (rt_kids T) →
  ∃ σ',
    InsertParent t n σ = Ok σ' ∧
    trees σ' !! t =
      Some (mkTree (if decide (X = tr_root tr) then n else tr_root tr) n (tr_size tr)) ∧
    (P ≠ NULL →
       ∃ pn, nodes σ !! P = Some pn ∧
             nodes σ' !! P =
               Some (set_children
                       (Some (<[(length (child_list pn) - 1)%nat := n]> (child_list pn)))
                       pn) ∧
             last (<[(length (child_list pn) - 1)%nat := n]> (child_list pn)) = Some n ∧
             ∀ front, child_list pn = front ++ [X] →
               <[(length (child_list pn) - 1)%nat := n]> (child_list pn) = front ++ [n]) ∧
    nodes σ' !! n =
      Some (mkNode (nd_token nn) (Some (child_list nn ++ [X]))
              (if decide (P = NULL) then nd_parent nn else P) (nd_id nn)) ∧
    nodes σ' !! X = Some (set_parent n xn) ∧
    (∀ q, q ≠ X → q ≠ n → q ≠ P → nodes σ' !! q = nodes σ !! q) ∧
    subtree fuel σ' X = Some (RNode X (set_parent n xn) (rt_kids T)).
Proof.
  intros X P Ht Htr HX Hxn Hn Hnn HnX Hpar HT Hkids.
  eexists. split.
  { by apply (InsertParent_run t n σ tr xn nn). }
  proj_state. rewrite lookup_insert_eq.
  split; [done|]. split_and!.
  - intros HP. destruct Hpar as [?|(pn & c & cs & Hpn & Hcs & HPX & HPn)]; [done|].
    exists pn. split; [done|]. split_and!.
    + by apply splice_parent_lookup_P.
    + apply last_insert_last. by rewrite (child_list_Some pn _ Hcs).
    + intros front ->. rewrite last_slot_minus.
      rewrite insert_app_r_alt by lia. by rewrite Nat.sub_diag.
  - by apply splice_parent_lookup_n.
  - apply splice_parent_lookup_X.
  - intros q ???. by apply splice_parent_lookup_other.
  - apply subtree_Some_inv in HT as (f' & xn' & kids & -> & HXn & Hxn' & Hk & ->).
    assert (xn' = xn) as -> by congruence. simpl in Hkids.
    rewrite (subtree_nodes_ext _ (splice_parent n X xn nn σ)) by done.
    rewrite subtree_S, decide_False by done.
    rewrite splice_parent_lookup_X, mbind_Some.
    change (child_list (set_parent n xn)) with (child_list xn).
    assert (mapM (subtree f' (splice_parent n X xn nn σ)) (child_list xn) = Some kids)
      as ->; [|done].
    apply mapM_Some.
    apply (subtree_frame_kids f' σ _ (subtree_frame f' σ _) _ _ Hk).
    intros q Hq. apply elem_of_concat_map in Hq as (k & Hk' & Hq).
    rewrite Forall_forall in Hkids. destruct (Hkids k Hk') as (H1 & H2 & H3).
    apply splice_parent_lookup_other; intros ->; done.
Qed.

(** ** [AppendTree] (C3) *)

Lemma append_child_lookup F c fn σ q :
  nodes σ !! F = Some fn → is_Some (nodes σ !! c) →
  nodes (append_child F c fn σ) !! q =
    adopt_node F c (child_list fn) q <$> nodes σ !! q.
Proof.
  intros HF [nc Hc]. unfold append_child. proj_state.
  destruct (decide (F = c)) as [<-|Hne].
  - rewrite lookup_insert_eq. proj_state.
    destruct (decide (q = F)) as [->|Hq].
    + rewrite lookup_insert_eq, HF. simpl. unfold adopt_node.
      by repeat case_decide.
    + rewrite !lookup_insert_ne by done.
      destruct (nodes σ !! q); [|done]. simpl. unfold adopt_node.
      by repeat case_decide.
  - rewrite lookup_insert_ne, Hc by done. proj_state.
    destruct (decide (q = c)) as [->|Hq].
    + rewrite lookup_insert_eq, Hc. simpl. unfold adopt_node.
      repeat case_decide; congruence.
    + rewrite lookup_insert_ne by done.
      destruct (decide (q = F)) as [->|Hq'].
      * rewrite lookup_insert_eq, HF. simpl. unfold adopt_node.
        repeat case_decide; congruence.
      * rewrite lookup_insert_ne by done.
        destruct (nodes σ !! q); [|done]. simpl. unfold adopt_node.
        repeat case_decide; congruence.
Qed.

Lemma lookup_adopt_state F old moved σ q :
  nodes (adopt_state F old moved σ) !! q =
    adopted F old moved q <$> nodes σ !! q.
Proof.
  unfold adopt_state. proj_state. rewrite map_lookup_imap.
  by destruct (nodes σ !! q).
Qed.

Lemma adopt_state_nil F old σ : adopt_state F old [] σ = σ.
Proof.
  apply state_eq; try done. apply map_eq. intros q.
  rewrite lookup_adopt_state.
  destruct (nodes σ !! q) as [nq|]; [|done]. simpl. f_equal. unfold adopted.
  case_decide as H1; [by apply elem_of_nil in H1|].
  case_decide as H2; [by destruct H2 | done].
Qed.

Lemma has_text_adopt_state F old moved σ p :
  has_text σ p → has_text (adopt_state F old moved σ) p.
Proof.
  intros (Hp & nn & tok & s & Hnn & Htok & Hs). split; [done|].
  exists (adopted F old moved p nn), tok, s.
  rewrite lookup_adopt_state, Hnn. split_and!; try done.
  unfold adopted. by repeat case_decide.
Qed.

Lemma adopted_children F old moved q nq :
  child_list nq = old →
  child_list (adopted F old moved q nq) =
    if decide (q = F) then old ++ moved else child_list nq.
Proof.
  intros Hold. unfold adopted.
  destruct (decide (q = F)) as [->|Hq].
  - destruct moved as [|m moved].
    + case_decide as H1; [by apply elem_of_nil in H1|].
      case_decide as H2; [by destruct H2|]. by rewrite app_nil_r.
    + case_decide; (case_decide as H2; [done | by destruct H2]).
  - case_decide; (case_decide as H2; [by destruct H2 | done]).
Qed.

Lemma adopted_children_ne F old moved q nq :
  q ≠ F → nd_children (adopted F old moved q nq) = nd_children nq.
Proof.
  intros Hq. unfold adopted.
  case_decide; (case_decide as H2; [by destruct H2 | done]).
Qed.

Lemma adopted_parent F old moved q nq :
  nd_parent (adopted F old moved q nq) =
    if decide (q ∈ moved) then F else nd_parent nq.
Proof. unfold adopted. by repeat case_decide. Qed.

(** One more node adopted. *)
Lemma adopt_node_adopted F c old moved q nq :
  adopt_node F c (old ++ moved) q (adopted F old moved q nq) =
    adopted F old (moved ++ [c]) q nq.
Proof.
  unfold adopt_node, adopted.
  assert (moved ++ [c] ≠ []) as Hne by (by destruct moved).
  destruct (decide (q = F)) as [->|HqF].
  - rewrite (decide_True (P := F = F ∧ moved ++ [c] ≠ [])) by done.
    rewrite <- (assoc_L (++)).
    destruct (decide (F = c)) as [<-|Hc].
    + rewrite (decide_True (P := F ∈ moved ++ [F])) by (apply elem_of_app; right; apply list_elem_of_here).
      by repeat case_decide.
    + destruct (decide (F ∈ moved)) as [Hin|Hin].
      * rewrite (decide_True (P := F ∈ moved ++ [c])) by (apply elem_of_app; by left).
        by repeat case_decide.
      * rewrite (decide_False (P := F ∈ moved ++ [c])).
        2:{ intros [?|?%list_elem_of_singleton]%elem_of_app; done. }
        by repeat case_decide.
  - rewrite (decide_False (P := q = F ∧ moved ≠ [])) by (intros [? _]; done).
    rewrite (decide_False (P := q = F ∧ moved ++ [c] ≠ [])) by (intros [? _]; done).
    destruct (decide (q = c)) as [->|Hc].
    + rewrite (decide_True (P := c ∈ moved ++ [c])) by (apply elem_of_app; right; apply list_elem_of_here).
      by case_decide.
    + destruct (decide (q ∈ moved)) as [Hin|Hin].
      * by rewrite (decide_True (P := q ∈ moved ++ [c])) by (apply elem_of_app; by left).
      * rewrite (decide_False (P := q ∈ moved ++ [c])); [done|].
        intros [?|?%list_elem_of_singleton]%elem_of_app; done.
Qed.

Section AppendTreeLoop.

Variables (first : ptr) (ft : Tree) (G : ptr) (σ0 : State) (fn gn : Node).
Variable cs : list ptr.

Local Abbreviation F := (tr_current ft).
Local Abbreviation old := (child_list fn).

Hypothesis Hfirst : first ≠ NULL.
Hypothesis Hft : trees σ0 !! first = Some ft.
Hypothesis HF : tr_current ft ≠ NULL.
Hypothesis HFG : tr_current ft ≠ G.
Hypothesis HG : G ≠ NULL.
Hypothesis Hnull : nodes σ0 !! NULL = None.
Hypothesis Hfn : nodes σ0 !! tr_current ft = Some fn.
Hypothesis Hgn : nodes σ0 !! G = Some gn.
Hypothesis Hcs : nd_children gn = Some cs.
Hypothesis Htext : Forall (has_text σ0) cs.
Hypothesis Hold :
  ∀ y, y ∈ child_list fn → ∃ ny, nodes σ0 !! y = Some ny ∧ nd_parent ny = tr_current ft.

(** The store after [i] turns of the loop. *)
Local Abbreviation σ_at i := (adopt_state F old (take i cs) σ0).

Lemma loop_children_G i : load_children (σ_at i) G = Ok cs.
Proof.
  apply load_children_Ok. exists (adopted F old (take i cs) G gn).
  split_and!; [done| |].
  - by rewrite lookup_adopt_state, Hgn.
  - rewrite adopted_children_ne; [done|]. apply not_eq_sym, HFG.
Qed.

Lemma loop_step_state i c :
  cs !! i = Some c →
  append_child F c (adopted F old (take i cs) F fn) (σ_at i) = σ_at (S i).
Proof.
  intros Hc. rewrite (take_S_r cs i c Hc).
  assert (child_list (adopted F old (take i cs) F fn) = old ++ take i cs) as Hkids.
  { rewrite adopted_children by done. by rewrite decide_True. }
  assert (is_Some (nodes (σ_at i) !! c)) as Hlive.
  { rewrite lookup_adopt_state.
    assert (has_text σ0 c) as (_ & nn & _ & _ & -> & _); [|by eexists].
    rewrite Forall_forall in Htext. apply Htext. by eapply list_elem_of_lookup_2. }
  apply state_eq.
  - apply map_eq. intros q.
    rewrite append_child_lookup; [| by rewrite lookup_adopt_state, Hfn | done].
    rewrite Hkids, !lookup_adopt_state.
    destruct (nodes σ0 !! q) as [nq|]; [|done]. simpl.
    by rewrite adopt_node_adopted.
  - by rewrite trees_append_child.
  - by rewrite files_append_child.
Qed.

Lemma loop_AddChild i c :
  cs !! i = Some c →
  AddChild first c (σ_at i) = Ok (c, store_tree first (set_current c ft) (σ_at (S i))).
Proof.
  intros Hc.
  rewrite (AddChild_live_cursor first c (σ_at i) ft (adopted F old (take i cs) F fn));
    try done.
  - by rewrite (loop_step_state i c Hc).
  - apply has_text_adopt_state. rewrite Forall_forall in Htext. apply Htext.
    by eapply list_elem_of_lookup_2.
  - by rewrite lookup_adopt_state, Hfn.
Qed.

Lemma loop_moved_parent i y :
  y ∈ old ++ take i cs →
  ∃ ny, nodes (σ_at i) !! y = Some ny ∧ nd_parent ny = F.
Proof.
  intros Hy. rewrite lookup_adopt_state.
  destruct (decide (y ∈ take i cs)) as [Hin|Hin].
  - assert (has_text σ0 y) as (_ & nn & _ & _ & Hnn & _).
    { rewrite Forall_forall in Htext. apply Htext.
      by apply (subseteq_take i cs). }
    rewrite Hnn. eexists. split; [done|].
    rewrite adopted_parent. by rewrite decide_True.
  - apply elem_of_app in Hy as [Hy|Hy]; [|done].
    destruct (Hold y Hy) as (ny & Hny & Hp). rewrite Hny.
    eexists. split; [done|]. rewrite adopted_parent. by rewrite decide_False.
Qed.

Lemma loop_Parent i c :
  cs !! i = Some c →
  Parent first (store_tree first (set_current c ft) (σ_at (S i))) = Ok (σ_at (S i)).
Proof.
  intros Hc.
  destruct (loop_moved_parent (S i) c) as (nc & Hnc & Hp).
  { apply elem_of_app. right. rewrite (take_S_r cs i c Hc).
    apply elem_of_app. right. apply list_elem_of_here. }
  assert (c ≠ NULL) as Hcn.
  { rewrite Forall_forall in Htext. apply (Htext c).
    by eapply list_elem_of_lookup_2. }
  rewrite (Parent_live first _ (set_current c ft) nc); try done.
  - rewrite Hp, store_tree_store_tree.
    replace (set_current F (set_current c ft)) with ft by (by destruct ft).
    by rewrite store_tree_id.
  - proj_state. apply lookup_insert_eq.
Qed.

Lemma loop_restamp i c :
  cs !! i = Some c →
  ∃ y, GetChild (σ_at (S i)) F (N.of_nat i) = Ok y ∧
       update_node y (set_parent F) (σ_at (S i)) = Ok (σ_at (S i)).
Proof.
  intros Hc.
  assert (take (S i) cs ≠ []) as Hne.
  { rewrite (take_S_r cs i c Hc). by destruct (take i cs). }
  assert (i < length (old ++ take (S i) cs))%nat as Hlen.
  { rewrite length_app, length_take. apply lookup_lt_Some in Hc. lia. }
  destruct (lookup_lt_is_Some_2 _ _ Hlen) as [y Hy].
  exists y. split.
  - apply GetChild_Ok.
    exists (adopted F old (take (S i) cs) F fn), (old ++ take (S i) cs).
    split_and!; [done | by rewrite lookup_adopt_state, Hfn | |].
    + unfold adopted. rewrite (decide_True (P := F = F ∧ _)) by done.
      by case_decide.
    + by rewrite Nat2N.id.
  - destruct (loop_moved_parent (S i) y) as (ny & Hny & Hp).
    { by eapply list_elem_of_lookup_2. }
    assert (y ≠ NULL) as Hyn.
    { intros ->. rewrite lookup_adopt_state in Hny.
      apply list_elem_of_lookup_2, elem_of_app in Hy as [Hy|Hy].
      - destruct (Hold _ Hy) as (? & Hl & Hpar). congruence.
      - rewrite Forall_forall in Htext. apply (subseteq_take (S i) cs) in Hy.
        by destruct (Htext _ Hy). }
    rewrite (update_node_live y (set_parent F) _ ny) by done.
    rewrite (set_parent_same _ _ Hp). by rewrite store_node_id.
Qed.

Lemma AppendTree_loop_unfold fuel i σ :
  AppendTree_loop (S fuel) first G i σ =
    (cs' ← load_children σ G;
     if decide (i < N.of_nat (length cs')) then
       child ← GetChild σ G i;
       '(_, σ1) ← AddChild first child σ;
       σ2 ← Parent first σ1;
       ft' ← load_tree σ2 first;
       moved ← GetChild σ2 (tr_current ft') i;
       σ3 ← update_node moved (set_parent (tr_current ft')) σ2;
       AppendTree_loop fuel first G (i + 1) σ3
     else Ok σ).
Proof. reflexivity. Qed.

(** With a budget above the number of children still to move, the loop
    returns the store in which all of them have been adopted. *)
Lemma AppendTree_loop_run : ∀ j i fuel,
  (i + j = length cs)%nat → (j < fuel)%nat →
  AppendTree_loop fuel first G (N.of_nat i) (σ_at i) = Ok (σ_at (length cs)).
Proof.
  induction j as [|j IH]; intros i fuel Hij Hfuel.
  - destruct fuel as [|fuel]; [lia|].
    rewrite AppendTree_loop_unfold, loop_children_G, bind_Ok.
    rewrite decide_False by lia. by replace i with (length cs) by lia.
  - destruct fuel as [|fuel]; [lia|].
    rewrite AppendTree_loop_unfold, loop_children_G, bind_Ok.
    rewrite decide_True by lia.
    assert (i < length cs)%nat as Hi by lia.
    destruct (lookup_lt_is_Some_2 _ _ Hi) as [c Hc].
    assert (GetChild (σ_at i) G (N.of_nat i) = Ok c) as ->.
    { apply GetChild_Ok. exists (adopted F old (take i cs) G gn), cs.
      split_and!; [done | by rewrite lookup_adopt_state, Hgn | |].
      - rewrite adopted_children_ne; [done|]. apply not_eq_sym, HFG.
      - by rewrite Nat2N.id. }
    rewrite bind_Ok, (loop_AddChild i c Hc), bind_Ok.
    cbn beta iota. rewrite (loop_Parent i c Hc), bind_Ok.
    rewrite (load_tree_live (σ_at (S i)) first ft) by done. rewrite bind_Ok.
    destruct (loop_restamp i c Hc) as (y & Hget & Hupd).
    rewrite Hget, bind_Ok, Hupd, bind_Ok.
    replace (N.of_nat i + 1) with (N.of_nat (S i)) by lia.
    apply IH; lia.
Qed.

End AppendTreeLoop.

(** [AppendTree] on two live trees whose cursors are distinct live nodes,
    when the children array of the second cursor exists: the children are
    adopted by the first cursor, the second cursor is redirected to it. *)
Lemma AppendTree_run fuel first second σ ft st fn gn cs :
  first ≠ NULL → second ≠ NULL →
  trees σ !! first = Some ft → trees σ !! second = Some st →
  tr_current ft ≠ NULL → tr_current st ≠ NULL → tr_current ft ≠ tr_current st →
  nodes σ !! NULL = None →
  nodes σ !! tr_current ft = Some fn → nodes σ !! tr_current st = Some gn →
  nd_children gn = Some cs →
  Forall (has_text σ) cs →
  (∀ y, y ∈ child_list fn →
     ∃ ny, nodes σ !! y = Some ny ∧ nd_parent ny = tr_current ft) →
  (length cs < fuel)%nat →
  AppendTree fuel first second σ =
    Ok (store_tree second (set_current (tr_current ft) st)
          (adopt_state (tr_current ft) (child_list fn) cs σ)).
Proof.
  intros Hfirst Hsecond Hft Hst HF HG HFG Hnull Hfn Hgn Hcs Htext Hold Hfuel.
  unfold AppendTree.
  rewrite (load_tree_live σ second st) by done. rewrite bind_Ok.
  assert (load_children σ (tr_current st) = Ok cs) as ->.
  { apply load_children_Ok. eauto. }
  rewrite bind_Ok.
  pose proof (AppendTree_loop_run first ft (tr_current st) σ fn gn cs
                Hfirst Hft HF HFG HG Hnull Hfn Hgn Hcs Htext Hold
                (length cs) 0%nat fuel eq_refl Hfuel) as Hloop.
  change (N.of_nat 0) with 0 in Hloop. simpl take in Hloop.
  rewrite adopt_state_nil, firstn_all in Hloop.
  rewrite Hloop, bind_Ok.
  rewrite (load_tree_live _ first ft) by done. rewrite bind_Ok.
  by rewrite (update_tree_live second _ _ st).
Qed.

(** [AppendTree] dereferences the children array of the second cursor
    without testing it: on a cursor that never had a child it is undefined,
    whatever the budget. *)
Lemma AppendTree_null_children fuel first second σ st gn :
  second ≠ NULL → trees σ !! second = Some st →
  tr_current st ≠ NULL → nodes σ !! tr_current st = Some gn →
  nd_children gn = None →
  AppendTree fuel first second σ = Undef.
Proof.
  intros Hsecond Hst HG Hgn Hnone. unfold AppendTree.
  rewrite (load_tree_live σ second st) by done. rewrite bind_Ok.
  unfold load_children. rewrite (load_node_live σ _ gn) by done.
  rewrite bind_Ok. by rewrite Hnone.
Qed.

(** ** Parent-child symmetry (C1) *)

(** *** Slots of a list *)

Lemma count_slot_nil x : count_slot x [] = 0%nat.
Proof. reflexivity. Qed.

Lemma count_slot_cons x y l :
  count_slot x (y :: l) =
    if decide (y = x) then S (count_slot x l) else count_slot x l.
Proof. unfold count_slot. rewrite filter_cons. by case_decide. Qed.

Lemma count_slot_app x l1 l2 :
  count_slot x (l1 ++ l2) = (count_slot x l1 + count_slot x l2)%nat.
Proof. unfold count_slot. by rewrite filter_app, length_app. Qed.

Lemma count_slot_0 x l : count_slot x l = 0%nat ↔ x ∉ l.
Proof.
  induction l as [|y l IH].
  - split; [intros _; apply not_elem_of_nil | done].
  - rewrite count_slot_cons, not_elem_of_cons. case_decide as E.
    + split; [done | intros [? _]; congruence].
    + rewrite IH. split; [intros; split; congruence | tauto].
Qed.

Lemma count_slot_pos x l : x ∈ l → (0 < count_slot x l)%nat.
Proof.
  intros Hin. destruct (count_slot x l) eqn:E; [|lia].
  by apply count_slot_0 in E.
Qed.

Lemma occurs_once_elem x l : occurs_once x l → x ∈ l.
Proof.
  unfold occurs_once. intros H. destruct (decide (x ∈ l)) as [|Hn]; [done|].
  apply count_slot_0 in Hn. lia.
Qed.

Lemma occurs_once_snoc x l : x ∉ l → occurs_once x (l ++ [x]).
Proof.
  intros H%count_slot_0. unfold occurs_once.
  rewrite count_slot_app, H, count_slot_cons, decide_True by done. done.
Qed.

Lemma occurs_once_app_other x y l : x ≠ y → occurs_once x (l ++ [y]) ↔ occurs_once x l.
Proof.
  intros Hne. unfold occurs_once.
  rewrite count_slot_app, count_slot_cons, decide_False by done.
  rewrite count_slot_nil. by rewrite Nat.add_0_r.
Qed.



(** Overwriting the slot of [a] with [n]. *)
Lemma count_slot_insert x a n l i :
  l !! i = Some a →
  (count_slot x (<[i := n]> l) + (if decide (a = x) then 1 else 0) =
   count_slot x l + (if decide (n = x) then 1 else 0))%nat.
Proof.
  intros Hi. rewrite insert_take_drop by (by eapply lookup_lt_Some).
  rewrite <- (take_drop_middle l i a Hi) at 3.
  rewrite !count_slot_app, !count_slot_cons.
  repeat case_decide; lia.
Qed.

Lemma occurs_once_insert_other x a n l i :
  l !! i = Some a → a ≠ x → n ≠ x →
  occurs_once x (<[i := n]> l) ↔ occurs_once x l.
Proof.
  intros Hi Ha Hn. unfold occurs_once.
  pose proof (count_slot_insert x a n l i Hi) as H.
  rewrite !decide_False in H by done. lia.
Qed.

Lemma occurs_once_insert_new a n l i :
  l !! i = Some a → n ∉ l → occurs_once n (<[i := n]> l).
Proof.
  intros Hi Hn. unfold occurs_once.
  pose proof (count_slot_insert n a n l i Hi) as H.
  rewrite (decide_True (P := n = n)) in H by done.
  rewrite (decide_False (P := a = n)) in H
    by (intros ->; apply Hn; by eapply list_elem_of_lookup_2).
  apply count_slot_0 in Hn. lia.
Qed.

Lemma occurs_once_insert_gone a n l i :
  l !! i = Some a → occurs_once a l → n ≠ a → a ∉ <[i := n]> l.
Proof.
  intros Hi Ha Hn. apply count_slot_0. unfold occurs_once in Ha.
  pose proof (count_slot_insert a a n l i Hi) as H.
  rewrite (decide_True (P := a = a)) in H by done.
  rewrite (decide_False (P := n = a)) in H by done. lia.
Qed.

Lemma elem_of_insert_inv (x n : ptr) (l : list ptr) (i : nat) :
  x ∈ <[i := n]> l → x = n ∨ x ∈ l.
Proof.
  intros (j & Hj)%list_elem_of_lookup_1.
  destruct (decide (i = j)) as [->|Hne].
  - destruct (decide (j < length l)%nat).
    + rewrite list_lookup_insert_eq in Hj by done. left. congruence.
    + rewrite list_insert_ge in Hj by lia. right. by eapply list_elem_of_lookup_2.
  - rewrite list_lookup_insert_ne in Hj by done.
    right. by eapply list_elem_of_lookup_2.
Qed.

(** In a list where [x] fills one slot, the slot is determined. *)
Lemma occurs_once_slot x l i j :
  occurs_once x l → l !! i = Some x → l !! j = Some x → i = j.
Proof.
  unfold occurs_once. revert i j. induction l as [|y l IH]; intros i j H Hi Hj; [done|].
  rewrite count_slot_cons in H. case_decide as E.
  - assert (x ∉ l) as Hn by (apply count_slot_0; lia).
    assert (∀ k, (y :: l) !! k = Some x → k = 0%nat) as Hzero.
    { intros [|k] Hk; [done|]. exfalso. apply Hn.
      by eapply list_elem_of_lookup_2. }
    by rewrite (Hzero i Hi), (Hzero j Hj).
  - destruct i as [|i], j as [|j]; simpl in *; try congruence.
    f_equal. by apply IH.
Qed.

(** *** The two directions, pointwise *)

Lemma par_Some σ x p :
  par σ x = Some p ↔ ∃ nx, nodes σ !! x = Some nx ∧ nd_parent nx = p.
Proof.
  unfold par. rewrite fmap_Some. split.
  - intros (nx & ? & ->). eauto.
  - intros (nx & ? & <-). eauto.
Qed.

Lemma kids_Some σ p cs :
  kids σ p = Some cs ↔ ∃ np, nodes σ !! p = Some np ∧ child_list np = cs.
Proof.
  unfold kids. rewrite fmap_Some. split.
  - intros (nx & ? & ->). eauto.
  - intros (nx & ? & <-). eauto.
Qed.

Lemma forward_lookup σ x p :
  forward σ → par σ x = Some p → p ≠ NULL →
  ∃ cs, kids σ p = Some cs ∧ occurs_once x cs.
Proof.
  intros Hf (nx & Hx & <-)%par_Some Hp.
  destruct (map_Forall_lookup_1 _ _ _ _ Hf Hx) as [?|H]; [done|].
  destruct (kids σ (nd_parent nx)) as [cs|]; [|done]. eauto.
Qed.

Lemma forward_intro σ :
  (∀ x p, par σ x = Some p → p ≠ NULL →
     ∃ cs, kids σ p = Some cs ∧ occurs_once x cs) →
  forward σ.
Proof.
  intros H. apply map_Forall_lookup. intros x nx Hx.
  unfold parent_lists_child.
  destruct (decide (nd_parent nx = NULL)) as [|Hp]; [by left|]. right.
  destruct (H x (nd_parent nx)) as (cs & -> & Hcs); [|done..].
  apply par_Some. eauto.
Qed.

Lemma backward_lookup σ p cs c :
  backward σ → kids σ p = Some cs → c ∈ cs → par σ c = Some p.
Proof.
  intros Hb (np & Hp & <-)%kids_Some Hc.
  pose proof (map_Forall_lookup_1 _ _ _ _ Hb Hp) as H.
  unfold child_names_parent in H. rewrite Forall_forall in H. by apply H.
Qed.

Lemma backward_intro σ :
  (∀ p cs c, kids σ p = Some cs → c ∈ cs → par σ c = Some p) →
  backward σ.
Proof.
  intros H. apply map_Forall_lookup. intros p np Hp.
  unfold child_names_parent. apply Forall_forall. intros c Hc.
  apply (H p (child_list np)); [|done]. apply kids_Some. eauto.
Qed.

Lemma par_not_NULL σ x p : nodes σ !! NULL = None → par σ x = Some p → x ≠ NULL.
Proof. intros Hn (nx & Hx & _)%par_Some ->. congruence. Qed.

Lemma kids_not_NULL σ p cs : nodes σ !! NULL = None → kids σ p = Some cs → p ≠ NULL.
Proof. intros Hn (np & Hp & _)%kids_Some ->. congruence. Qed.

(** In a symmetric store a node without parent is in no child slot. *)
Lemma symmetric_orphan σ c q cs :
  symmetric σ → par σ c = Some NULL → kids σ q = Some cs → c ∉ cs.
Proof.
  intros (Hn & _ & Hb) Hc Hq Hin.
  pose proof (backward_lookup σ q cs c Hb Hq Hin) as H.
  rewrite Hc in H. injection H as <-. by apply (kids_not_NULL σ NULL cs Hn Hq).
Qed.

(** *** One more child under the cursor *)

Lemma symmetric_AddChild σ σ' X c cs :
  symmetric σ → X ≠ c →
  kids σ X = Some cs → par σ c = Some NULL →
  (∀ q, par σ' q = if decide (q = c) then Some X else par σ q) →
  (∀ q, kids σ' q = if decide (q = X) then Some (cs ++ [c]) else kids σ q) →
  nodes σ' !! NULL = None →
  symmetric σ'.
Proof.
  intros Hsym HXc HX Hc Hpar Hkids Hnull.
  assert (∀ q l, kids σ q = Some l → c ∉ l) as Hfresh.
  { intros q l. by apply symmetric_orphan. }
  destruct Hsym as (Hn & Hf & Hb).
  assert (X ≠ NULL) as HXn by exact (kids_not_NULL σ X cs Hn HX).
  split; [done|]. split.
  - apply forward_intro. intros x p Hx Hp. rewrite Hpar in Hx.
    rewrite Hkids. case_decide as Exc.
    + injection Hx as <-. subst x. rewrite decide_True by done.
      eexists. split; [done|]. apply occurs_once_snoc. by eapply Hfresh.
    + destruct (forward_lookup σ x p Hf Hx Hp) as (l & Hl & Hone).
      case_decide as EpX.
      * subst p. rewrite HX in Hl. injection Hl as <-.
        eexists. split; [done|]. by apply occurs_once_app_other.
      * eauto.
  - apply backward_intro. intros p l y Hp Hy. rewrite Hkids in Hp.
    rewrite Hpar. case_decide as EpX.
    + injection Hp as <-. subst p.
      apply elem_of_app in Hy as [Hy|Hy%list_elem_of_singleton].
      * rewrite decide_False by (intros ->; by eapply Hfresh).
        by eapply backward_lookup.
      * by rewrite decide_True.
    + rewrite decide_False by (intros ->; by eapply Hfresh).
      by eapply backward_lookup.
Qed.

Lemma last_slot (l : list ptr) (x : ptr) :
  last l = Some x → l !! (length l - 1)%nat = Some x.
Proof.
  rewrite last_lookup.
  by replace (Init.Nat.pred (length l)) with (length l - 1)%nat by lia.
Qed.

(** *** A new parent in the slot of the cursor *)

Lemma symmetric_InsertParent σ σ' X n P cs :
  symmetric σ → X ≠ n → P ≠ n → P ≠ X → P ≠ NULL →
  par σ X = Some P → kids σ P = Some cs → last cs = Some X →
  par σ n = Some NULL → kids σ n = Some [] →
  (∀ q, par σ' q =
     if decide (q = X) then Some n
     else if decide (q = n) then Some P else par σ q) →
  (∀ q, kids σ' q =
     if decide (q = n) then Some [X]
     else if decide (q = P) then Some (<[(length cs - 1)%nat := n]> cs)
     else kids σ q) →
  nodes σ' !! NULL = None →
  symmetric σ'.
Proof.
  intros Hsym HXn HPn HPX HP HX Hcs Hlast Hn Hkn Hpar Hkids Hnull.
  assert (∀ q l, kids σ q = Some l → n ∉ l) as Hfresh.
  { intros q l. by apply symmetric_orphan. }
  destruct Hsym as (Hnl & Hf & Hb).
  apply last_slot in Hlast.
  destruct (forward_lookup σ X P Hf HX HP) as (cs' & Hcs' & HXonce).
  rewrite Hcs in Hcs'. injection Hcs' as <-.
  split; [done|]. split.
  - apply forward_intro. intros x p Hx Hp. rewrite Hpar in Hx.
    rewrite Hkids. destruct (decide (x = X)) as [->|HxX].
    + injection Hx as <-. rewrite decide_True by done.
      eexists. split; [done|]. apply (occurs_once_snoc X []), not_elem_of_nil.
    + destruct (decide (x = n)) as [->|Hxn].
      * injection Hx as <-. rewrite decide_False, decide_True by done.
        eexists. split; [done|].
        apply (occurs_once_insert_new X); [done|]. by eapply Hfresh.
      * destruct (forward_lookup σ x p Hf Hx Hp) as (l & Hl & Hone).
        destruct (decide (p = n)) as [->|Hpn].
        { rewrite Hkn in Hl. injection Hl as <-. done. }
        destruct (decide (p = P)) as [->|HpP]; [|eauto].
        rewrite Hcs in Hl. injection Hl as <-.
        eexists. split; [done|].
        by apply (occurs_once_insert_other x X n cs).
  - apply backward_intro. intros p l y Hp Hy. rewrite Hkids in Hp.
    rewrite Hpar. destruct (decide (p = n)) as [->|Hpn].
    + injection Hp as <-. apply list_elem_of_singleton in Hy as ->.
      by rewrite decide_True.
    + destruct (decide (p = P)) as [->|HpP].
      * injection Hp as <-.
        assert (y ≠ X) as HyX.
        { intros ->. revert Hy. by apply (occurs_once_insert_gone X n cs). }
        rewrite decide_False by done.
        apply elem_of_insert_inv in Hy as [->|Hy].
        { by rewrite decide_True. }
        rewrite decide_False by (intros ->; exact (Hfresh _ _ Hcs Hy)).
        by eapply backward_lookup.
      * pose proof (backward_lookup σ p l y Hb Hp Hy) as Hyp.
        rewrite decide_False by (intros ->; congruence).
        rewrite decide_False by (intros ->; exact (Hfresh _ _ Hp Hy)).
        done.
Qed.

(** *** A new, detached block *)

Lemma symmetric_create σ σ' p leaf :
  symmetric σ → p ≠ NULL → nodes σ !! p = None →
  nd_parent leaf = NULL → child_list leaf = [] →
  nodes σ' = <[p := leaf]> (nodes σ) →
  symmetric σ'.
Proof.
  intros (Hnl & Hf & Hb) Hp Hfresh Hpar Hkids Hσ'.
  assert (∀ q, q ≠ p → par σ' q = par σ q) as Hpar'.
  { intros q Hq. unfold par. by rewrite Hσ', lookup_insert_ne. }
  assert (∀ q, q ≠ p → kids σ' q = kids σ q) as Hkids'.
  { intros q Hq. unfold kids. by rewrite Hσ', lookup_insert_ne. }
  assert (par σ' p = Some NULL) as Hpp.
  { unfold par. by rewrite Hσ', lookup_insert_eq, <- Hpar. }
  assert (kids σ' p = Some []) as Hkp.
  { unfold kids. by rewrite Hσ', lookup_insert_eq, <- Hkids. }
  assert (∀ q o, par σ q = Some o → q ≠ p) as Hlive.
  { intros q o (? & ? & _)%par_Some ->. congruence. }
  assert (∀ q l, kids σ q = Some l → q ≠ p) as Hlive'.
  { intros q l (? & ? & _)%kids_Some ->. congruence. }
  split; [|split].
  - rewrite Hσ'. by rewrite lookup_insert_ne.
  - apply forward_intro. intros x q Hx Hq.
    destruct (decide (x = p)) as [->|Hxp]; [congruence|].
    rewrite Hpar' in Hx by done.
    destruct (forward_lookup σ x q Hf Hx Hq) as (l & Hl & Hone).
    exists l. split; [|done]. rewrite Hkids'; [done|]. by eapply Hlive'.
  - apply backward_intro. intros q l y Hq Hy.
    destruct (decide (q = p)) as [->|Hqp].
    { rewrite Hkp in Hq. injection Hq as <-. by apply elem_of_nil in Hy. }
    rewrite Hkids' in Hq by done.
    pose proof (backward_lookup σ q l y Hb Hq Hy) as Hyq.
    rewrite Hpar'; [done|]. by eapply Hlive.
Qed.

Lemma symmetric_nodes_ext σ σ' : nodes σ' = nodes σ → symmetric σ → symmetric σ'.
Proof.
  unfold symmetric, forward, backward, parent_lists_child, child_names_parent,
    kids, par.
  by intros ->.
Qed.

Lemma par_nodes_ext σ σ' x : nodes σ' = nodes σ → par σ' x = par σ x.
Proof. unfold par. by intros ->. Qed.

Lemma kids_nodes_ext σ σ' x : nodes σ' = nodes σ → kids σ' x = kids σ x.
Proof. unfold kids. by intros ->. Qed.

(** *** Views of the stores the operations build *)

Lemma par_append_child X c cur σ q :
  nodes σ !! X = Some cur → is_Some (nodes σ !! c) →
  par (append_child X c cur σ) q = if decide (q = c) then Some X else par σ q.
Proof.
  intros HX Hc. unfold par. rewrite (append_child_lookup X c cur σ q HX Hc).
  destruct (decide (q = c)) as [->|Hq].
  - destruct Hc as [nc ->]. simpl. unfold adopt_node.
    by rewrite (decide_True (P := c = c)).
  - destruct (nodes σ !! q) as [nq|]; [|done]. simpl. unfold adopt_node.
    rewrite (decide_False (P := q = c)) by done. by case_decide.
Qed.

Lemma kids_append_child X c cur σ q :
  nodes σ !! X = Some cur → is_Some (nodes σ !! c) →
  kids (append_child X c cur σ) q =
    if decide (q = X) then Some (child_list cur ++ [c]) else kids σ q.
Proof.
  intros HX Hc. unfold kids. rewrite (append_child_lookup X c cur σ q HX Hc).
  destruct (decide (q = X)) as [->|Hq].
  - rewrite HX. simpl. unfold adopt_node.
    rewrite (decide_True (P := X = X)) by done. by case_decide.
  - destruct (nodes σ !! q) as [nq|]; [|done]. simpl. unfold adopt_node.
    rewrite (decide_False (P := q = X)) by done. by case_decide.
Qed.

Lemma token_append_child X c cur σ q nq' :
  nodes σ !! X = Some cur → is_Some (nodes σ !! c) →
  nodes (append_child X c cur σ) !! q = Some nq' →
  ∃ nq, nodes σ !! q = Some nq ∧ nd_token nq' = nd_token nq.
Proof.
  intros HX Hc. rewrite (append_child_lookup X c cur σ q HX Hc).
  destruct (nodes σ !! q) as [nq|]; [|done]. simpl. intros [= <-].
  exists nq. split; [done|]. unfold adopt_node. by repeat case_decide.
Qed.

(** [InsertParent] above a node without parent is an [append_child] under
    the new node. *)
Lemma splice_parent_top n X xn nn σ :
  nd_parent xn = NULL → X ≠ n → nodes σ !! X = Some xn →
  splice_parent n X xn nn σ = append_child n X nn σ.
Proof.
  intros HP HXn HX. unfold splice_parent. rewrite !decide_True by done.
  by rewrite (append_child_ne n X nn xn) by done.
Qed.

Section SpliceViews.

Variables (n X : ptr) (xn nn pn : Node) (σ : State).
Hypothesis HP : nd_parent xn ≠ NULL.
Hypothesis HPX : nd_parent xn ≠ X.
Hypothesis HPn : nd_parent xn ≠ n.
Hypothesis HXn : X ≠ n.
Hypothesis Hxn : nodes σ !! X = Some xn.
Hypothesis Hnn : nodes σ !! n = Some nn.
Hypothesis Hpn : nodes σ !! nd_parent xn = Some pn.

Lemma par_splice_parent q :
  par (splice_parent n X xn nn σ) q =
    if decide (q = X) then Some n
    else if decide (q = n) then Some (nd_parent xn) else par σ q.
Proof.
  unfold par. destruct (decide (q = X)) as [->|HqX].
  { by rewrite splice_parent_lookup_X. }
  destruct (decide (q = n)) as [->|Hqn].
  { rewrite splice_parent_lookup_n by done. simpl. by rewrite decide_False. }
  destruct (decide (q = nd_parent xn)) as [->|HqP].
  { rewrite (splice_parent_lookup_P _ _ _ _ _ pn) by done. by rewrite Hpn. }
  by rewrite splice_parent_lookup_other.
Qed.

Lemma kids_splice_parent q :
  kids (splice_parent n X xn nn σ) q =
    if decide (q = n) then Some (child_list nn ++ [X])
    else if decide (q = nd_parent xn)
         then Some (<[(length (child_list pn) - 1)%nat := n]> (child_list pn))
         else kids σ q.
Proof.
  unfold kids. destruct (decide (q = n)) as [->|Hqn].
  { by rewrite splice_parent_lookup_n. }
  destruct (decide (q = nd_parent xn)) as [->|HqP].
  { by rewrite (splice_parent_lookup_P _ _ _ _ _ pn). }
  destruct (decide (q = X)) as [->|HqX].
  { by rewrite splice_parent_lookup_X, Hxn. }
  by rewrite splice_parent_lookup_other.
Qed.

Lemma token_splice_parent q nq' :
  nodes (splice_parent n X xn nn σ) !! q = Some nq' →
  ∃ nq, nodes σ !! q = Some nq ∧ nd_token nq' = nd_token nq.
Proof.
  destruct (decide (q = X)) as [->|HqX].
  { rewrite splice_parent_lookup_X. intros [= <-]. eauto. }
  destruct (decide (q = n)) as [->|Hqn].
  { rewrite splice_parent_lookup_n by done. intros [= <-]. eauto. }
  destruct (decide (q = nd_parent xn)) as [->|HqP].
  { rewrite (splice_parent_lookup_P _ _ _ _ _ pn) by done. intros [= <-]. eauto. }
  rewrite splice_parent_lookup_other by done. eauto.
Qed.

End SpliceViews.

(** *** The spine above the cursor *)

Lemma spine_not_NULL σ x anc : spine σ x anc → x ≠ NULL.
Proof. by destruct 1. Qed.

Lemma spine_live σ x anc : spine σ x anc → is_Some (nodes σ !! x).
Proof.
  destruct 1 as [x _ (? & ? & _)%par_Some | x p cs anc _ (? & ? & _)%par_Some]; eauto.
Qed.

Lemma spine_distinct σ x anc : spine σ x anc → x ∉ anc.
Proof.
  destruct 1 as [x | x p cs anc _ _ _ _ _ Hx _]; [apply not_elem_of_nil | done].
Qed.

(** Every ancestor on the spine has children. *)
Lemma spine_has_kids σ x anc a :
  spine σ x anc → a ∈ anc → ∃ cs, kids σ a = Some cs ∧ cs ≠ [].
Proof.
  induction 1 as [x | x p cs anc _ _ _ Hk Hl _ _ IH]; intros Ha.
  - by apply elem_of_nil in Ha.
  - apply elem_of_cons in Ha as [->|Ha]; [|by apply IH].
    exists cs. split; [done|]. by intros ->.
Qed.

Lemma spine_frame σ σ' x anc :
  spine σ x anc →
  par σ' x = par σ x →
  (∀ a, a ∈ anc → par σ' a = par σ a ∧ kids σ' a = kids σ a) →
  spine σ' x anc.
Proof.
  induction 1 as [x Hx Hp | x p cs anc Hx Hp Hpn Hk Hl Hd _ IH]; intros Hpar Hanc.
  - apply spine_top; [done|]. by rewrite Hpar.
  - destruct (Hanc p) as [Hpp Hkp]; [apply list_elem_of_here|].
    apply (spine_up σ' x p cs); try done.
    + by rewrite Hpar.
    + by rewrite Hkp.
    + apply IH; [done|]. intros a Ha. apply Hanc. by apply list_elem_of_further.
Qed.

(** *** Texts *)

Lemma all_text_has_text σ x nx :
  all_text σ → x ≠ NULL → nodes σ !! x = Some nx → has_text σ x.
Proof.
  intros Hall Hx Hnx. split; [done|].
  destruct (map_Forall_lookup_1 _ _ _ _ Hall Hnx) as (tok & Htok & [s Hs]).
  eauto 10.
Qed.

Lemma all_text_tokens σ σ' :
  (∀ q nq', nodes σ' !! q = Some nq' →
     ∃ nq, nodes σ !! q = Some nq ∧ nd_token nq' = nd_token nq) →
  all_text σ → all_text σ'.
Proof.
  intros H Hall. apply map_Forall_lookup. intros q nq' Hq.
  destruct (H q nq' Hq) as (nq & Hnq & ->).
  apply (map_Forall_lookup_1 _ _ _ _ Hall Hnq).
Qed.

(** *** Each call keeps the symmetry *)

Lemma detached_not_ancestor σ t c x anc :
  detached σ t c → spine σ x anc → c ∉ anc.
Proof.
  intros (_ & _ & Hk & _) Hsp Hin.
  destruct (spine_has_kids σ x anc c Hsp Hin) as (cs & Hcs & Hne).
  congruence.
Qed.

Lemma AddChild_step t c r σ σ' :
  tree_inv t σ → detached σ t c → AddChild t c σ = Ok (r, σ') →
  tree_inv t σ' ∧ slots_stable σ σ'.
Proof.
  intros (Ht & Hsym & Htxt & tr & Htr & Hcur) Hdet Hrun.
  pose proof Hdet as (Hc & Hpc & Hkc & Hcc).
  rewrite Htr in Hcc. simpl in Hcc.
  assert (tr_current tr ≠ c) as HXc by congruence.
  pose proof Hpc as (nc & Hnc & Hncp)%par_Some.
  assert (has_text σ c) as Htc by (by eapply all_text_has_text).
  destruct Hcur as [Hnull | [anc Hsp]].
  - rewrite (AddChild_null_cursor t c σ tr) in Hrun by done.
    injection Hrun as <- <-. split.
    + split; [done|]. split; [by apply (symmetric_nodes_ext σ)|].
      split; [done|]. eexists. split.
      { proj_state. apply lookup_insert_eq. }
      right. exists []. by apply spine_top.
    + intros x p cs i _ _ Hk Hi. eauto.
  - pose proof (spine_not_NULL _ _ _ Hsp) as HX.
    destruct (spine_live _ _ _ Hsp) as [cur Hcur].
    rewrite (AddChild_live_cursor t c σ tr cur) in Hrun by done.
    injection Hrun as <- <-.
    set (X := tr_current tr) in *.
    set (σa := append_child X c cur σ).
    assert (is_Some (nodes σ !! c)) as Hcl by eauto.
    assert (kids σ X = Some (child_list cur)) as HkX.
    { apply kids_Some. eauto. }
    assert (∀ q, par σa q = if decide (q = c) then Some X else par σ q) as Hpar.
    { intros q. by apply par_append_child. }
    assert (∀ q, kids σa q =
              if decide (q = X) then Some (child_list cur ++ [c]) else kids σ q) as Hkids.
    { intros q. by apply kids_append_child. }
    assert (c ∉ anc) as Hca by (by eapply detached_not_ancestor).
    split.
    + split; [done|]. split.
      { apply (symmetric_nodes_ext σa); [done|].
        apply (symmetric_AddChild σ σa X c (child_list cur)); try done.
        unfold σa. rewrite (append_child_lookup X c cur σ NULL Hcur Hcl).
        destruct Hsym as (-> & _). done. }
      split.
      { apply (all_text_tokens σ); [|done]. intros q nq'.
        by apply token_append_child. }
      eexists. split.
      { proj_state. apply lookup_insert_eq. }
      right. exists (X :: anc). simpl.
      apply (spine_up _ c X (child_list cur ++ [c])); try done.
      * rewrite (par_nodes_ext σa) by done. rewrite Hpar. by rewrite decide_True.
      * rewrite (kids_nodes_ext σa) by done. rewrite Hkids. by rewrite decide_True.
      * apply last_snoc.
      * apply not_elem_of_cons. split; [by apply not_eq_sym | done].
      * apply (spine_frame σ); [done| |].
        { rewrite (par_nodes_ext σa) by done. rewrite Hpar.
          by rewrite decide_False. }
        intros a Ha. rewrite (par_nodes_ext σa), (kids_nodes_ext σa) by done.
        rewrite Hpar, Hkids.
        rewrite decide_False by (intros ->; done).
        rewrite decide_False; [done|].
        intros ->. by apply (spine_distinct _ _ _ Hsp).
    + intros x p cs i Hx _ Hk Hi.
      rewrite (kids_nodes_ext σa) by done. rewrite Hkids.
      case_decide as EpX; [|eauto].
      subst p. rewrite HkX in Hk. injection Hk as <-.
      eexists. split; [done|]. by apply lookup_app_l_Some.
Qed.

Lemma InsertParent_null_cursor t n σ tr :
  t ≠ NULL → trees σ !! t = Some tr → tr_current tr = NULL →
  InsertParent t n σ = Undef.
Proof.
  intros Ht Htr Hnull. unfold InsertParent.
  rewrite (load_tree_live σ t tr) by done. rewrite bind_Ok, Hnull.
  unfold load_node. by rewrite decide_True.
Qed.

Lemma InsertParent_step t n σ σ' :
  tree_inv t σ → detached σ t n → InsertParent t n σ = Ok σ' →
  tree_inv t σ' ∧ slots_stable σ σ'.
Proof.
  intros (Ht & Hsym & Htxt & tr & Htr & Hcur) Hdet Hrun.
  pose proof Hdet as (Hn & Hpn & Hkn & Hcn).
  rewrite Htr in Hcn. simpl in Hcn.
  assert (n ≠ tr_current tr) as HnX by congruence.
  pose proof Hpn as (nn & Hnn & Hnnp)%par_Some.
  assert (child_list nn = []) as Hnk.
  { apply kids_Some in Hkn as (nn' & Hnn' & ?). congruence. }
  destruct Hcur as [Hnull | [anc Hsp]].
  { by rewrite (InsertParent_null_cursor t n σ tr) in Hrun. }
  pose proof (spine_not_NULL _ _ _ Hsp) as HX.
  destruct (spine_live _ _ _ Hsp) as [xn Hxn].
  assert (has_text σ (tr_current tr)) as HtX by (by eapply all_text_has_text).
  assert (is_Some (nodes σ !! n)) as Hnl by eauto.
  pose proof Hsym as (Hnull & _ & _).
  set (X := tr_current tr) in *.
  inversion Hsp as [x HXn HpX Ex Ea | x P cs anc' HXn HpX HP HkP Hlast Hd HspP Ex Ea];
    subst x.
  - (* the cursor has no parent *)
    apply par_Some in HpX as (xn' & Hxn' & HxnP).
    assert (xn' = xn) as -> by congruence.
    rewrite (InsertParent_run t n σ tr xn nn) in Hrun; try done; [|by left].
    injection Hrun as <-. fold X.
    rewrite (splice_parent_top n X xn nn σ) by done.
    set (σa := append_child n X nn σ).
    assert (is_Some (nodes σ !! X)) as HXl by eauto.
    assert (∀ q, par σa q = if decide (q = X) then Some n else par σ q) as Hpar.
    { intros q. by apply par_append_child. }
    assert (∀ q, kids σa q = if decide (q = n) then Some ([] ++ [X]) else kids σ q) as Hkids.
    { intros q. unfold σa. rewrite kids_append_child by done. by rewrite Hnk. }
    split.
    + split; [done|]. split.
      { apply (symmetric_nodes_ext σa); [done|].
        apply (symmetric_AddChild σ σa n X []); try done.
        - apply par_Some. eauto.
        - unfold σa. rewrite (append_child_lookup n X nn σ NULL Hnn HXl).
          by rewrite Hnull. }
      split.
      { apply (all_text_tokens σ); [|done]. intros q nq'.
        by apply token_append_child. }
      eexists. split.
      { proj_state. apply lookup_insert_eq. }
      right. exists []. simpl. apply spine_top; [done|].
      rewrite (par_nodes_ext σa) by done. rewrite Hpar.
      by rewrite decide_False.
    + intros x p cs i Hx _ Hk Hi.
      rewrite (kids_nodes_ext σa) by done. rewrite Hkids.
      case_decide as Epn; [|eauto].
      subst p. rewrite Hkn in Hk. injection Hk as <-. done.
  - (* the cursor is the last child of [P] *)
    apply par_Some in HpX as (xn' & Hxn' & HxnP).
    assert (xn' = xn) as -> by congruence.
    apply not_elem_of_cons in Hd as [HXP HXanc].
    apply kids_Some in HkP as Hpn'. destruct Hpn' as (pn & Hpnl & Hpk).
    assert (P ≠ n) as HPn.
    { intros ->. rewrite Hkn in HkP. injection HkP as <-. done. }
    assert (n ∉ anc') as Hnanc by (by eapply detached_not_ancestor).
    assert (∃ c0 cs0, nd_children pn = Some (c0 :: cs0)) as (c0 & cs0 & Hch).
    { unfold child_list in Hpk. destruct (nd_children pn) as [[|c0 cs0]|];
        simpl in Hpk; subst cs; try done. eauto. }
    rewrite (InsertParent_run t n σ tr xn nn) in Hrun; try done.
    2:{ right. exists pn, c0, cs0. rewrite HxnP. by split_and!. }
    injection Hrun as <-. fold X.
    set (σs := splice_parent n X xn nn σ).
    assert (nd_parent xn ≠ NULL) as HP' by (by rewrite HxnP).
    assert (nd_parent xn ≠ X) as HPX' by (rewrite HxnP; by apply not_eq_sym).
    assert (nd_parent xn ≠ n) as HPn' by (by rewrite HxnP).
    assert (X ≠ n) as HXn' by (by apply not_eq_sym).
    assert (nodes σ !! nd_parent xn = Some pn) as Hpn'' by (by rewrite HxnP).
    assert (∀ q, par σs q =
              if decide (q = X) then Some n
              else if decide (q = n) then Some P else par σ q) as Hpar.
    { intros q. unfold σs.
      rewrite (par_splice_parent n X xn nn pn σ) by done. by rewrite HxnP. }
    assert (∀ q, kids σs q =
              if decide (q = n) then Some [X]
              else if decide (q = P) then Some (<[(length cs - 1)%nat := n]> cs)
              else kids σ q) as Hkids.
    { intros q. unfold σs.
      rewrite (kids_splice_parent n X xn nn pn σ) by done.
      by rewrite HxnP, Hnk, Hpk. }
    assert (P ∉ anc') as HPanc by (by eapply spine_distinct).
    split.
    + split; [done|]. split.
      { apply (symmetric_nodes_ext σs); [done|].
        assert (par σ X = Some P) as HparX by (apply par_Some; eauto).
        assert (nodes σs !! NULL = None) as HnullS.
        { unfold σs. rewrite splice_parent_lookup_other; try done.
          all: by apply not_eq_sym. }
        exact (symmetric_InsertParent σ σs X n P cs Hsym HXn' HPn
                 (not_eq_sym HXP) HP HparX HkP Hlast Hpn Hkn Hpar Hkids HnullS). }
      split.
      { apply (all_text_tokens σ); [|done]. intros q nq'.
        by apply (token_splice_parent n X xn nn pn σ). }
      eexists. split.
      { proj_state. apply lookup_insert_eq. }
      right. exists (P :: anc'). simpl.
      apply (spine_up _ n P (<[(length cs - 1)%nat := n]> cs)); try done.
      * rewrite (par_nodes_ext σs) by done. rewrite Hpar.
        rewrite decide_False by done. by rewrite decide_True.
      * rewrite (kids_nodes_ext σs) by done. rewrite Hkids.
        rewrite decide_False by done. by rewrite decide_True.
      * apply last_insert_last. by intros ->.
      * apply not_elem_of_cons. split; [by apply not_eq_sym | done].
      * apply (spine_frame σ); [done| |].
        { rewrite (par_nodes_ext σs) by done. rewrite Hpar.
          rewrite decide_False by (by apply not_eq_sym).
          by rewrite decide_False. }
        intros a Ha. rewrite (par_nodes_ext σs), (kids_nodes_ext σs) by done.
        rewrite Hpar, Hkids.
        rewrite (decide_False (P := a = X)) by (intros ->; done).
        rewrite !(decide_False (P := a = n)) by (intros ->; done).
        by rewrite (decide_False (P := a = P)) by (intros ->; done).
    + intros x p l i Hx Hx' Hk Hi.
      rewrite (par_nodes_ext σs) in Hx' by done.
      rewrite (kids_nodes_ext σs) by done. rewrite Hkids.
      destruct (decide (p = n)) as [->|Hpn0].
      { rewrite Hkn in Hk. injection Hk as <-. done. }
      destruct (decide (p = P)) as [->|HpP]; [|eauto].
      assert (l = cs) as -> by (rewrite HkP in Hk; congruence).
      eexists. split; [done|].
      destruct (decide (i = (length cs - 1)%nat)) as [->|Hi'].
      * apply last_slot in Hlast. rewrite Hlast in Hi. injection Hi as <-.
        rewrite Hpar, decide_True in Hx' by done. congruence.
      * by rewrite list_lookup_insert_ne by done.
Qed.

Lemma spine_nodes_ext σ σ' x anc :
  nodes σ' = nodes σ → spine σ x anc → spine σ' x anc.
Proof.
  intros E Hsp. apply (spine_frame σ); [done| |].
  - by apply par_nodes_ext.
  - intros a _. split; [by apply par_nodes_ext | by apply kids_nodes_ext].
Qed.

Lemma Parent_step t σ σ' :
  tree_inv t σ → Parent t σ = Ok σ' → tree_inv t σ' ∧ slots_stable σ σ'.
Proof.
  intros (Ht & Hsym & Htxt & tr & Htr & Hcur) Hrun.
  apply Parent_Ok_inv in Hrun as (tr' & cur & _ & Htr' & HX & Hcurn & ->).
  assert (tr' = tr) as -> by congruence.
  split.
  - split; [done|]. split; [by apply (symmetric_nodes_ext σ)|].
    split; [done|]. eexists. split.
    { proj_state. apply lookup_insert_eq. }
    simpl. destruct Hcur as [?|[anc Hsp]]; [done|].
    inversion Hsp as [x _ HpX Ex Ea | x P cs anc' _ HpX HP HkP Hlast Hd HspP Ex Ea];
      subst x; apply par_Some in HpX as (xn & Hxn & HxnP);
      assert (xn = cur) as -> by congruence; rewrite HxnP.
    + by left.
    + right. exists anc'. by apply (spine_nodes_ext σ).
  - intros x p cs i _ _ Hk Hi. eauto.
Qed.

(** A new leaf with a text keeps the invariants of the tree. *)
Lemma create_step t σ σ' tr p tok s :
  tree_inv t σ → trees σ !! t = Some tr →
  p ≠ NULL → nodes σ !! p = None → tk_txt tok = Some s →
  nodes σ' = <[p := mkNode (Some tok) None NULL p]> (nodes σ) →
  trees σ' = <[t := set_size (tr_size tr + 1) tr]> (trees σ) →
  tree_inv t σ' ∧ slots_stable σ σ'.
Proof.
  intros (Ht & Hsym & Htxt & tr' & Htr' & Hcur) Htr Hp Hfresh Hs Hn Htrees.
  assert (tr' = tr) as -> by congruence.
  assert (∀ q o, par σ q = Some o → par σ' q = Some o) as Hpar.
  { intros q o Hq. unfold par in *. rewrite Hn, lookup_insert_ne; [done|].
    intros <-. by rewrite Hfresh in Hq. }
  assert (∀ q l, kids σ q = Some l → kids σ' q = Some l) as Hkids.
  { intros q l Hq. unfold kids in *. rewrite Hn, lookup_insert_ne; [done|].
    intros <-. by rewrite Hfresh in Hq. }
  split.
  - split; [done|]. split.
    { by apply (symmetric_create σ σ' p (mkNode (Some tok) None NULL p)). }
    split.
    { apply map_Forall_lookup. intros q nq. rewrite Hn.
      destruct (decide (p = q)) as [<-|Hne].
      - rewrite lookup_insert_eq. intros [= <-]. simpl. eauto.
      - rewrite lookup_insert_ne by done.
        apply (map_Forall_lookup_1 _ _ _ _ Htxt). }
    eexists. split.
    { rewrite Htrees. apply lookup_insert_eq. }
    simpl. destruct Hcur as [?|[anc Hsp]]; [by left|]. right. exists anc.
    clear Htr Htr' Htrees. induction Hsp as [x Hx HpX | x P cs anc Hx HpX HP HkP Hl Hd _ IH].
    + apply spine_top; [done|]. by apply Hpar.
    + apply (spine_up σ' x P cs); try done; [by apply Hpar | by apply Hkids].
  - intros x q cs i _ _ Hk Hi. eauto.
Qed.

(** *** Splicing two trees *)

Lemma par_adopt_state F old cs σ q :
  par (adopt_state F old cs σ) q =
    (λ nq, if decide (q ∈ cs) then F else nd_parent nq) <$> nodes σ !! q.
Proof.
  unfold par. rewrite lookup_adopt_state.
  destruct (nodes σ !! q) as [nq|]; [|done]. simpl.
  by rewrite adopted_parent.
Qed.

Lemma kids_adopt_state F old cs σ q :
  kids σ F = Some old →
  kids (adopt_state F old cs σ) q =
    if decide (q = F) then Some (old ++ cs) else kids σ q.
Proof.
  intros (fn & Hfn & Hold)%kids_Some. unfold kids. rewrite lookup_adopt_state.
  destruct (decide (q = F)) as [->|Hq].
  - rewrite Hfn. simpl. rewrite adopted_children by done.
    by rewrite decide_True.
  - destruct (nodes σ !! q) as [nq|]; [|done]. simpl.
    unfold child_list. by rewrite adopted_children_ne.
Qed.


Section Invariant.

Variable TranslateTokenType : TokenType → string.
Variable calloc_Node : State → ptr.
Variable calloc_Token : State → bool.
Hypothesis calloc_Node_fresh :
  ∀ σ, calloc_Node σ ≠ NULL → nodes σ !! calloc_Node σ = None.

Local Abbreviation step' := (step TranslateTokenType calloc_Node calloc_Token).
Local Abbreviation reachable' :=
  (reachable TranslateTokenType calloc_Node calloc_Token).

Lemma fill_new_node_inv t src ty p σ0 σ' q tr :
  let σ := store_node p (set_token (Some zero_Token) zero_Node) (store_node p zero_Node σ0) in
  p ≠ NULL → t ≠ NULL → trees σ0 !! t = Some tr →
  fill_new_node t src ty p σ = Ok (q, σ') →
  ∃ s, src = Some s ∧
    nodes σ' = <[p := mkNode (Some (mkToken ty (Some s) PRSR_NONE)) None NULL p]> (nodes σ0) ∧
    trees σ' = <[t := set_size (tr_size tr + 1) tr]> (trees σ0).
Proof.
  intros σ Hp Ht Htr H. destruct src as [s|].
  - exists s. split; [done|].
    apply fill_new_node_Ok with (tr := tr) (s := s) in H as (_ & ? & ? & _); done.
  - exfalso. unfold fill_new_node in H.
    rewrite (load_node_live σ p (set_token (Some zero_Token) zero_Node)) in H.
    + by rewrite bind_Ok in H.
    + done.
    + unfold σ. proj_state. apply lookup_insert_eq.
Qed.

Lemma create_Ok_step t σ p σ' :
  tree_inv t σ →
  (∃ tok, CreateNode calloc_Node calloc_Token t (Some tok) σ = Ok (p, σ')) ∨
  (∃ ty, CreateNodeByType TranslateTokenType calloc_Node calloc_Token t ty σ
           = Ok (p, σ')) →
  tree_inv t σ' ∧ slots_stable σ σ'.
Proof.
  intros Hinv Hrun.
  pose proof Hinv as (Ht & _ & _ & tr & Htr & _).
  assert (∃ p0 σ1 src ty,
    NodeCtor calloc_Node calloc_Token σ = Ok (p0, σ1) ∧
    fill_new_node t src ty p0 σ1 = Ok (p, σ')) as (p0 & σ1 & src & ty & Hctor & Hfill).
  { destruct Hrun as [[tok Hrun] | [ty Hrun]].
    - unfold CreateNode in Hrun. inv_bind Hrun. destruct a as [p0 σ1].
      eauto 10.
    - unfold CreateNodeByType in Hrun. inv_bind Hrun.
      destruct a as [p0 σ1]. eauto 10. }
  apply NodeCtor_Ok in Hctor as (-> & Hp & _ & ->).
  apply fill_new_node_inv with (tr := tr) in Hfill as (s & -> & Hn & Htrees);
    try done.
  apply (create_step t σ σ' tr (calloc_Node σ)
           (mkToken ty (Some s) PRSR_NONE) s); try done.
  by apply calloc_Node_fresh.
Qed.

Lemma step_keeps_inv t σ σ' :
  tree_inv t σ → step' t σ σ' → tree_inv t σ' ∧ slots_stable σ σ'.
Proof.
  intros Hinv Hstep. destruct Hstep as [tok p σ' H | ty p σ' H | c r σ' Hd H | n σ' Hd H | σ' H].
  - apply (create_Ok_step t σ p σ'); eauto.
  - apply (create_Ok_step t σ p σ'); eauto.
  - by apply (AddChild_step t c r).
  - by apply (InsertParent_step t n).
  - by apply Parent_step.
Qed.

Lemma reachable_inv t σ : reachable' t σ → tree_inv t σ.
Proof.
  induction 1 as [σ Ht Hn Htr | σ σ' _ IH Hstep].
  - split; [done|]. split.
    { unfold symmetric, forward, backward. rewrite Hn.
      split; [apply lookup_empty|]. split; apply map_Forall_empty. }
    split.
    { unfold all_text. rewrite Hn. apply map_Forall_empty. }
    exists zero_Tree. split; [done|]. by left.
  - by apply (step_keeps_inv t σ σ').
Qed.


End Invariant.

(** On the inputs where [AppendTree] returns, it moves the children as the
    specification says: the first cursor gains the [k] children of the
    second one, in order, each stamped with the first cursor as parent, and
    the second cursor is redirected to the first. *)
Lemma AppendTree_conservation fuel first second σ ft st fn gn cs :
  first ≠ NULL → second ≠ NULL →
  trees σ !! first = Some ft → trees σ !! second = Some st →
  tr_current ft ≠ NULL → tr_current st ≠ NULL → tr_current ft ≠ tr_current st →
  nodes σ !! NULL = None →
  nodes σ !! tr_current ft = Some fn → nodes σ !! tr_current st = Some gn →
  nd_children gn = Some cs →
  Forall (has_text σ) cs →
  (∀ y, y ∈ child_list fn → par σ y = Some (tr_current ft)) →
  (length cs < fuel)%nat →
  ∃ σ', AppendTree fuel first second σ = Ok σ' ∧
        kids σ' (tr_current ft) = Some (child_list fn ++ cs) ∧
        (∀ c, c ∈ cs → par σ' c = Some (tr_current ft)) ∧
        (tr_current <$> trees σ' !! second) = Some (tr_current ft) ∧
        (tr_current <$> trees σ' !! first) = Some (tr_current ft).
Proof.
  intros Hfirst Hsecond Hft Hst HF HG HFG Hnull Hfn Hgn Hcs Htext Hold Hfuel.
  eexists. split.
  { apply (AppendTree_run fuel first second σ ft st fn gn cs); try done.
    intros y Hy. by apply par_Some, Hold. }
  split_and!.
  - rewrite (kids_nodes_ext (adopt_state (tr_current ft) (child_list fn) cs σ)) by done.
    rewrite kids_adopt_state by (apply kids_Some; eauto).
    by rewrite decide_True.
  - intros c Hc.
    rewrite (par_nodes_ext (adopt_state (tr_current ft) (child_list fn) cs σ)) by done.
    rewrite par_adopt_state. rewrite Forall_forall in Htext.
    destruct (Htext c Hc) as (_ & nc & _ & _ & -> & _). simpl.
    by rewrite decide_True.
  - proj_state. by rewrite lookup_insert_eq.
  - proj_state. destruct (decide (second = first)) as [->|Hne].
    + by rewrite lookup_insert_eq.
    + rewrite lookup_insert_ne by done. unfold adopt_state. proj_state.
      by rewrite Hft.
Qed.

(** * Further properties of the builder *)

(** ** Inversion of [AddChild] *)

Lemma AddChild_Ok_inv t c r σ σ' :
  AddChild t c σ = Ok (r, σ') →
  r = c ∧ t ≠ NULL ∧ has_text σ c ∧
  ∃ tr, trees σ !! t = Some tr ∧
    ((tr_current tr = NULL ∧
      σ' = store_tree t (set_current c (set_root c tr)) σ) ∨
     (tr_current tr ≠ NULL ∧
      ∃ cur, nodes σ !! tr_current tr = Some cur ∧
             σ' = store_tree t (set_current c tr)
                    (append_child (tr_current tr) c cur σ))).
Proof.
  intros H. pose proof H as H0. unfold AddChild in H.
  destruct (decide (t = NULL)) as [|Ht]; [done|].
  destruct (decide (c = NULL)) as [|Hc]; [done|].
  inv_bind H. apply load_node_Ok in Hstep as [_ Hnc].
  destruct (nd_token a) as [tok|] eqn:Htok; [|done].
  destruct (tk_txt tok) as [s|] eqn:Hs; [|done].
  assert (has_text σ c) as Htext by (split; eauto 10).
  inv_bind H. apply load_tree_Ok in Hstep as [_ Htr].
  rename a0 into tr.
  destruct (decide (tr_current tr = NULL)) as [Hcur|Hcur].
  - injection H as <- <-. split_and!; try done. exists tr. split; [done|].
    left. done.
  - inv_bind H. apply load_node_Ok in Hstep as [_ Hcurn].
    rewrite (AddChild_live_cursor t c σ tr a0) in H0 by done.
    injection H0 as <- <-. split_and!; try done. exists tr. split; [done|].
    right. split; [done|]. eauto.
Qed.

(** ** Tokens, ids and blocks are never touched (frame) *)

Lemma same_blocks_refl σ : same_blocks σ σ.
Proof. by split_and!. Qed.

Lemma same_blocks_trans σ1 σ2 σ3 :
  same_blocks σ1 σ2 → same_blocks σ2 σ3 → same_blocks σ1 σ3.
Proof.
  intros (Hn & Ht & Hf) (Hn' & Ht' & Hf'). split_and!.
  - intros q. destruct (Hn q) as [E1 E2], (Hn' q) as [E1' E2'].
    split; congruence.
  - intros t. rewrite <- Ht. apply Ht'.
  - congruence.
Qed.

Lemma same_blocks_store_node σ p n n' :
  nodes σ !! p = Some n → nd_token n' = nd_token n → nd_id n' = nd_id n →
  same_blocks σ (store_node p n' σ).
Proof.
  intros Hp Htok Hid. split_and!; [|done..]. intros q. proj_state.
  destruct (decide (p = q)) as [<-|Hne].
  - rewrite lookup_insert_eq, Hp. simpl. by rewrite Htok, Hid.
  - by rewrite lookup_insert_ne.
Qed.

Lemma same_blocks_store_tree σ t tr tr' :
  trees σ !! t = Some tr → tr_size tr' = tr_size tr →
  same_blocks σ (store_tree t tr' σ).
Proof.
  intros Ht Hsz. split_and!; [done| |done]. intros t'. proj_state.
  destruct (decide (t = t')) as [<-|Hne].
  - rewrite lookup_insert_eq, Ht. simpl. by rewrite Hsz.
  - by rewrite lookup_insert_ne.
Qed.

Lemma same_blocks_append_child σ x c cur :
  nodes σ !! x = Some cur → same_blocks σ (append_child x c cur σ).
Proof.
  intros Hx. unfold append_child.
  set (σ1 := store_node x _ σ).
  assert (same_blocks σ σ1) as H1.
  { by apply (same_blocks_store_node σ x cur). }
  destruct (nodes σ1 !! c) as [nc|] eqn:Hc; [|done].
  apply (same_blocks_trans σ σ1); [done|].
  by apply (same_blocks_store_node σ1 c nc).
Qed.

Lemma same_blocks_set_parent σ σ' p x :
  update_node p (set_parent x) σ = Ok σ' → same_blocks σ σ'.
Proof.
  intros (n & _ & Hn & ->)%update_node_Ok.
  by apply (same_blocks_store_node σ p n).
Qed.

Lemma Parent_same_blocks t σ σ' : Parent t σ = Ok σ' → same_blocks σ σ'.
Proof.
  intros (tr & cur & _ & Htr & _ & _ & ->)%Parent_Ok_inv.
  by apply (same_blocks_store_tree σ t tr).
Qed.

Lemma AddChild_same_blocks t c r σ σ' :
  AddChild t c σ = Ok (r, σ') → same_blocks σ σ'.
Proof.
  intros (_ & _ & _ & tr & Htr & [[_ ->] | [_ (cur & Hcur & ->)]])%AddChild_Ok_inv.
  - by apply (same_blocks_store_tree σ t tr).
  - apply (same_blocks_trans σ (append_child (tr_current tr) c cur σ)).
    + by apply same_blocks_append_child.
    + apply (same_blocks_store_tree _ t tr); [|done].
      by rewrite trees_append_child.
Qed.

Lemma InsertParent_same_blocks t n σ σ' :
  InsertParent t n σ = Ok σ' → same_blocks σ σ'.
Proof.
  unfold InsertParent. intros H.
  inv_bind H. apply load_tree_Ok in Hstep as [_ Htr]. rename a into tr.
  inv_bind H. apply load_node_Ok in Hstep as [_ Hoc]. rename a into oc.
  inv_bind H. rename a into σ1.
  assert (same_blocks σ σ1) as H1.
  { destruct (decide (nd_parent oc = NULL)) as [|HP].
    - injection Hstep as <-. apply same_blocks_refl.
    - inv_bind Hstep. apply load_node_Ok in Hstep0 as [_ Hpn].
      destruct (nd_children a) as [[|c0 cs0]|]; try done.
      apply (same_blocks_trans σ (store_node (nd_parent oc)
               (set_children (Some (<[(length (c0 :: cs0) - 1)%nat := n]> (c0 :: cs0))) a) σ)).
      + by apply (same_blocks_store_node σ _ a).
      + by apply (same_blocks_set_parent _ _ n (nd_parent oc)). }
  inv_bind H. rename a into σ2.
  apply update_tree_Ok in Hstep0 as (tr1 & _ & Htr1 & ->).
  inv_bind H. destruct a as [r σ3].
  apply AddChild_same_blocks in Hstep0 as H3.
  inv_bind H. rename a into σ4. apply same_blocks_set_parent in Hstep1 as H4.
  inv_bind H. rename a into σ5. apply Parent_same_blocks in Hstep2 as H5.
  inv_bind H. apply load_tree_Ok in Hstep3 as [_ Htr5]. rename a into tr5.
  assert (same_blocks σ σ5) as H05.
  { apply (same_blocks_trans σ σ1); [done|].
    apply (same_blocks_trans σ1 (store_tree t (set_current n tr1) σ1)).
    { by apply (same_blocks_store_tree σ1 t tr1). }
    apply (same_blocks_trans _ σ3); [done|].
    by apply (same_blocks_trans _ σ4). }
  destruct (decide (tr_current tr = tr_root tr5)).
  - injection H as <-. apply (same_blocks_trans σ σ5); [done|].
    by apply (same_blocks_store_tree σ5 t tr5).
  - by injection H as <-.
Qed.

Lemma AppendTree_loop_same_blocks fuel first G : ∀ i σ σ',
  AppendTree_loop fuel first G i σ = Ok σ' → same_blocks σ σ'.
Proof.
  induction fuel as [|fuel IH]; intros i σ σ' H; [done|].
  simpl in H. inv_bind H. destruct (decide (i < N.of_nat (length a))).
  - inv_bind H. inv_bind H. destruct a1 as [r σ1].
    apply AddChild_same_blocks in Hstep1 as H1.
    inv_bind H. apply Parent_same_blocks in Hstep2 as H2.
    inv_bind H. inv_bind H. inv_bind H.
    apply same_blocks_set_parent in Hstep5 as H3.
    apply IH in H.
    apply (same_blocks_trans σ σ1); [done|].
    apply (same_blocks_trans σ1 a1); [done|].
    by apply (same_blocks_trans a1 a4).
  - injection H as <-. apply same_blocks_refl.
Qed.

Lemma AppendTree_same_blocks fuel first second σ σ' :
  AppendTree fuel first second σ = Ok σ' → same_blocks σ σ'.
Proof.
  unfold AppendTree. intros H.
  inv_bind H. inv_bind H. inv_bind H.
  apply AppendTree_loop_same_blocks in Hstep1 as H1.
  inv_bind H. apply update_tree_Ok in H as (tr & _ & Htr & ->).
  apply (same_blocks_trans σ a1); [done|].
  by apply (same_blocks_store_tree a1 second tr).
Qed.

(** X1.  The builder operations never touch a token or an id, never create or
    drop a node block or a tree, never change a node count or a file:
    whenever [Parent], [AddChild], [InsertParent] or [AppendTree] returns,
    the store differs from the one before at most in parent fields,
    children arrays, roots and cursors. *)
Theorem builder_keeps_blocks :
  (∀ t σ σ', Parent t σ = Ok σ' → same_blocks σ σ') ∧
  (∀ t c r σ σ', AddChild t c σ = Ok (r, σ') → same_blocks σ σ') ∧
  (∀ t n σ σ', InsertParent t n σ = Ok σ' → same_blocks σ σ') ∧
  (∀ fuel first second σ σ',
     AppendTree fuel first second σ = Ok σ' → same_blocks σ σ').
Proof.
  split_and!.
  - apply Parent_same_blocks.
  - apply AddChild_same_blocks.
  - apply InsertParent_same_blocks.
  - apply AppendTree_same_blocks.
Qed.

(** ** Ids and the node count *)

Lemma same_blocks_ids σ σ' :
  same_blocks σ σ' → ids_are_addresses σ → ids_are_addresses σ'.
Proof.
  intros (Hn & _) Hids. apply map_Forall_lookup. intros q nq' Hq.
  destruct (Hn q) as [_ Hid]. rewrite Hq in Hid. simpl in Hid.
  symmetry in Hid. apply fmap_Some in Hid as (nq & Hnq & ->).
  apply (map_Forall_lookup_1 _ _ _ _ Hids Hnq).
Qed.

Lemma same_blocks_dom σ σ' :
  same_blocks σ σ' → dom (nodes σ') = dom (nodes σ).
Proof.
  intros (Hn & _). apply set_eq. intros q. rewrite !elem_of_dom.
  destruct (Hn q) as [Htok _].
  rewrite <- (fmap_is_Some nd_token (nodes σ' !! q)).
  rewrite <- (fmap_is_Some nd_token (nodes σ !! q)). by rewrite Htok.
Qed.

Lemma same_blocks_size σ σ' :
  same_blocks σ σ' → size (nodes σ') = size (nodes σ).
Proof.
  intros H. rewrite <- !size_dom. by rewrite (same_blocks_dom σ σ').
Qed.

Section Counting.

Variable TranslateTokenType : TokenType → string.
Variable calloc_Node : State → ptr.
Variable calloc_Token : State → bool.
Hypothesis calloc_Node_fresh :
  ∀ σ, calloc_Node σ ≠ NULL → nodes σ !! calloc_Node σ = None.

Lemma step_ids_count t σ σ' k :
  t ≠ NULL →
  step TranslateTokenType calloc_Node calloc_Token t σ σ' →
  ids_are_addresses σ →
  (tr_size <$> trees σ !! t) = Some k → k = N.of_nat (size (nodes σ)) →
  ids_are_addresses σ' ∧
  (tr_size <$> trees σ' !! t) = Some (N.of_nat (size (nodes σ'))).
Proof.
  intros Ht Hstep Hids Hsz ->.
  assert (∀ p, (∃ p0 σ1 src ty,
      NodeCtor calloc_Node calloc_Token σ = Ok (p0, σ1) ∧
      fill_new_node t src ty p0 σ1 = Ok (p, σ')) →
    ids_are_addresses σ' ∧
    (tr_size <$> trees σ' !! t) = Some (N.of_nat (size (nodes σ')))) as Hcreate.
  { intros p (p0 & σ1 & src & ty & Hctor & Hfill).
    apply fmap_Some in Hsz as (tr & Htr & Htrsz).
    apply NodeCtor_Ok in Hctor as (-> & Hp & _ & ->).
    apply fill_new_node_inv with (tr := tr) in Hfill as (s & -> & Hn & Htrees);
      try done.
    pose proof (calloc_Node_fresh σ Hp) as Hfresh.
    split.
    - unfold ids_are_addresses. rewrite Hn. by apply map_Forall_insert_2.
    - rewrite Htrees, Hn, lookup_insert_eq. simpl.
      rewrite map_size_insert_None by done. f_equal. lia. }
  assert (same_blocks σ σ' →
    ids_are_addresses σ' ∧
    (tr_size <$> trees σ' !! t) = Some (N.of_nat (size (nodes σ')))) as Hsame.
  { intros Hsb. split; [by apply (same_blocks_ids σ)|].
    rewrite (same_blocks_size σ σ' Hsb).
    destruct Hsb as (_ & Htsz & _). by rewrite Htsz. }
  destruct Hstep as [tok p σ' H | ty p σ' H | c r σ' Hd H | n σ' Hd H | σ' H].
  - apply (Hcreate p). unfold CreateNode in H. inv_bind H.
    destruct a as [p0 σ1]. eauto 10.
  - apply (Hcreate p). unfold CreateNodeByType in H. inv_bind H.
    destruct a as [p0 σ1]. eauto 10.
  - by apply Hsame, (AddChild_same_blocks t c r).
  - by apply Hsame, (InsertParent_same_blocks t n).
  - by apply Hsame, (Parent_same_blocks t).
Qed.

(** X2.  In every store reached from a new, empty tree, each node holds its own
    address as id, so no two nodes share an id, and the node count of the
    tree is the number of node blocks. *)
Theorem reachable_ids_unique_and_counted t σ :
  reachable TranslateTokenType calloc_Node calloc_Token t σ →
  ids_are_addresses σ ∧
  (∀ p q np nq, nodes σ !! p = Some np → nodes σ !! q = Some nq →
     nd_id np = nd_id nq → p = q) ∧
  (tr_size <$> trees σ !! t) = Some (N.of_nat (size (nodes σ))).
Proof.
  intros Hr.
  assert (ids_are_addresses σ ∧
          (tr_size <$> trees σ !! t) = Some (N.of_nat (size (nodes σ))))
    as [Hids Hcount].
  { induction Hr as [σ Ht Hn Htr | σ σ' Hr [IH1 IH2] Hstep].
    - split.
      + unfold ids_are_addresses. rewrite Hn. apply map_Forall_empty.
      + by rewrite Htr, Hn, map_size_empty.
    - destruct (reachable_inv _ _ _ calloc_Node_fresh t σ Hr) as (Ht & _).
      by apply (step_ids_count t σ σ' (N.of_nat (size (nodes σ)))). }
  split_and!; try done.
  intros p q np nq Hp Hq E.
  rewrite <- (map_Forall_lookup_1 _ _ _ _ Hids Hp).
  by rewrite <- (map_Forall_lookup_1 _ _ _ _ Hids Hq).
Qed.

End Counting.

(** ** [TreeCtor] *)

Section TreeConstruction.

Variable TranslateTokenType : TokenType → string.
Variable calloc_Node : State → ptr.
Variable calloc_Token : State → bool.
Variable calloc_Tree : State → ptr.
Hypothesis calloc_Node_fresh :
  ∀ σ, calloc_Node σ ≠ NULL → nodes σ !! calloc_Node σ = None.

Lemma CreateNodeByType_Ok_inv t ty σ tr p σ' :
  t ≠ NULL → trees σ !! t = Some tr →
  CreateNodeByType TranslateTokenType calloc_Node calloc_Token t ty σ = Ok (p, σ') →
  p = calloc_Node σ ∧ p ≠ NULL ∧ nodes σ !! p = None ∧
  nodes σ' =
    <[p := mkNode (Some (mkToken ty (Some (TranslateTokenType ty)) PRSR_NONE))
             None NULL p]> (nodes σ) ∧
  trees σ' = <[t := set_size (tr_size tr + 1) tr]> (trees σ) ∧
  files σ' = files σ.
Proof.
  intros Ht Htr H. unfold CreateNodeByType in H. inv_bind H.
  destruct a as [p0 σ1]. apply NodeCtor_Ok in Hstep as (-> & Hp & _ & ->).
  apply fill_new_node_Ok with (tr := tr) (s := TranslateTokenType ty) in H
    as (-> & Hn & Htrees & Hfiles); try done.
  split_and!; try done. by apply calloc_Node_fresh.
Qed.

(** X3.  [TreeCtor] aborts when one of its three allocations fails; otherwise
    it returns a new tree whose only node is a new leaf that is both root
    and cursor, carries the canonical text of the given kind and its own
    address as id, and is counted once; no other node or tree changes. *)
Theorem TreeCtor_result type σ :
  let t := calloc_Tree σ in
  let σ1 := store_tree t zero_Tree σ in
  let n := calloc_Node σ1 in
  (t = NULL → TreeCtor TranslateTokenType calloc_Node calloc_Token calloc_Tree type σ = Abort) ∧
  (t ≠ NULL → n = NULL →
     TreeCtor TranslateTokenType calloc_Node calloc_Token calloc_Tree type σ = Abort) ∧
  (t ≠ NULL → n ≠ NULL → calloc_Token (store_node n zero_Node σ1) = false →
     TreeCtor TranslateTokenType calloc_Node calloc_Token calloc_Tree type σ = Abort) ∧
  (t ≠ NULL → n ≠ NULL → calloc_Token (store_node n zero_Node σ1) = true →
     ∃ σ',
       TreeCtor TranslateTokenType calloc_Node calloc_Token calloc_Tree type σ = Ok (t, σ') ∧
       trees σ' !! t = Some (mkTree n n 1) ∧
       nodes σ !! n = None ∧
       nodes σ' =
         <[n := mkNode (Some (mkToken type (Some (TranslateTokenType type)) PRSR_NONE))
                  None NULL n]> (nodes σ) ∧
       (∀ t', t' ≠ t → trees σ' !! t' = trees σ !! t') ∧
       files σ' = files σ).
Proof.
  intros t σ1 n. unfold TreeCtor. fold t. fold σ1. split_and!.
  - intros Ht. by rewrite decide_True.
  - intros Ht Hn. rewrite decide_False by done.
    unfold CreateNodeByType, NodeCtor. fold n. by rewrite decide_True.
  - intros Ht Hn Htok. rewrite decide_False by done.
    unfold CreateNodeByType, NodeCtor. fold n. rewrite decide_False by done.
    by rewrite Htok.
  - intros Ht Hn Htok. rewrite decide_False by done.
    assert (trees σ1 !! t = Some zero_Tree) as Htr.
    { unfold σ1. proj_state. apply lookup_insert_eq. }
    assert (∃ σ2, CreateNodeByType TranslateTokenType calloc_Node calloc_Token
                    t type σ1 = Ok (n, σ2)) as [σ2 Hrun].
    { unfold CreateNodeByType.
      rewrite (proj2 (NodeCtor_Ok calloc_Node calloc_Token σ1 n _)
                 (conj eq_refl (conj Hn (conj Htok eq_refl)))).
      rewrite bind_Ok. cbn beta iota.
      by apply fill_new_node_returns with (tr := zero_Tree) (s := TranslateTokenType type). }
    rewrite Hrun, bind_Ok. cbn beta iota.
    apply CreateNodeByType_Ok_inv with (tr := zero_Tree) in Hrun
      as (_ & _ & Hfresh & Hnodes & Htrees & Hfiles); try done.
    fold n in Hfresh.
    rewrite (AddChild_null_cursor t n σ2 (set_size (tr_size zero_Tree + 1) zero_Tree));
      try done.
    + rewrite bind_Ok. eexists. split; [done|]. proj_state.
      rewrite lookup_insert_eq. split_and!; try done.
      intros t' Hne. rewrite lookup_insert_ne by done. rewrite Htrees.
      rewrite lookup_insert_ne by done. unfold σ1. proj_state.
      by rewrite lookup_insert_ne.
    + split; [done|]. rewrite Hnodes, lookup_insert_eq. eauto 10.
    + rewrite Htrees. apply lookup_insert_eq.
Qed.

(** X4.  A tree returned by [TreeCtor] in a store without nodes is one of the
    stores reached from a new, empty tree, so all that holds of those
    stores holds of it: parent fields and child slots agree, every node
    carries a text and the cursor is on the spine. *)
Theorem TreeCtor_reachable type σ t σ' :
  nodes σ = ∅ →
  TreeCtor TranslateTokenType calloc_Node calloc_Token calloc_Tree type σ = Ok (t, σ') →
  reachable TranslateTokenType calloc_Node calloc_Token t σ' ∧ tree_inv t σ'.
Proof.
  intros Hempty H.
  assert (reachable TranslateTokenType calloc_Node calloc_Token t σ') as Hr.
  { unfold TreeCtor in H. case_decide as Ht; [done|].
    inv_bind H. destruct a as [n σ2]. inv_bind H. destruct a as [r σ3].
    injection H as <- <-.
    set (t := calloc_Tree σ) in *. set (σ1 := store_tree t zero_Tree σ) in *.
    assert (trees σ1 !! t = Some zero_Tree) as Htr.
    { unfold σ1. proj_state. apply lookup_insert_eq. }
    assert (reachable TranslateTokenType calloc_Node calloc_Token t σ1) as H1.
    { by apply reachable_new. }
    assert (reachable TranslateTokenType calloc_Node calloc_Token t σ2) as H2.
    { eapply reachable_step; [exact H1|]. eapply step_CreateNodeByType. exact Hstep. }
    eapply reachable_step; [exact H2|].
    apply step_AddChild with (c := n) (r := r); [|done].
    apply CreateNodeByType_Ok_inv with (tr := zero_Tree) in Hstep
      as (_ & Hn & _ & Hnodes & Htrees & _); try done.
    unfold detached, par, kids. rewrite Hnodes, Htrees, !lookup_insert_eq.
    split_and!; try done. cbn. intros [= <-]. done. }
  split; [done|].
  by apply (reachable_inv TranslateTokenType calloc_Node calloc_Token calloc_Node_fresh).
Qed.

End TreeConstruction.

(** ** Descending and ascending *)

(** X5.  [AddChild] on a live cursor followed by [Parent] brings the cursor
    back: the tree block is as before the two calls, the cursor has the new
    child in the slot after its former children (where [GetChild] finds
    it), the child has the cursor as parent, and no other parent field or
    children array changes. *)
Theorem AddChild_then_Parent t c σ tr cur :
  t ≠ NULL → has_text σ c → trees σ !! t = Some tr →
  tr_current tr ≠ NULL → nodes σ !! tr_current tr = Some cur →
  ∃ σ1 σ2,
    AddChild t c σ = Ok (c, σ1) ∧ Parent t σ1 = Ok σ2 ∧
    trees σ2 = trees σ ∧
    kids σ2 (tr_current tr) = Some (child_list cur ++ [c]) ∧
    GetChild σ2 (tr_current tr) (N.of_nat (length (child_list cur))) = Ok c ∧
    par σ2 c = Some (tr_current tr) ∧
    (∀ q, q ≠ c → par σ2 q = par σ q) ∧
    (∀ q, q ≠ tr_current tr → kids σ2 q = kids σ q).
Proof.
  intros Ht Hc Htr HX Hcur.
  pose proof Hc as (Hcn & nc & tok & s & Hnc & _).
  set (X := tr_current tr) in *.
  set (σa := append_child X c cur σ).
  assert (∀ q, par σa q = if decide (q = c) then Some X else par σ q) as Hpar.
  { intros q. apply par_append_child; eauto. }
  assert (∀ q, kids σa q = if decide (q = X) then Some (child_list cur ++ [c])
                           else kids σ q) as Hkids.
  { intros q. apply kids_append_child; eauto. }
  set (σ1 := store_tree t (set_current c tr) σa).
  assert (∃ nc', nodes σ1 !! c = Some nc' ∧ nd_parent nc' = X) as (nc' & Hnc' & Hp').
  { apply par_Some. unfold σ1. rewrite (par_nodes_ext σa) by done.
    rewrite Hpar. by rewrite decide_True. }
  exists σ1, (store_tree t (set_current (nd_parent nc') (set_current c tr)) σ1).
  split; [by apply AddChild_live_cursor|].
  split.
  { apply (Parent_live t σ1 (set_current c tr) nc'); try done.
    unfold σ1. proj_state. apply lookup_insert_eq. }
  rewrite Hp'. split_and!.
  - unfold σ1, σa. proj_state. rewrite insert_insert_eq.
    rewrite trees_append_child. apply insert_id.
    rewrite Htr. f_equal. by destruct tr.
  - rewrite (kids_nodes_ext σa) by done. rewrite Hkids. by rewrite decide_True.
  - apply GetChild_Ok.
    assert (kids σa X = Some (child_list cur ++ [c])) as Hk.
    { rewrite Hkids. by rewrite decide_True. }
    apply kids_Some in Hk as (nx & Hnx & Hcl).
    destruct (nd_children nx) as [l|] eqn:Hl.
    + exists nx, l. split_and!; try done.
      rewrite (child_list_Some nx l Hl) in Hcl. subst l.
      rewrite Nat2N.id. by rewrite lookup_app_r, Nat.sub_diag.
    + rewrite (child_list_None nx Hl) in Hcl. by destruct (child_list cur).
  - rewrite (par_nodes_ext σa) by done. rewrite Hpar. by rewrite decide_True.
  - intros q Hq. rewrite (par_nodes_ext σa) by done. rewrite Hpar.
    by rewrite decide_False.
  - intros q Hq. rewrite (kids_nodes_ext σa) by done. rewrite Hkids.
    by rewrite decide_False.
Qed.

(** ** [AppendTree] on one cursor *)

Lemma adopt_node_children F c old nq :
  nd_children (adopt_node F c old F nq) = Some (old ++ [c]).
Proof.
  unfold adopt_node. rewrite (decide_True (P := F = F)) by done. by case_decide.
Qed.

Lemma AppendTree_loop_same_cursor fuel first F : ∀ i σ σ' ft fn cs,
  trees σ !! first = Some ft → tr_current ft = F →
  nodes σ !! F = Some fn → nd_children fn = Some cs → (i < length cs)%nat →
  AppendTree_loop fuel first F (N.of_nat i) σ ≠ Ok σ'.
Proof.
  induction fuel as [|fuel IH]; intros i σ σ' ft fn cs Hft HF Hfn Hcs Hi H; [done|].
  simpl in H. inv_bind H.
  apply load_children_Ok in Hstep as (n & HFn & Hn & Hcs').
  assert (n = fn) as -> by congruence. assert (a = cs) as -> by congruence.
  rewrite decide_True in H by lia.
  inv_bind H. inv_bind H. destruct a0 as [r σ1].
  apply AddChild_Ok_inv in Hstep0 as (-> & Hfirst & Htxt & tr & Htr & Hcase).
  assert (tr = ft) as -> by congruence.
  destruct Hcase as [[Hnull _] | (_ & cur & Hcur & ->)]; [congruence|].
  rewrite HF in Hcur. assert (cur = fn) as -> by congruence.
  rewrite HF in H.
  destruct Htxt as (Ha & na & _ & _ & Hna & _).
  set (σa := append_child F a fn σ) in *.
  assert (∀ q, nodes σa !! q = adopt_node F a (child_list fn) q <$> nodes σ !! q) as Hlook.
  { intros q. apply append_child_lookup; eauto. }
  inv_bind H. apply Parent_Ok_inv in Hstep0 as (tr1 & cur1 & _ & Htr1 & _ & Hcur1 & ->).
  revert Htr1 Hcur1. proj_state. rewrite lookup_insert_eq. intros [= <-].
  cbn [tr_current set_current]. rewrite Hlook, Hna. intros [= <-].
  assert (nd_parent (adopt_node F a (child_list fn) a na) = F) as HpF.
  { unfold adopt_node. by rewrite (decide_True (P := a = a)). }
  rewrite HpF in H.
  inv_bind H. apply load_tree_Ok in Hstep0 as (_ & Hft2).
  revert Hft2. proj_state. rewrite lookup_insert_eq. intros [= <-].
  cbn [tr_current set_current] in H.
  inv_bind H. inv_bind H.
  apply update_node_Ok in Hstep1 as (nm & Hm & Hnm & ->).
  revert H. replace (N.of_nat i + 1) with (N.of_nat (S i)) by lia.
  set (σ3 := store_node a0 _ _).
  assert (∃ f3, nodes σ3 !! F = Some f3 ∧
                nd_children f3 = Some (child_list fn ++ [a])) as (f3 & Hf3 & Hc3).
  { unfold σ3. proj_state. revert Hnm. proj_state. intros Hnm.
    destruct (decide (a0 = F)) as [->|Hne].
    - rewrite lookup_insert_eq. eexists. split; [done|].
      cbn [nd_children set_parent]. rewrite Hlook, Hfn in Hnm.
      injection Hnm as <-. apply adopt_node_children.
    - rewrite lookup_insert_ne by done. rewrite Hlook, Hfn.
      eexists. split; [done|]. apply adopt_node_children. }
  apply (IH (S i) σ3 σ' (set_current F (set_current a ft)) f3 (child_list fn ++ [a])).
  - unfold σ3. proj_state. apply lookup_insert_eq.
  - done.
  - done.
  - done.
  - rewrite length_app. rewrite (child_list_Some fn cs Hcs). simpl. lia.
Qed.

(** X6.  [AppendTree] on two trees whose cursors are one and the same node that
    has a child (in particular on a tree and itself) never returns: every
    turn of the loop appends a child to the very array whose length bounds
    the loop. *)
Theorem AppendTree_same_cursor_never_returns fuel first second σ ft st fn c cs :
  trees σ !! first = Some ft → trees σ !! second = Some st →
  tr_current ft = tr_current st →
  nodes σ !! tr_current st = Some fn → nd_children fn = Some (c :: cs) →
  ∀ σ', AppendTree fuel first second σ ≠ Ok σ'.
Proof.
  intros Hft Hst Hsame Hfn Hcs σ' H. unfold AppendTree in H.
  inv_bind H. apply load_tree_Ok in Hstep as (_ & Hst').
  assert (a = st) as -> by congruence.
  inv_bind H. inv_bind H.
  revert Hstep0.
  apply (AppendTree_loop_same_cursor fuel first (tr_current st) 0%nat σ a0 ft fn (c :: cs));
    try done.
  simpl. lia.
Qed.

(** ** When the exporter returns *)

Section ExporterReturns.

Variable TranslateTokenType : TokenType → string.
Variable fopen_w : State → string → bool.

Lemma PrintNode_children_inv fuel σ
  (IH : ∀ p out out',
      PrintNode TranslateTokenType fuel σ (Some out) p = Ok out' →
      ∃ T recs, subtree fuel σ p = Some T ∧
        Forall2 (λ nn r, record_of TranslateTokenType nn = Some r) (preorder T) recs ∧
        out' = out ++ recs) :
  ∀ cs out out',
    for_children (λ c o, PrintNode TranslateTokenType fuel σ (Some o) c) cs out = Ok out' →
    ∃ kids recs,
      Forall2 (λ c k, subtree fuel σ c = Some k) cs kids ∧
      Forall2 (λ nn r, record_of TranslateTokenType nn = Some r)
        (concat (map preorder kids)) recs ∧
      out' = out ++ recs.
Proof.
  induction cs as [|c cs IHcs]; intros out out' H.
  - injection H as <-. exists [], []. split_and!; try constructor.
    by rewrite app_nil_r.
  - rewrite for_children_cons in H. inv_bind H.
    apply IH in Hstep as (T & r1 & HT & Hr1 & ->).
    apply IHcs in H as (kids & r2 & Hk & Hr2 & ->).
    exists (T :: kids), (r1 ++ r2). split_and!.
    + by constructor.
    + simpl. by apply Forall2_app.
    + by rewrite app_assoc.
Qed.

Lemma PrintNode_Ok_inv fuel : ∀ σ p out out',
  PrintNode TranslateTokenType fuel σ (Some out) p = Ok out' →
  ∃ T recs, subtree fuel σ p = Some T ∧
    Forall2 (λ nn r, record_of TranslateTokenType nn = Some r) (preorder T) recs ∧
    out' = out ++ recs.
Proof.
  induction fuel as [|fuel IH]; intros σ p out out' H; [done|].
  simpl in H. case_decide as Hp; [done|]. inv_bind H.
  apply load_node_Ok in Hstep as (_ & Hnn). rename a into nn.
  destruct (nd_token nn) as [tok|] eqn:Htok; [|done].
  destruct (tk_txt tok) as [txt|] eqn:Htxt; [|done].
  set (r := PrintNodeRecord (nd_id nn) (CellBordersFormat (tk_type tok))
              (CheckIfRuleName (tk_parser_type tok)) txt
              (secondary_label TranslateTokenType txt (tk_type tok))) in *.
  assert (record_of TranslateTokenType nn = Some r) as Hrec.
  { unfold record_of. rewrite Htok. simpl. by rewrite Htxt. }
  destruct (nd_children nn) as [cs|] eqn:Hcs.
  - apply (PrintNode_children_inv fuel σ (IH σ)) in H as (kids & recs & Hk & Hr & ->).
    exists (RNode p nn kids), (r :: recs). split_and!.
    + rewrite subtree_S. rewrite decide_False by done. rewrite Hnn, mbind_Some.
      rewrite (child_list_Some nn cs Hcs).
      apply mapM_Some in Hk. by rewrite Hk.
    + simpl. by constructor.
    + by rewrite <- app_assoc.
  - injection H as <-. exists (RNode p nn []), [r]. split_and!.
    + rewrite subtree_S. rewrite decide_False by done. rewrite Hnn, mbind_Some.
      by rewrite (child_list_None nn Hcs).
    + simpl. constructor; [exact Hrec | constructor].
    + done.
Qed.

Lemma edge_to_Ok_inv σ from c out out' :
  edge_to σ from c out = Ok out' →
  ∃ cn, c ≠ NULL ∧ nodes σ !! c = Some cn ∧ out' = out ++ [PrintEdge from (nd_id cn)].
Proof.
  unfold edge_to. intros H. inv_bind H.
  apply load_node_Ok in Hstep as (? & ?). injection H as <-. eauto.
Qed.

Lemma ConnectNode_children_inv fuel σ
  (IH : ∀ p out out',
      ConnectNode fuel σ (Some out) p = Ok out' →
      ∃ T, subtree fuel σ p = Some T ∧ out' = out ++ edges_of T) :
  ∀ cs out out',
    for_children (λ c o, ConnectNode fuel σ (Some o) c) cs out = Ok out' →
    ∃ kids,
      Forall2 (λ c k, subtree fuel σ c = Some k) cs kids ∧
      out' = out ++ concat (map edges_of kids).
Proof.
  induction cs as [|c cs IHcs]; intros out out' H.
  - injection H as <-. exists []. split; [constructor|]. by rewrite app_nil_r.
  - rewrite for_children_cons in H. inv_bind H.
    apply IH in Hstep as (T & HT & ->).
    apply IHcs in H as (kids & Hk & ->).
    exists (T :: kids). split; [by constructor|]. simpl. by rewrite app_assoc.
Qed.

Lemma ConnectNode_Ok_inv fuel : ∀ σ p out out',
  ConnectNode fuel σ (Some out) p = Ok out' →
  ∃ T, subtree fuel σ p = Some T ∧ out' = out ++ edges_of T.
Proof.
  induction fuel as [|fuel IH]; intros σ p out out' H; [done|].
  simpl in H. case_decide as Hp; [done|]. inv_bind H.
  apply load_node_Ok in Hstep as (_ & Hnn). rename a into nn.
  destruct (nd_children nn) as [cs|] eqn:Hcs.
  - inv_bind H.
    apply (ConnectNode_children_inv fuel σ (IH σ)) in H as (kids & Hk & ->).
    rewrite (edge_loop σ (nd_id nn) cs kids out fuel Hk) in Hstep.
    injection Hstep as <-.
    exists (RNode p nn kids). split.
    + rewrite subtree_S. rewrite decide_False by done. rewrite Hnn, mbind_Some.
      rewrite (child_list_Some nn cs Hcs).
      apply mapM_Some in Hk. by rewrite Hk.
    + simpl. by rewrite <- app_assoc.
  - injection H as <-. exists (RNode p nn []). split.
    + rewrite subtree_S. rewrite decide_False by done. rewrite Hnn, mbind_Some.
      by rewrite (child_list_None nn Hcs).
    + simpl. by rewrite app_nil_r.
Qed.

(** X8.  Each pass of the exporter returns exactly when the nodes under [p] form
    a finite tree within the budget (for the node pass: whose tokens all
    carry a text), and then it has appended the records of that tree, and
    nothing else, to what the stream held. *)
Theorem export_passes_return_iff fuel σ p out out' :
  (PrintNode TranslateTokenType fuel σ (Some out) p = Ok out' ↔
     ∃ T recs, subtree fuel σ p = Some T ∧
       node_records TranslateTokenType T = Some recs ∧ out' = out ++ recs) ∧
  (ConnectNode fuel σ (Some out) p = Ok out' ↔
     ∃ T, subtree fuel σ p = Some T ∧ out' = out ++ edges_of T).
Proof.
  split; split.
  - intros H. apply PrintNode_Ok_inv in H as (T & recs & HT & Hr & ->).
    exists T, recs. split_and!; try done. by apply mapM_Some.
  - intros (T & recs & HT & Hr & ->). apply mapM_Some in Hr.
    by apply (PrintNode_preorder TranslateTokenType fuel σ p T).
  - apply ConnectNode_Ok_inv.
  - intros (T & HT & ->). by apply ConnectNode_edges.
Qed.

(** X9.  Whenever [DebugTree] returns, the tree handle was not null, the file
    could be opened, the nodes under the root form a finite tree whose
    tokens all carry a text, and the store differs from the one before in
    the content of the graph file only, which is the document of that
    tree. *)
Theorem DebugTree_returns_only fuel t σ σ' :
  DebugTree TranslateTokenType fopen_w fuel t σ = Ok σ' →
  t ≠ NULL ∧ fopen_w σ graph_dot = true ∧
  ∃ tr T recs,
    trees σ !! t = Some tr ∧
    subtree fuel σ (tr_root tr) = Some T ∧
    node_records TranslateTokenType T = Some recs ∧
    σ' = with_files (<[graph_dot := graph_document T recs]> (files σ)) σ.
Proof.
  unfold DebugTree. intros H. case_decide as Ht; [done|].
  destruct (fopen_w σ graph_dot) eqn:Hopen; [|done].
  split; [done|]. split; [done|].
  inv_bind H. apply load_tree_Ok in Hstep as (_ & Htr). rename a into tr.
  inv_bind H. apply PrintNode_Ok_inv in Hstep as (T & recs & HT & Hr & ->).
  inv_bind H. apply ConnectNode_Ok_inv in Hstep as (T' & HT' & ->).
  assert (T' = T) as -> by congruence.
  injection H as <-. exists tr, T, recs. split_and!; try done.
  - by apply mapM_Some.
  - unfold graph_document. do 3 f_equal. by rewrite <- !app_assoc.
Qed.

Lemma DebugTree_Ok_subtree fuel t σ σ' :
  DebugTree TranslateTokenType fopen_w fuel t σ = Ok σ' →
  ∃ tr T, trees σ !! t = Some tr ∧ subtree fuel σ (tr_root tr) = Some T.
Proof.
  unfold DebugTree. intros H. case_decide as Ht; [done|].
  destruct (fopen_w σ graph_dot); [|done].
  inv_bind H. apply load_tree_Ok in Hstep as (_ & Htr).
  inv_bind H. apply PrintNode_Ok_inv in Hstep as (T & _ & HT & _).
  eauto.
Qed.

End ExporterReturns.

(** ** Cycles *)

Lemma subtree_child fuel σ p T cs c :
  subtree (S fuel) σ p = Some T → kids σ p = Some cs → c ∈ cs →
  ∃ k, subtree fuel σ c = Some k.
Proof.
  intros HT Hk Hc.
  apply subtree_Some_inv in HT as (f' & nn & ks & [= <-] & _ & Hnn & Hks & _).
  apply kids_Some in Hk as (np & Hnp & <-).
  assert (np = nn) as -> by congruence.
  apply list_elem_of_lookup in Hc as [i Hi].
  destruct (Forall2_lookup_l _ _ _ _ _ Hks Hi) as (k & _ & Hk). eauto.
Qed.

Lemma subtree_descends σ p q :
  descends σ p q →
  ∀ fuel T, subtree fuel σ p = Some T →
    ∃ fuel' T', (fuel' < fuel)%nat ∧ subtree fuel' σ q = Some T'.
Proof.
  induction 1 as [p cs c Hk Hc | p cs c q Hk Hc _ IH]; intros fuel T HT.
  - destruct fuel as [|fuel]; [done|].
    destruct (subtree_child fuel σ p T cs c HT Hk Hc) as [k Hsub].
    exists fuel, k. split; [lia | done].
  - destruct fuel as [|fuel]; [done|].
    destruct (subtree_child fuel σ p T cs c HT Hk Hc) as [k Hsub].
    destruct (IH fuel k Hsub) as (fuel' & T' & Hlt & HT').
    exists fuel', T'. split; [lia | done].
Qed.

(** No budget reads a tree at a node that is below itself. *)
Lemma subtree_cycle σ p :
  descends σ p p → ∀ fuel, subtree fuel σ p = None.
Proof.
  intros Hcyc fuel. induction (lt_wf fuel) as [fuel _ IH].
  destruct (subtree fuel σ p) as [T|] eqn:HT; [|done].
  destruct (subtree_descends σ p p Hcyc fuel T HT) as (fuel' & T' & Hlt & HT').
  rewrite (IH fuel' Hlt) in HT'. done.
Qed.

Lemma subtree_above_cycle σ root p :
  root = p ∨ descends σ root p → descends σ p p →
  ∀ fuel, subtree fuel σ root = None.
Proof.
  intros [-> | Hd] Hcyc fuel; [by apply subtree_cycle|].
  destruct (subtree fuel σ root) as [T|] eqn:HT; [|done].
  destruct (subtree_descends σ root p Hd fuel T HT) as (fuel' & T' & _ & HT').
  by rewrite (subtree_cycle σ p Hcyc) in HT'.
Qed.

Section OnCycle.

Variable TranslateTokenType : TokenType → string.
Variable fopen_w : State → string → bool.

(** X10.  The exporter follows child links with no visited set: when a node at
    or below the root is below itself, neither pass returns from the root,
    and [DebugTree] returns for no tree with that root, whatever the
    budget. *)
Theorem export_never_returns_on_cycle σ root p :
  root = p ∨ descends σ root p → descends σ p p →
  (∀ fuel out out', PrintNode TranslateTokenType fuel σ (Some out) root ≠ Ok out') ∧
  (∀ fuel out out', ConnectNode fuel σ (Some out) root ≠ Ok out') ∧
  (∀ fuel t tr σ', trees σ !! t = Some tr → tr_root tr = root →
     DebugTree TranslateTokenType fopen_w fuel t σ ≠ Ok σ').
Proof.
  intros Hroot Hcyc.
  pose proof (subtree_above_cycle σ root p Hroot Hcyc) as Hnone.
  split_and!.
  - intros fuel out out' H.
    apply PrintNode_Ok_inv in H as (T & _ & HT & _). by rewrite Hnone in HT.
  - intros fuel out out' H.
    apply ConnectNode_Ok_inv in H as (T & HT & _). by rewrite Hnone in HT.
  - intros fuel t tr σ' Htr <- H.
    apply DebugTree_Ok_subtree in H as (tr' & T & Htr' & HT).
    assert (tr' = tr) as -> by congruence. by rewrite Hnone in HT.
Qed.

End OnCycle.

Lemma descends_grow σ σ' p q :
  (∀ x cs c, kids σ x = Some cs → c ∈ cs →
     ∃ cs', kids σ' x = Some cs' ∧ c ∈ cs') →
  descends σ p q → descends σ' p q.
Proof.
  intros Hgrow. induction 1 as [p cs c Hk Hc | p cs c q Hk Hc _ IH].
  - destruct (Hgrow p cs c Hk Hc) as (cs' & Hk' & Hc').
    by apply (descends_child σ' p cs' c).
  - destruct (Hgrow p cs c Hk Hc) as (cs' & Hk' & Hc').
    by apply (descends_below σ' p cs' c q).
Qed.

(** X11.  [AddChild] does not look where the new child comes from: given the
    cursor itself or a node the cursor is below, it returns, and the old
    cursor is then below itself. *)
Theorem AddChild_of_ancestor_makes_cycle t c σ tr cur :
  t ≠ NULL → has_text σ c → trees σ !! t = Some tr →
  tr_current tr ≠ NULL → nodes σ !! tr_current tr = Some cur →
  c = tr_current tr ∨ descends σ c (tr_current tr) →
  ∃ σ', AddChild t c σ = Ok (c, σ') ∧
        descends σ' (tr_current tr) (tr_current tr).
Proof.
  intros Ht Hc Htr HX Hcur Hanc.
  pose proof Hc as (Hcn & nc & tok & s & Hnc & _).
  set (X := tr_current tr) in *.
  set (σa := append_child X c cur σ).
  assert (∀ q, kids σa q = if decide (q = X) then Some (child_list cur ++ [c])
                           else kids σ q) as Hkids.
  { intros q. apply kids_append_child; eauto. }
  exists (store_tree t (set_current c tr) σa).
  split; [by apply AddChild_live_cursor|].
  set (σ' := store_tree t (set_current c tr) σa).
  assert (∀ q, kids σ' q = kids σa q) as Hk'.
  { intros q. by apply kids_nodes_ext. }
  assert (kids σ' X = Some (child_list cur ++ [c])) as HkX.
  { rewrite Hk', Hkids. by rewrite decide_True. }
  assert (c ∈ child_list cur ++ [c]) as Hin.
  { apply elem_of_app. right. apply list_elem_of_here. }
  destruct Hanc as [-> | Hd].
  - by apply (descends_child σ' X (child_list cur ++ [X]) X).
  - apply (descends_below σ' X (child_list cur ++ [c]) c X); try done.
    apply (descends_grow σ σ'); [|done].
    intros x cs y Hx Hy. rewrite Hk', Hkids. case_decide as E.
    + subst x. eexists. split; [done|]. apply elem_of_app. left.
      apply kids_Some in Hx as (nx & Hnx & <-).
      assert (nx = cur) as -> by congruence. done.
    + eauto.
Qed.

(** ** Counting records *)

Lemma subtree_counts fuel : ∀ σ p T,
  subtree fuel σ p = Some T →
  length (preorder T) = S (length (edges_of T)).
Proof.
  induction fuel as [|fuel IH]; intros σ p T HT; [done|].
  apply subtree_Some_inv in HT as (f' & nn & kids & [= <-] & _ & _ & Hk & ->).
  simpl. f_equal. rewrite length_app, length_map.
  induction Hk as [|c k cs kids Hc _ IHk]; [done|].
  simpl. rewrite !length_app, IHk, (IH σ c k Hc). lia.
Qed.

Section RecordCount.

Variable TranslateTokenType : TokenType → string.

(** X12.  When both passes of the exporter return from the same node, the edge
    pass has written one record less than the node pass: the nodes reached
    form a tree, with one edge into every node but the first. *)
Theorem edges_one_less_than_nodes fuel fuel' σ p out out' es es' :
  PrintNode TranslateTokenType fuel σ (Some out) p = Ok out' →
  ConnectNode fuel' σ (Some es) p = Ok es' →
  (length out' - length out = S (length es' - length es))%nat.
Proof.
  intros Hn He.
  apply PrintNode_Ok_inv in Hn as (T & recs & HT & Hr & ->).
  apply ConnectNode_Ok_inv in He as (T' & HT' & ->).
  assert (T' = T) as ->.
  { destruct (Nat.le_ge_cases fuel fuel') as [Hle | Hle].
    - apply (subtree_mono_le fuel fuel') in HT; [congruence | done].
    - apply (subtree_mono_le fuel' fuel) in HT'; [congruence | done]. }
  rewrite !length_app. apply Forall2_length in Hr.
  rewrite <- Hr, (subtree_counts fuel σ p T HT). lia.
Qed.

End RecordCount.

(** ** The last slot of [InsertParent] *)

Section CursorSlot.

Variable TranslateTokenType : TokenType → string.
Variable calloc_Node : State → ptr.
Variable calloc_Token : State → bool.
Hypothesis calloc_Node_fresh :
  ∀ σ, calloc_Node σ ≠ NULL → nodes σ !! calloc_Node σ = None.

(** X13.  [InsertParent] writes the new parent over the last child slot of the
    cursor's parent, whichever slot the cursor is in.  In the stores
    reached from a new tree by creations, by [AddChild] and [InsertParent]
    of detached nodes and by [Parent], that slot is always the cursor's: a
    cursor with a parent is its last child, and fills no other slot. *)
Theorem reachable_cursor_is_last_child t σ tr P :
  reachable TranslateTokenType calloc_Node calloc_Token t σ →
  trees σ !! t = Some tr → par σ (tr_current tr) = Some P → P ≠ NULL →
  ∃ front, kids σ P = Some (front ++ [tr_current tr]) ∧ tr_current tr ∉ front.
Proof.
  intros Hr Htr Hpar HP.
  destruct (reachable_inv TranslateTokenType calloc_Node calloc_Token
              calloc_Node_fresh t σ Hr) as (_ & Hsym & _ & tr' & Htr' & Hcur).
  assert (tr' = tr) as -> by congruence.
  destruct Hsym as (Hnull & Hfw & _).
  destruct Hcur as [Hc | [anc Hsp]].
  { rewrite Hc in Hpar. unfold par in Hpar. by rewrite Hnull in Hpar. }
  inversion Hsp as [x _ Hp0 | x p cs anc' _ Hp Hpn Hk Hlast _ _]; subst x.
  { congruence. }
  assert (p = P) as -> by congruence.
  destruct (forward_lookup σ (tr_current tr) P Hfw Hpar HP) as (cs' & Hk' & Honce).
  assert (cs' = cs) as -> by congruence.
  apply last_Some in Hlast as [front ->].
  exists front. split; [done|].
  apply count_slot_0. unfold occurs_once in Honce.
  rewrite count_slot_app, count_slot_cons, decide_True, count_slot_nil in Honce by done.
  lia.
Qed.

End CursorSlot.

(** X14.  [InsertParent] on a cursor that is not the last child of its
    parent [P] overwrites the slot of the last sibling [L] instead: the
    cursor stays in a slot of [P] while its parent field names the new
    node, and [L] is in no slot of [P] while its parent field still names
    [P]; parent fields and child slots no longer agree in either
    direction. *)
Theorem InsertParent_overwrites_last_sibling t n σ tr xn nn pn front L :
  let X := tr_current tr in
  let P := nd_parent xn in
  t ≠ NULL → trees σ !! t = Some tr →
  has_text σ X → nodes σ !! X = Some xn →
  n ≠ NULL → nodes σ !! n = Some nn → n ≠ X →
  P ≠ NULL → P ≠ X → P ≠ n → nodes σ !! P = Some pn →
  nd_children pn = Some (front ++ [L]) →
  X ∈ front → L ∉ front → L ≠ X → L ≠ n → par σ L = Some P →
  ∃ σ',
    InsertParent t n σ = Ok σ' ∧
    kids σ' P = Some (front ++ [n]) ∧
    par σ' X = Some n ∧ X ∈ front ++ [n] ∧
    par σ' L = Some P ∧ (L ∉ front ++ [n]) ∧
    ¬ forward σ' ∧ ¬ backward σ'.
Proof.
  intros X P Ht Htr HtX Hxn Hn Hnn HnX HP HPX HPn Hpn Hch HXf HLf HLX HLn HparL.
  assert (child_list pn = front ++ [L]) as Hcl by (by apply child_list_Some).
  assert (∃ c0 cs0, front ++ [L] = c0 :: cs0) as (c0 & cs0 & Hne).
  { destruct front; simpl; eauto. }
  set (σs := splice_parent n X xn nn σ).
  exists (store_tree t
            (mkTree (if decide (X = tr_root tr) then n else tr_root tr) n (tr_size tr)) σs).
  split.
  { apply (InsertParent_run t n σ tr xn nn); try done.
    right. exists pn, c0, cs0. fold P. rewrite <- Hne. by split_and!. }
  assert (X ≠ n) as HXn by (by apply not_eq_sym).
  assert (∀ q, par σs q =
            if decide (q = X) then Some n
            else if decide (q = n) then Some P else par σ q) as Hpar.
  { intros q. unfold σs. by rewrite (par_splice_parent n X xn nn pn σ). }
  assert (∀ q, kids σs q =
            if decide (q = n) then Some (child_list nn ++ [X])
            else if decide (q = P) then Some (front ++ [n])
            else kids σ q) as Hkids.
  { intros q. unfold σs. rewrite (kids_splice_parent n X xn nn pn σ) by done.
    fold P. rewrite Hcl. rewrite length_app. simpl.
    replace (length front + 1 - 1)%nat with (length front + 0)%nat by lia.
    rewrite insert_app_r. done. }
  set (σ' := store_tree _ _ σs).
  assert (kids σ' P = Some (front ++ [n])) as HkP.
  { unfold σ'. rewrite (kids_nodes_ext σs) by done. rewrite Hkids.
    rewrite decide_False by done. by rewrite decide_True. }
  assert (par σ' X = Some n) as HpX.
  { unfold σ'. rewrite (par_nodes_ext σs) by done. rewrite Hpar.
    by rewrite decide_True. }
  assert (par σ' L = Some P) as HpL.
  { unfold σ'. rewrite (par_nodes_ext σs) by done. rewrite Hpar.
    by rewrite !decide_False. }
  assert (X ∈ front ++ [n]) as HXin by (apply elem_of_app; by left).
  assert (L ∉ front ++ [n]) as HLout.
  { intros Hin. apply elem_of_app in Hin as [Hin | Hin]; [done|].
    apply list_elem_of_singleton in Hin. done. }
  split_and!; try done.
  - intros Hfw.
    destruct (forward_lookup σ' L P Hfw HpL HP) as (cs & Hcs & Honce).
    assert (cs = front ++ [n]) as -> by congruence.
    apply occurs_once_elem in Honce. done.
  - intros Hbw.
    pose proof (backward_lookup σ' P (front ++ [n]) X Hbw HkP HXin) as HpX'.
    congruence.
Qed.

(** ** The root is above the cursor *)

Lemma spine_chain σ x anc : spine σ x anc → chain σ x anc.
Proof.
  induction 1 as [x Hx Hp | x p cs anc Hx Hp Hpn _ _ _ _ IH].
  - by apply chain_top.
  - by apply chain_up.
Qed.

Lemma chain_unique σ x anc :
  chain σ x anc → ∀ anc', chain σ x anc' → anc' = anc.
Proof.
  induction 1 as [x Hx Hp | x p anc Hx Hp Hpn _ IH]; intros anc' H'.
  - inversion H' as [y _ Hp' | y p' a' _ Hp' Hpn' _]; subst; [done | congruence].
  - inversion H' as [y _ Hp' | y p' a' _ Hp' Hpn' Hc']; subst; [congruence|].
    assert (p' = p) as -> by congruence. f_equal. by apply IH.
Qed.

Lemma chain_frame σ σ' x anc :
  chain σ x anc →
  (∀ a, a ∈ x :: anc → par σ' a = par σ a) →
  chain σ' x anc.
Proof.
  induction 1 as [x Hx Hp | x p anc Hx Hp Hpn _ IH]; intros Hpar.
  - apply chain_top; [done|]. rewrite Hpar; [done | apply list_elem_of_here].
  - apply chain_up; try done.
    + rewrite Hpar; [done | apply list_elem_of_here].
    + apply IH. intros a Ha. apply Hpar. by apply list_elem_of_further.
Qed.

Lemma chain_live σ x anc a :
  chain σ x anc → a ∈ x :: anc → is_Some (par σ a).
Proof.
  induction 1 as [x Hx Hp | x p anc Hx Hp Hpn _ IH]; intros Ha.
  - apply list_elem_of_singleton in Ha as ->. eauto.
  - apply elem_of_cons in Ha as [-> | Ha]; [eauto | by apply IH].
Qed.

Lemma last_cons_cons {A} (x y : A) l : last (x :: y :: l) = last (y :: l).
Proof. reflexivity. Qed.

Lemma descends_trans σ p q r :
  descends σ p q → descends σ q r → descends σ p r.
Proof.
  induction 1 as [p cs c Hk Hc | p cs c q Hk Hc _ IH]; intros Hqr.
  - by apply (descends_below σ p cs c r).
  - apply (descends_below σ p cs c r); [done | done | by apply IH].
Qed.

Lemma chain_descends σ x anc r :
  forward σ → chain σ x anc → last (x :: anc) = Some r →
  r ≠ NULL ∧ par σ r = Some NULL ∧ (x = r ∨ descends σ r x).
Proof.
  intros Hfw. induction 1 as [x Hx Hp | x p anc Hx Hp Hpn _ IH]; intros Hl.
  - injection Hl as <-. split_and!; try done. by left.
  - rewrite last_cons_cons in Hl.
    destruct (IH Hl) as (Hr & Hpr & Hd). split_and!; try done. right.
    destruct (forward_lookup σ x p Hfw Hp Hpn) as (cs & Hk & Honce).
    apply occurs_once_elem in Honce.
    destruct Hd as [-> | Hd].
    + by apply (descends_child σ r cs x).
    + apply (descends_trans σ r p x); [done|]. by apply (descends_child σ p cs x).
Qed.

Section Rooted.

Variable TranslateTokenType : TokenType → string.
Variable calloc_Node : State → ptr.
Variable calloc_Token : State → bool.
Hypothesis calloc_Node_fresh :
  ∀ σ, calloc_Node σ ≠ NULL → nodes σ !! calloc_Node σ = None.

Lemma rooted_create t σ σ' tr p leaf :
  rooted t σ → trees σ !! t = Some tr →
  nodes σ !! p = None →
  nodes σ' = <[p := leaf]> (nodes σ) →
  trees σ' = <[t := set_size (tr_size tr + 1) tr]> (trees σ) →
  rooted t σ'.
Proof.
  intros Hroot Htr Hfresh Hn Htrees tr' Htr' Hcur.
  rewrite Htrees, lookup_insert_eq in Htr'. injection Htr' as <-.
  cbn [tr_current tr_root set_size] in *.
  destruct (Hroot tr Htr Hcur) as (anc & Hch & Hl).
  exists anc. split; [|done].
  apply (chain_frame σ); [done|]. intros a Ha.
  destruct (chain_live σ _ anc a Hch Ha) as [o Ho].
  unfold par in *. rewrite Hn. rewrite lookup_insert_ne; [done|].
  intros <-. by rewrite Hfresh in Ho.
Qed.

Lemma rooted_AddChild t c r σ σ' :
  tree_inv t σ → rooted t σ → detached σ t c →
  AddChild t c σ = Ok (r, σ') → rooted t σ'.
Proof.
  intros (Ht & Hsym & Htxt & tr & Htr & Hcur) Hroot Hdet Hrun tr' Htr' Hcur'.
  pose proof Hdet as (Hc & Hpc & Hkc & Hcc).
  rewrite Htr in Hcc. simpl in Hcc.
  assert (tr_current tr ≠ c) as HXc by congruence.
  apply AddChild_Ok_inv in Hrun as (-> & _ & _ & tr0 & Htr0 & Hcase).
  assert (tr0 = tr) as -> by congruence.
  destruct Hcase as [[Hnull ->] | (HX & cur & Hcurn & ->)].
  - revert Htr'. proj_state. rewrite lookup_insert_eq. intros [= <-].
    cbn [tr_current tr_root set_current set_root]. exists []. split; [|done].
    apply chain_top; [done|]. by rewrite (par_nodes_ext σ).
  - revert Htr'. proj_state. rewrite trees_append_child, lookup_insert_eq.
    intros [= <-]. cbn [tr_current tr_root set_current].
    destruct (Hroot tr Htr HX) as (anc & Hch & Hl).
    destruct Hcur as [? | [anc0 Hsp]]; [done|].
    assert (anc0 = anc) as ->.
    { exact (chain_unique σ _ anc Hch anc0 (spine_chain σ _ anc0 Hsp)). }
    assert (c ∉ anc) as Hcanc by (by eapply detached_not_ancestor).
    pose proof Hpc as (nc & Hnc & _)%par_Some.
    set (σa := append_child (tr_current tr) c cur σ).
    assert (∀ q, par σa q = if decide (q = c) then Some (tr_current tr) else par σ q)
      as Hpar.
    { intros q. apply par_append_child; eauto. }
    exists (tr_current tr :: anc). split; [|by rewrite last_cons_cons].
    apply chain_up; try done.
    + rewrite (par_nodes_ext σa) by done. rewrite Hpar. by rewrite decide_True.
    + apply (chain_frame σ); [done|]. intros a Ha.
      rewrite (par_nodes_ext σa) by done. rewrite Hpar.
      rewrite decide_False; [done|]. intros ->.
      apply elem_of_cons in Ha as [? | ?]; done.
Qed.

Lemma rooted_Parent t σ σ' :
  rooted t σ → Parent t σ = Ok σ' → rooted t σ'.
Proof.
  intros Hroot Hrun tr' Htr' Hcur'.
  apply Parent_Ok_inv in Hrun as (tr & cur & Ht & Htr & HX & Hcur & ->).
  revert Htr'. proj_state. rewrite lookup_insert_eq. intros [= <-].
  cbn [tr_current tr_root set_current] in *.
  destruct (Hroot tr Htr HX) as (anc & Hch & Hl).
  assert (par σ (tr_current tr) = Some (nd_parent cur)) as Hp.
  { apply par_Some. eauto. }
  inversion Hch as [x _ Hp0 | x p anc' _ Hp' Hpn Hch']; subst x.
  { congruence. }
  subst anc. assert (p = nd_parent cur) as -> by congruence.
  exists anc'. split; [|by rewrite last_cons_cons in Hl].
  apply (chain_frame σ); [done|]. intros a _. by apply par_nodes_ext.
Qed.

Lemma rooted_InsertParent t n σ σ' :
  tree_inv t σ → rooted t σ → detached σ t n →
  InsertParent t n σ = Ok σ' → rooted t σ'.
Proof.
  intros (Ht & Hsym & Htxt & tr & Htr & Hcur) Hroot Hdet Hrun tr' Htr' Hcur'.
  pose proof Hdet as (Hn & Hpn & Hkn & Hcn).
  rewrite Htr in Hcn. simpl in Hcn.
  assert (n ≠ tr_current tr) as HnX by congruence.
  pose proof Hpn as (nn & Hnn & Hnnp)%par_Some.
  destruct Hcur as [Hnull | [anc Hsp]].
  { by rewrite (InsertParent_null_cursor t n σ tr) in Hrun. }
  pose proof (spine_not_NULL _ _ _ Hsp) as HX.
  destruct (spine_live _ _ _ Hsp) as [xn Hxn].
  assert (has_text σ (tr_current tr)) as HtX by (by eapply all_text_has_text).
  destruct (Hroot tr Htr HX) as (anc1 & Hch & Hl).
  assert (anc1 = anc) as ->.
  { exact (chain_unique σ _ anc (spine_chain σ _ anc Hsp) anc1 Hch). }
  set (X := tr_current tr) in *.
  inversion Hsp as [x HXn HpX Ex Ea | x P cs anc' HXn HpX HP HkP Hlast Hd HspP Ex Ea];
    subst x.
  - (* the cursor has no parent: it is the root *)
    subst anc. injection Hl as Hroot'.
    apply par_Some in HpX as (xn' & Hxn' & HxnP).
    assert (xn' = xn) as -> by congruence.
    rewrite (InsertParent_run t n σ tr xn nn) in Hrun; try done; [|by left].
    injection Hrun as <-. fold X in Htr'.
    revert Htr'. proj_state. rewrite lookup_insert_eq. intros [= <-].
    cbn [tr_current tr_root]. fold X. rewrite !decide_True by done.
    exists []. split; [|done]. apply chain_top; [done|].
    rewrite (par_nodes_ext (splice_parent n X xn nn σ)) by done.
    rewrite (splice_parent_top n X xn nn σ) by done.
    rewrite (par_append_child n X nn σ n Hnn) by eauto.
    by rewrite decide_False.
  - (* the cursor is below [P] *)
    subst anc. rewrite last_cons_cons in Hl.
    apply par_Some in HpX as (xn' & Hxn' & HxnP).
    assert (xn' = xn) as -> by congruence.
    apply not_elem_of_cons in Hd as [HXP HXanc].
    apply kids_Some in HkP as Hpn'. destruct Hpn' as (pn & Hpnl & Hpk).
    assert (P ≠ n) as HPn.
    { intros ->. rewrite Hkn in HkP. injection HkP as <-. done. }
    assert (n ∉ anc') as Hnanc by (by eapply detached_not_ancestor).
    assert (∃ c0 cs0, nd_children pn = Some (c0 :: cs0)) as (c0 & cs0 & Hch0).
    { unfold child_list in Hpk. destruct (nd_children pn) as [[|c0 cs0]|];
        simpl in Hpk; subst cs; try done. eauto. }
    rewrite (InsertParent_run t n σ tr xn nn) in Hrun; try done.
    2:{ right. exists pn, c0, cs0. rewrite HxnP. by split_and!. }
    injection Hrun as <-. fold X in Htr'.
    revert Htr'. proj_state. rewrite lookup_insert_eq. intros [= <-].
    cbn [tr_current tr_root].
    assert (X ≠ tr_root tr) as HXroot.
    { intros E. apply last_Some_elem_of in Hl. rewrite <- E in Hl.
      apply elem_of_cons in Hl as [? | ?]; done. }
    fold X. rewrite !decide_False by done.
    set (σs := splice_parent n X xn nn σ).
    assert (∀ q, par σs q =
              if decide (q = X) then Some n
              else if decide (q = n) then Some P else par σ q) as Hpar.
    { assert (nd_parent xn ≠ NULL) as HP' by (by rewrite HxnP).
      assert (nd_parent xn ≠ X) as HPX' by (rewrite HxnP; by apply not_eq_sym).
      assert (nd_parent xn ≠ n) as HPn' by (by rewrite HxnP).
      assert (X ≠ n) as HXn' by (by apply not_eq_sym).
      assert (nodes σ !! nd_parent xn = Some pn) as Hpn'' by (by rewrite HxnP).
      intros q. unfold σs.
      rewrite (par_splice_parent n X xn nn pn σ) by done. by rewrite HxnP. }
    exists (P :: anc'). split; [|by rewrite last_cons_cons].
    apply chain_up; try done.
    + rewrite (par_nodes_ext σs) by done. rewrite Hpar.
      rewrite decide_False by done. by rewrite decide_True.
    + inversion Hch as [| x p a' _ Hp' _ Hch']; subst.
      apply (chain_frame σ); [done|]. intros a Ha.
      rewrite (par_nodes_ext σs) by done. rewrite Hpar.
      assert (a ≠ X) as HaX.
      { intros ->. apply elem_of_cons in Ha as [? | ?]; [|done].
        by apply HXP. }
      assert (a ≠ n) as Han.
      { intros ->. apply elem_of_cons in Ha as [? | ?]; [|done].
        by apply HPn. }
      by rewrite !decide_False.
Qed.

Lemma step_keeps_rooted t σ σ' :
  tree_inv t σ → rooted t σ →
  step TranslateTokenType calloc_Node calloc_Token t σ σ' → rooted t σ'.
Proof.
  intros Hinv Hroot Hstep.
  pose proof Hinv as (Ht & _ & _ & tr & Htr & _).
  assert (∀ p, (∃ p0 σ1 src ty,
      NodeCtor calloc_Node calloc_Token σ = Ok (p0, σ1) ∧
      fill_new_node t src ty p0 σ1 = Ok (p, σ')) → rooted t σ') as Hcreate.
  { intros p (p0 & σ1 & src & ty & Hctor & Hfill).
    apply NodeCtor_Ok in Hctor as (-> & Hp & _ & ->).
    apply fill_new_node_inv with (tr := tr) in Hfill as (s & -> & Hn & Htrees);
      try done.
    by apply (rooted_create t σ σ' tr (calloc_Node σ) _ Hroot Htr
                (calloc_Node_fresh σ Hp) Hn). }
  destruct Hstep as [tok p σ' H | ty p σ' H | c r σ' Hd H | n σ' Hd H | σ' H].
  - apply (Hcreate p). unfold CreateNode in H. inv_bind H.
    destruct a as [p0 σ1]. eauto 10.
  - apply (Hcreate p). unfold CreateNodeByType in H. inv_bind H.
    destruct a as [p0 σ1]. eauto 10.
  - by apply (rooted_AddChild t c r σ).
  - by apply (rooted_InsertParent t n σ).
  - by apply (rooted_Parent t σ).
Qed.

Lemma reachable_rooted t σ :
  reachable TranslateTokenType calloc_Node calloc_Token t σ → rooted t σ.
Proof.
  induction 1 as [σ Ht Hn Htr0 | σ σ' Hr IH Hstep].
  - intros tr' Htr' Hc'. rewrite Htr0 in Htr'. by injection Htr' as <-.
  - apply (step_keeps_rooted t σ σ'); [|done|done].
    by apply (reachable_inv TranslateTokenType calloc_Node calloc_Token
                calloc_Node_fresh).
Qed.

(** X15.  In every store reached from a new, empty tree, a live cursor is the
    root or below it, and the root has no parent: creations, [AddChild]
    and [InsertParent] of detached nodes and [Parent] never leave the
    cursor outside the tree that [DebugTree] exports. *)
Theorem reachable_cursor_under_root t σ tr :
  reachable TranslateTokenType calloc_Node calloc_Token t σ →
  trees σ !! t = Some tr → tr_current tr ≠ NULL →
  tr_root tr ≠ NULL ∧ par σ (tr_root tr) = Some NULL ∧
  (tr_current tr = tr_root tr ∨ descends σ (tr_root tr) (tr_current tr)).
Proof.
  intros Hr Htr Hcur.
  destruct (reachable_rooted t σ Hr tr Htr Hcur) as (anc & Hch & Hl).
  destruct (reachable_inv TranslateTokenType calloc_Node calloc_Token
              calloc_Node_fresh t σ Hr) as (_ & (_ & Hfw & _) & _).
  by apply (chain_descends σ (tr_current tr) anc).
Qed.

End Rooted.

(** ** Trees under construction are finite *)

Lemma detached_no_child σ t c y :
  symmetric σ → detached σ t c → par σ y ≠ Some c.
Proof.
  intros (_ & Hfw & _) (Hc & _ & Hk & _) Hy.
  destruct (forward_lookup σ y c Hfw Hy Hc) as (cs & Hcs & Honce).
  assert (cs = []) as -> by congruence. done.
Qed.

Lemma AddChild_detached_par t c r σ σ' :
  detached σ t c → AddChild t c σ = Ok (r, σ') →
  ∃ tr, trees σ !! t = Some tr ∧
    ((tr_current tr = NULL ∧ (∀ q, par σ' q = par σ q) ∧
      trees σ' !! t = Some (set_current c (set_root c tr))) ∨
     (tr_current tr ≠ NULL ∧
      (∀ q, par σ' q = if decide (q = c) then Some (tr_current tr) else par σ q) ∧
      trees σ' !! t = Some (set_current c tr))).
Proof.
  intros (Hc & Hpc & _) Hrun.
  apply AddChild_Ok_inv in Hrun as (-> & _ & _ & tr & Htr & Hcase).
  exists tr. split; [done|].
  destruct Hcase as [[Hnull ->] | (HX & cur & Hcurn & ->)]; [left | right].
  - split; [done|]. split; [intros q; by apply par_nodes_ext|].
    proj_state. apply lookup_insert_eq.
  - split; [done|]. split.
    + intros q. rewrite (par_nodes_ext (append_child (tr_current tr) c cur σ)) by done.
      apply par_append_child; [done|]. apply par_Some in Hpc as (nc & Hnc & _). eauto.
    + proj_state. apply lookup_insert_eq.
Qed.

Lemma InsertParent_detached_par t n σ σ' :
  tree_inv t σ → detached σ t n → InsertParent t n σ = Ok σ' →
  ∃ tr xn,
    trees σ !! t = Some tr ∧ tr_current tr ≠ NULL ∧ tr_current tr ≠ n ∧
    nodes σ !! tr_current tr = Some xn ∧
    (∀ q, par σ' q =
            if decide (q = tr_current tr) then Some n
            else if decide (q = n) then Some (nd_parent xn) else par σ q) ∧
    trees σ' !! t =
      Some (mkTree (if decide (tr_current tr = tr_root tr) then n else tr_root tr)
              n (tr_size tr)).
Proof.
  intros (Ht & Hsym & Htxt & tr & Htr & Hcur) Hdet Hrun.
  pose proof Hdet as (Hn & Hpn & Hkn & Hcn).
  rewrite Htr in Hcn. simpl in Hcn.
  assert (n ≠ tr_current tr) as HnX by congruence.
  pose proof Hpn as (nn & Hnn & Hnnp)%par_Some.
  destruct Hcur as [Hnull | [anc Hsp]].
  { by rewrite (InsertParent_null_cursor t n σ tr) in Hrun. }
  pose proof (spine_not_NULL _ _ _ Hsp) as HX.
  destruct (spine_live _ _ _ Hsp) as [xn Hxn].
  assert (has_text σ (tr_current tr)) as HtX by (by eapply all_text_has_text).
  exists tr, xn. split; [done|]. split; [done|].
  split; [by apply not_eq_sym|]. split; [done|].
  set (X := tr_current tr) in *.
  assert (X ≠ n) as HXn' by (by apply not_eq_sym).
  inversion Hsp as [x HXn HpX Ex Ea | x P cs anc' HXn HpX HP HkP Hlast Hd HspP Ex Ea];
    subst x.
  - apply par_Some in HpX as (xn' & Hxn' & HxnP).
    assert (xn' = xn) as -> by congruence.
    rewrite (InsertParent_run t n σ tr xn nn) in Hrun; try done; [|by left].
    injection Hrun as <-. fold X. split.
    + intros q.
      rewrite (par_nodes_ext (splice_parent n X xn nn σ)) by done.
      rewrite (splice_parent_top n X xn nn σ) by done.
      rewrite (par_append_child n X nn σ q Hnn) by eauto.
      case_decide; [done|]. case_decide as E; [|done].
      subst q. by rewrite HxnP.
    + proj_state. apply lookup_insert_eq.
  - apply par_Some in HpX as (xn' & Hxn' & HxnP).
    assert (xn' = xn) as -> by congruence.
    apply not_elem_of_cons in Hd as [HXP HXanc].
    apply kids_Some in HkP as Hpn'. destruct Hpn' as (pn & Hpnl & Hpk).
    assert (P ≠ n) as HPn.
    { intros ->. rewrite Hkn in HkP. injection HkP as <-. done. }
    assert (∃ c0 cs0, nd_children pn = Some (c0 :: cs0)) as (c0 & cs0 & Hch0).
    { unfold child_list in Hpk. destruct (nd_children pn) as [[|c0 cs0]|];
        simpl in Hpk; subst cs; try done. eauto. }
    rewrite (InsertParent_run t n σ tr xn nn) in Hrun; try done.
    2:{ right. exists pn, c0, cs0. rewrite HxnP. by split_and!. }
    injection Hrun as <-. fold X. split.
    + assert (nd_parent xn ≠ NULL) as HP' by (by rewrite HxnP).
      assert (nd_parent xn ≠ X) as HPX' by (rewrite HxnP; by apply not_eq_sym).
      assert (nd_parent xn ≠ n) as HPn' by (by rewrite HxnP).
      assert (nodes σ !! nd_parent xn = Some pn) as Hpn'' by (by rewrite HxnP).
      intros q. rewrite (par_nodes_ext (splice_parent n X xn nn σ)) by done.
      by rewrite (par_splice_parent n X xn nn pn σ).
    + proj_state. apply lookup_insert_eq.
Qed.

Lemma ranked_AddChild σ σ' t c X rank :
  symmetric σ → detached σ t c → X ≠ c →
  (∀ q, par σ' q = if decide (q = c) then Some X else par σ q) →
  ranked σ rank →
  ranked σ' (λ y, if decide (y = c) then 0%nat else S (rank y)).
Proof.
  intros Hsym Hdet HXc Hpar Hrank x p Hx Hp. rewrite Hpar in Hx.
  destruct (decide (x = c)) as [->|Hxc].
  - injection Hx as <-. rewrite (decide_False (P := X = c)) by done. lia.
  - assert (p ≠ c) as Hpc.
    { intros ->. by apply (detached_no_child σ t c x). }
    rewrite (decide_False (P := p = c)) by done.
    pose proof (Hrank x p Hx Hp). lia.
Qed.

Lemma ranked_InsertParent σ σ' t n X xn rank :
  symmetric σ → detached σ t n → X ≠ n → nodes σ !! X = Some xn →
  (∀ q, par σ' q =
          if decide (q = X) then Some n
          else if decide (q = n) then Some (nd_parent xn) else par σ q) →
  ranked σ rank →
  ranked σ' (λ y, if decide (y = n) then (2 * rank X + 1)%nat else (2 * rank y)%nat).
Proof.
  intros Hsym Hdet HXn Hxn Hpar Hrank x p Hx Hp. rewrite Hpar in Hx.
  assert (par σ X = Some (nd_parent xn)) as HpX by (apply par_Some; eauto).
  destruct (decide (x = X)) as [->|HxX].
  - injection Hx as <-. rewrite (decide_True (P := n = n)) by done.
    rewrite (decide_False (P := X = n)) by done. lia.
  - destruct (decide (x = n)) as [->|Hxn'].
    + injection Hx as <-.
      assert (nd_parent xn ≠ n) as HPn.
      { intros E. rewrite E in HpX. by apply (detached_no_child σ t n X). }
      rewrite (decide_False (P := nd_parent xn = n)) by done.
      pose proof (Hrank X (nd_parent xn) HpX Hp). lia.
    + assert (p ≠ n) as Hpn.
      { intros ->. by apply (detached_no_child σ t n x). }
      rewrite (decide_False (P := p = n)) by done.
      pose proof (Hrank x p Hx Hp). lia.
Qed.

Lemma ranked_descends σ rank p q :
  backward σ → ranked σ rank → nodes σ !! NULL = None →
  descends σ p q → (rank q < rank p)%nat.
Proof.
  intros Hbw Hrank Hnull.
  induction 1 as [p cs c Hk Hc | p cs c q Hk Hc _ IH].
  - apply Hrank; [by apply (backward_lookup σ p cs)|].
    by apply (kids_not_NULL σ p cs).
  - assert (rank c < rank p)%nat; [|lia].
    apply Hrank; [by apply (backward_lookup σ p cs)|].
    by apply (kids_not_NULL σ p cs).
Qed.

Lemma ranked_subtree σ rank :
  ranked σ rank → backward σ → nodes σ !! NULL = None →
  ∀ k p, (rank p < k)%nat → is_Some (nodes σ !! p) →
    is_Some (subtree k σ p).
Proof.
  intros Hrank Hbw Hnull. induction k as [|k IH]; intros p Hlt [np Hnp]; [lia|].
  assert (p ≠ NULL) as Hp by (intros ->; congruence).
  rewrite subtree_S. rewrite decide_False by done. rewrite Hnp, mbind_Some.
  assert (is_Some (mapM (subtree k σ) (child_list np))) as [ks Hks].
  { apply mapM_is_Some. apply Forall_forall. intros c Hc. simpl.
    assert (par σ c = Some p) as Hpc.
    { apply (backward_lookup σ p (child_list np) c Hbw); [|done].
      apply kids_Some. eauto. }
    apply IH.
    - pose proof (Hrank c p Hpc Hp). lia.
    - apply par_Some in Hpc as (? & ? & _). eauto. }
  rewrite Hks. simpl. eauto.
Qed.

Section RecordsExist.

Variable TranslateTokenType : TokenType → string.

Lemma subtree_records σ :
  all_text σ →
  ∀ k p T, subtree k σ p = Some T →
    Forall (λ nn, is_Some (record_of TranslateTokenType nn)) (preorder T).
Proof.
  intros Htxt. induction k as [|k IH]; intros p T HT; [done|].
  apply subtree_Some_inv in HT as (f' & nn & kids & [= <-] & _ & Hnn & Hk & ->).
  simpl. constructor.
  - destruct (map_Forall_lookup_1 _ _ _ _ Htxt Hnn) as (tok & Htok & [s Hs]).
    unfold record_of. rewrite Htok. simpl. rewrite Hs. simpl. eauto.
  - induction Hk as [|c T' cs kids Hc _ IHk]; [constructor|].
    simpl. apply Forall_app. split; [by apply (IH c) | done].
Qed.

End RecordsExist.

Section Finite.

Variable TranslateTokenType : TokenType → string.
Variable calloc_Node : State → ptr.
Variable calloc_Token : State → bool.
Variable fopen_w : State → string → bool.
Hypothesis calloc_Node_fresh :
  ∀ σ, calloc_Node σ ≠ NULL → nodes σ !! calloc_Node σ = None.

Lemma step_cases t σ σ' :
  tree_inv t σ →
  step TranslateTokenType calloc_Node calloc_Token t σ σ' →
  (∃ p leaf tr,
      trees σ !! t = Some tr ∧ p ≠ NULL ∧ nodes σ !! p = None ∧
      nd_parent leaf = NULL ∧
      nodes σ' = <[p := leaf]> (nodes σ) ∧
      trees σ' = <[t := set_size (tr_size tr + 1) tr]> (trees σ)) ∨
  (∃ c r, detached σ t c ∧ AddChild t c σ = Ok (r, σ')) ∨
  (∃ n, detached σ t n ∧ InsertParent t n σ = Ok σ') ∨
  Parent t σ = Ok σ'.
Proof.
  intros Hinv Hstep.
  pose proof Hinv as (Ht & _ & _ & tr & Htr & _).
  assert (∀ p, (∃ p0 σ1 src ty,
      NodeCtor calloc_Node calloc_Token σ = Ok (p0, σ1) ∧
      fill_new_node t src ty p0 σ1 = Ok (p, σ')) →
    ∃ p leaf tr,
      trees σ !! t = Some tr ∧ p ≠ NULL ∧ nodes σ !! p = None ∧
      nd_parent leaf = NULL ∧
      nodes σ' = <[p := leaf]> (nodes σ) ∧
      trees σ' = <[t := set_size (tr_size tr + 1) tr]> (trees σ)) as Hcreate.
  { intros p (p0 & σ1 & src & ty & Hctor & Hfill).
    apply NodeCtor_Ok in Hctor as (-> & Hp & _ & ->).
    apply fill_new_node_inv with (tr := tr) in Hfill as (s & -> & Hn & Htrees);
      try done.
    exists (calloc_Node σ),
      (mkNode (Some (mkToken ty (Some s) PRSR_NONE)) None NULL (calloc_Node σ)), tr.
    split_and!; try done. by apply calloc_Node_fresh. }
  destruct Hstep as [tok p σ' H | ty p σ' H | c r σ' Hd H | n σ' Hd H | σ' H].
  - left. apply (Hcreate p). unfold CreateNode in H. inv_bind H.
    destruct a as [p0 σ1]. eauto 10.
  - left. apply (Hcreate p). unfold CreateNodeByType in H. inv_bind H.
    destruct a as [p0 σ1]. eauto 10.
  - right. left. eauto.
  - right. right. left. eauto.
  - right. right. right. done.
Qed.

Lemma step_keeps_ranked t σ σ' :
  tree_inv t σ → (∃ rank, ranked σ rank) →
  step TranslateTokenType calloc_Node calloc_Token t σ σ' →
  ∃ rank, ranked σ' rank.
Proof.
  intros Hinv [rank Hrank] Hstep.
  pose proof Hinv as (_ & Hsym & _).
  destruct (step_cases t σ σ' Hinv Hstep)
    as [(p & leaf & tr & Htr & Hp & Hfresh & Hleaf & Hn & _) |
        [(c & r & Hdet & Hrun) | [(n & Hdet & Hrun) | Hrun]]].
  - exists rank. intros x q Hx Hq. apply Hrank; [|done].
    unfold par in *. rewrite Hn in Hx.
    destruct (decide (x = p)) as [->|Hxp].
    + rewrite lookup_insert_eq in Hx. simpl in Hx. congruence.
    + by rewrite lookup_insert_ne in Hx.
  - destruct (AddChild_detached_par t c r σ σ' Hdet Hrun)
      as (tr & Htr & [(_ & Hpar & _) | (HX & Hpar & _)]).
    + exists rank. intros x q Hx Hq. rewrite Hpar in Hx. by apply Hrank.
    + eexists. apply (ranked_AddChild σ σ' t c (tr_current tr) rank); try done.
      destruct Hdet as (_ & _ & _ & Hcc). rewrite Htr in Hcc. simpl in Hcc.
      congruence.
  - destruct (InsertParent_detached_par t n σ σ' Hinv Hdet Hrun)
      as (tr & xn & Htr & HX & HXn & Hxn & Hpar & _).
    eexists. by apply (ranked_InsertParent σ σ' t n (tr_current tr) xn rank).
  - apply Parent_Ok_inv in Hrun as (tr & cur & _ & _ & _ & _ & ->).
    exists rank. intros x q Hx Hq. rewrite (par_nodes_ext σ) in Hx by done.
    by apply Hrank.
Qed.

Lemma reachable_ranked t σ :
  reachable TranslateTokenType calloc_Node calloc_Token t σ →
  ∃ rank, ranked σ rank.
Proof.
  induction 1 as [σ Ht Hn Htr0 | σ σ' Hr IH Hstep].
  - exists (λ _, 0%nat). intros x p Hx. unfold par in Hx.
    by rewrite Hn, lookup_empty in Hx.
  - apply (step_keeps_ranked t σ σ'); [|done|done].
    by apply (reachable_inv TranslateTokenType calloc_Node calloc_Token
                calloc_Node_fresh).
Qed.

Lemma step_keeps_root_live t σ σ' :
  tree_inv t σ → root_live t σ →
  step TranslateTokenType calloc_Node calloc_Token t σ σ' → root_live t σ'.
Proof.
  intros Hinv Hroot Hstep tr' Htr' Hr'.
  destruct (step_cases t σ σ' Hinv Hstep)
    as [(p & leaf & tr & Htr & Hp & Hfresh & Hleaf & Hn & Htrees) |
        [(c & r & Hdet & Hrun) | [(n & Hdet & Hrun) | Hrun]]].
  - rewrite Htrees, lookup_insert_eq in Htr'. injection Htr' as <-.
    cbn [tr_root set_size] in *. rewrite Hn.
    destruct (Hroot tr Htr Hr') as [nr Hnr].
    destruct (decide (tr_root tr = p)) as [E|E].
    + rewrite E. rewrite lookup_insert_eq. eauto.
    + rewrite lookup_insert_ne by (by apply not_eq_sym). eauto.
  - pose proof (AddChild_same_blocks t c r σ σ' Hrun) as Hsb.
    apply same_blocks_dom in Hsb.
    apply elem_of_dom. rewrite Hsb. apply elem_of_dom.
    destruct (AddChild_detached_par t c r σ σ' Hdet Hrun)
      as (tr & Htr & [(_ & _ & Ht') | (HX & _ & Ht')]).
    + assert (tr' = set_current c (set_root c tr)) as -> by congruence.
      cbn [tr_root set_current set_root].
      destruct Hdet as (_ & (nc & Hnc & _)%par_Some & _). eauto.
    + assert (tr' = set_current c tr) as -> by congruence.
      cbn [tr_root set_current] in *. by apply (Hroot tr).
  - pose proof (InsertParent_same_blocks t n σ σ' Hrun) as Hsb.
    apply same_blocks_dom in Hsb.
    apply elem_of_dom. rewrite Hsb. apply elem_of_dom.
    destruct (InsertParent_detached_par t n σ σ' Hinv Hdet Hrun)
      as (tr & xn & Htr & HX & HXn & Hxn & _ & Ht').
    rewrite Ht' in Htr'. injection Htr' as <-. cbn [tr_root] in *.
    case_decide as E.
    + destruct Hdet as (_ & (nn & Hnn & _)%par_Some & _). eauto.
    + by apply (Hroot tr).
  - apply Parent_Ok_inv in Hrun as (tr & cur & _ & Htr & _ & _ & ->).
    revert Htr'. proj_state. rewrite lookup_insert_eq. intros [= <-].
    cbn [tr_root set_current] in *. by apply (Hroot tr).
Qed.

Lemma reachable_root_live t σ :
  reachable TranslateTokenType calloc_Node calloc_Token t σ → root_live t σ.
Proof.
  induction 1 as [σ Ht Hn Htr0 | σ σ' Hr IH Hstep].
  - intros tr Htr Hroot. rewrite Htr0 in Htr. by injection Htr as <-.
  - apply (step_keeps_root_live t σ σ'); [|done|done].
    by apply (reachable_inv TranslateTokenType calloc_Node calloc_Token
                calloc_Node_fresh).
Qed.

(** X16.  In every store reached from a new, empty tree, no node is below
    itself. *)
Theorem reachable_acyclic t σ p :
  reachable TranslateTokenType calloc_Node calloc_Token t σ →
  ¬ descends σ p p.
Proof.
  intros Hr Hd.
  destruct (reachable_ranked t σ Hr) as [rank Hrank].
  destruct (reachable_inv TranslateTokenType calloc_Node calloc_Token
              calloc_Node_fresh t σ Hr) as (_ & (Hnull & _ & Hbw) & _).
  pose proof (ranked_descends σ rank p p Hbw Hrank Hnull Hd). lia.
Qed.

(** X17.  The export of a tree under construction returns: in every store
    reached from a new, empty tree, once the tree has a root and the graph
    file can be opened, [DebugTree] returns for every budget from some
    budget on, and changes neither a node nor a tree. *)
Theorem reachable_export_returns t σ tr :
  reachable TranslateTokenType calloc_Node calloc_Token t σ →
  trees σ !! t = Some tr → tr_root tr ≠ NULL →
  fopen_w σ graph_dot = true →
  ∃ fuel, ∀ fuel', (fuel ≤ fuel')%nat →
    ∃ σ', DebugTree TranslateTokenType fopen_w fuel' t σ = Ok σ' ∧
          nodes σ' = nodes σ ∧ trees σ' = trees σ.
Proof.
  intros Hr Htr Hroot Hopen.
  destruct (reachable_ranked t σ Hr) as [rank Hrank].
  destruct (reachable_inv TranslateTokenType calloc_Node calloc_Token
              calloc_Node_fresh t σ Hr) as (Ht & (Hnull & _ & Hbw) & Htxt & _).
  pose proof (reachable_root_live t σ Hr tr Htr Hroot) as Hlive.
  exists (S (rank (tr_root tr))). intros fuel' Hle.
  destruct (ranked_subtree σ rank Hrank Hbw Hnull fuel' (tr_root tr)) as [T HT];
    [lia | done |].
  assert (is_Some (node_records TranslateTokenType T)) as [recs Hrecs].
  { apply mapM_is_Some. apply (subtree_records TranslateTokenType σ Htxt fuel' _ T HT). }
  eexists. split; [|split].
  - by apply (DebugTree_run TranslateTokenType fopen_w fuel' t σ tr T recs).
  - done.
  - done.
Qed.

End Finite.

(** ** Reading a token kind back *)

Lemma Ttype_tokens σ σ' q :
  (nd_token <$> nodes σ' !! q) = (nd_token <$> nodes σ !! q) →
  Ttype σ' q = Ttype σ q.
Proof.
  intros E. unfold Ttype, load_node. case_decide; [done|].
  destruct (nodes σ' !! q) as [n'|], (nodes σ !! q) as [n|]; simpl in E;
    try done.
  injection E as E. simpl. by rewrite E.
Qed.

Lemma same_blocks_Ttype σ σ' q : same_blocks σ σ' → Ttype σ' q = Ttype σ q.
Proof. intros (Hn & _). apply Ttype_tokens. by destruct (Hn q). Qed.

Lemma fill_new_node_tree t src ty p σ q σ' :
  fill_new_node t src ty p σ = Ok (q, σ') →
  t ≠ NULL ∧ ∃ tr, trees σ !! t = Some tr.
Proof.
  unfold fill_new_node. intros H. inv_bind H.
  destruct (nd_token a) as [tok|]; [|done].
  inv_bind H. inv_bind H.
  apply update_node_Ok in Hstep1 as (n1 & _ & _ & ->).
  inv_bind H. apply update_tree_Ok in Hstep1 as (tr & Ht & Htr & _).
  split; [done|]. exists tr. revert Htr. by proj_state.
Qed.

Section KindReadBack.

Variable TranslateTokenType : TokenType → string.
Variable calloc_Node : State → ptr.
Variable calloc_Token : State → bool.

Lemma created_Ttype t src ty σ p σ' :
  (∃ p0 σ1, NodeCtor calloc_Node calloc_Token σ = Ok (p0, σ1) ∧
            fill_new_node t src ty p0 σ1 = Ok (p, σ')) →
  Ttype σ' p = Ok ty.
Proof.
  intros (p0 & σ1 & Hctor & Hfill).
  destruct (fill_new_node_tree t src ty p0 σ1 p σ' Hfill) as (Ht & tr & Htr).
  apply NodeCtor_Ok in Hctor as (-> & Hp & _ & ->).
  pose proof Hfill as Hq.
  apply fill_new_node_inv with (tr := tr) in Hfill as (s & -> & Hn & _); try done.
  apply fill_new_node_Ok with (tr := tr) (s := s) in Hq as (-> & _); try done.
  unfold Ttype.
  rewrite (load_node_live σ' (calloc_Node σ)
             (mkNode (Some (mkToken ty (Some s) PRSR_NONE)) None NULL (calloc_Node σ)) Hp).
  2:{ rewrite Hn. apply lookup_insert_eq. }
  done.
Qed.

(** X18.  [Ttype] reads back the kind a node was created with, and no later call
    of the builder changes what it reads, at this node or any other. *)
Theorem Ttype_reads_creation_kind :
  (∀ t ty σ p σ',
     CreateNodeByType TranslateTokenType calloc_Node calloc_Token t ty σ = Ok (p, σ') →
     Ttype σ' p = Ok ty) ∧
  (∀ t tok σ p σ',
     CreateNode calloc_Node calloc_Token t (Some tok) σ = Ok (p, σ') →
     Ttype σ' p = Ok (tk_type tok)) ∧
  (∀ t c r σ σ' q, AddChild t c σ = Ok (r, σ') → Ttype σ' q = Ttype σ q) ∧
  (∀ t n σ σ' q, InsertParent t n σ = Ok σ' → Ttype σ' q = Ttype σ q) ∧
  (∀ t σ σ' q, Parent t σ = Ok σ' → Ttype σ' q = Ttype σ q) ∧
  (∀ fuel first second σ σ' q,
     AppendTree fuel first second σ = Ok σ' → Ttype σ' q = Ttype σ q).
Proof.
  split_and!.
  - intros t ty σ p σ' H. unfold CreateNodeByType in H. inv_bind H.
    destruct a as [p0 σ1].
    apply (created_Ttype t (Some (TranslateTokenType ty)) ty σ). eauto.
  - intros t tok σ p σ' H. unfold CreateNode in H. inv_bind H.
    destruct a as [p0 σ1].
    apply (created_Ttype t (tk_txt tok) (tk_type tok) σ). eauto.
  - intros t c r σ σ' q H. by apply same_blocks_Ttype, (AddChild_same_blocks t c r).
  - intros t n σ σ' q H. by apply same_blocks_Ttype, (InsertParent_same_blocks t n).
  - intros t σ σ' q H. by apply same_blocks_Ttype, (Parent_same_blocks t).
  - intros fuel first second σ σ' q H.
    by apply same_blocks_Ttype, (AppendTree_same_blocks fuel first second).
Qed.

End KindReadBack.

(** ** [AppendTree] onto a tree without cursor *)

(** X7.  [AppendTree] does not look at the cursor of the first tree.  When it
    is null (a new tree, or a tree whose cursor has ascended past the
    root), the first child moved becomes root and cursor of the first tree,
    and [Parent] then takes the cursor to that child's parent, which is the
    cursor of the second tree: from the second turn on the loop appends to
    the array it runs over, so with two children or more the call never
    returns. *)
Theorem AppendTree_onto_null_cursor_never_returns
    fuel first second σ ft st gn c0 c1 cs :
  trees σ !! first = Some ft → tr_current ft = NULL →
  trees σ !! second = Some st →
  nodes σ !! tr_current st = Some gn →
  nd_children gn = Some (c0 :: c1 :: cs) →
  par σ c0 = Some (tr_current st) →
  ∀ σ', AppendTree fuel first second σ ≠ Ok σ'.
Proof.
  intros Hft Hnull Hst Hgn Hcs Hpar σ' H. unfold AppendTree in H.
  inv_bind H. apply load_tree_Ok in Hstep as (_ & Hst').
  assert (a = st) as -> by congruence.
  inv_bind H. apply load_children_Ok in Hstep as (_ & HG & _).
  inv_bind H. clear H. rename Hstep into H.
  remember (tr_current st) as G eqn:EG.
  destruct fuel as [|fuel]; [done|].
  simpl in H. inv_bind H.
  apply load_children_Ok in Hstep as (n & _ & Hn & Hcs').
  assert (n = gn) as -> by congruence.
  assert (a1 = c0 :: c1 :: cs) as -> by congruence.
  rewrite decide_True in H by (simpl; lia).
  inv_bind H. apply GetChild_Ok in Hstep as (n & l & _ & Hn' & Hl & Hc).
  assert (n = gn) as -> by congruence.
  assert (l = c0 :: c1 :: cs) as -> by congruence.
  injection Hc as <-.
  inv_bind H. destruct a1 as [r σ1].
  apply AddChild_Ok_inv in Hstep as (-> & Hfirst & Htxt & tr & Htr & Hcase).
  assert (tr = ft) as -> by congruence.
  destruct Hcase as [[_ ->] | (Hne & _)]; [|done].
  inv_bind H.
  apply Parent_Ok_inv in Hstep as (tr1 & cur1 & _ & Htr1 & _ & Hcur1 & ->).
  revert Htr1 Hcur1. proj_state. rewrite lookup_insert_eq. intros [= <-].
  cbn [tr_current set_current set_root]. intros Hcur1.
  apply par_Some in Hpar as (n0 & Hn0 & Hp0).
  assert (cur1 = n0) as -> by congruence. rewrite Hp0 in H.
  inv_bind H. apply load_tree_Ok in Hstep as (_ & Hft2).
  revert Hft2. proj_state. rewrite lookup_insert_eq. intros [= <-].
  cbn [tr_current set_current] in H.
  inv_bind H. inv_bind H.
  apply update_node_Ok in Hstep0 as (nm & Hm & Hnm & ->).
  revert Hnm H. proj_state. intros Hnm.
  set (σ3 := store_node a1 _ _).
  assert (∃ g3, nodes σ3 !! G = Some g3 ∧
                nd_children g3 = Some (c0 :: c1 :: cs)) as (g3 & Hg3 & Hc3).
  { unfold σ3. proj_state. destruct (decide (a1 = G)) as [->|Hne].
    - rewrite lookup_insert_eq. eexists. split; [done|].
      assert (nm = gn) as -> by congruence. done.
    - rewrite lookup_insert_ne by done. eauto. }
  change (0 + 1) with (N.of_nat 1).
  apply (AppendTree_loop_same_cursor fuel first G 1%nat σ3 a0
           (set_current G (set_current c0 (set_root c0 ft))) g3 (c0 :: c1 :: cs));
    try done.
  - unfold σ3. proj_state. apply lookup_insert_eq.
  - simpl. lia.
Qed.

(** * The properties on concrete trees *)

Ltac solve_has_text :=
  split; [done | eexists _, _, _; split_and!; reflexivity].

(** In the tree made by [TreeCtor] the cursor is on the root, and [Parent]
    returns normally with a null cursor instead of aborting. *)
Lemma Parent_at_root_not_rejected :
  trees σ_root !! 1 = Some (mkTree 1 1 1) ∧
  (∃ nn, nodes σ_root !! 1 = Some nn ∧ nd_parent nn = NULL) ∧
  Parent 1 σ_root = Ok (store_tree 1 (mkTree 1 NULL 1) σ_root) ∧
  Parent 1 σ_root ≠ Abort.
Proof.
  split_and!.
  - reflexivity.
  - eexists. split; reflexivity.
  - reflexivity.
  - discriminate.
Qed.

Lemma Parent_ascends_unchecked_witness :
  ∃ σ', Parent 1 σ_plus_ab = Ok σ' ∧
        trees σ' !! 1 = Some (mkTree 1 1 3).
Proof.
  destruct Parent_ascends_unchecked as [_ H].
  destruct (H 1 σ_plus_ab (mkTree 1 3 3)
              (mkNode (Some (name_tok "b")) None 1 3))
    as (σ' & Hrun & Htr & _); [done | reflexivity | done | reflexivity |].
  exists σ'. split; [exact Hrun | exact Htr].
Defined.

Lemma AddChild_preconditions_witness :
  ∃ σ' tr', AddChild 1 1 σ_three = Ok (1, σ') ∧
            trees σ' !! 1 = Some tr' ∧ tr_current tr' = 1.
Proof.
  destruct AddChild_preconditions as [_ H].
  apply (H 1 1 σ_three (mkTree NULL NULL 3));
    [done | reflexivity | solve_has_text | by left].
Defined.

(** After [Parent] has ascended from the root the cursor is null, and the
    next [AddChild] replaces the root. *)
Lemma AddChild_after_ascent_reroots :
  ∃ σ1 σ2 σ3,
    (tr_root <$> trees σ_three !! 1) = Some NULL ∧
    (tr_current <$> trees σ_three !! 1) = Some NULL ∧
    AddChild 1 1 σ_three = Ok (1, σ1) ∧
    (tr_root <$> trees σ1 !! 1) = Some 1 ∧
    Parent 1 σ1 = Ok σ2 ∧
    AddChild 1 2 σ2 = Ok (2, σ3) ∧
    (tr_root <$> trees σ3 !! 1) = Some 2.
Proof. eexists _, _, _. split_and!; reflexivity. Qed.

Lemma AddChild_rooting_witness :
  ∃ σ1 tr1 σ' tr',
    AddChild 1 1 σ_three = Ok (1, σ1) ∧
    trees σ1 !! 1 = Some tr1 ∧ tr_root tr1 = 1 ∧ tr_current tr1 = 1 ∧
    AddChild_all 1 [2; 3] σ1 = Ok σ' ∧
    trees σ' !! 1 = Some tr' ∧ tr_root tr' = 1.
Proof.
  apply (proj1 AddChild_rooting 1 σ_three (mkTree NULL NULL 3) 1 [2; 3]);
    [done | reflexivity | reflexivity | reflexivity | solve_has_text |].
  repeat (apply Forall_cons; split; [solve_has_text|]). apply Forall_nil_2.
Defined.


Lemma secondary_label_condition_witness :
  PrintNode canon 3 σ_plus_ab (Some []) 1 =
    Ok [PrintNodeRecord 1 "diamond" "black" "+" "";
        PrintNodeRecord 2 "rectangle" "black" "a" "NAME";
        PrintNodeRecord 3 "rectangle" "black" "b" "NAME"].
Proof.
  exact (proj1 (secondary_label_condition canon 3 σ_plus_ab 1
                  T_plus_ab recs_plus_ab [] eq_refl eq_refl)).
Defined.

Lemma export_deterministic_witness :
  ∃ σ1,
    DebugTree canon fopen_always 3 1 σ_plus_ab = Ok σ1 ∧
    files σ1 !! graph_dot = Some (graph_document T_plus_ab recs_plus_ab) ∧
    nodes σ1 = nodes σ_plus_ab ∧ trees σ1 = trees σ_plus_ab ∧
    ∀ fuel', (3 ≤ fuel')%nat → fopen_always σ1 graph_dot = true →
      DebugTree canon fopen_always fuel' 1 σ1 = Ok σ1.
Proof.
  apply (export_deterministic canon fopen_always 3 1 σ_plus_ab (mkTree 1 3 3)
           T_plus_ab recs_plus_ab); [done | reflexivity..].
Defined.

(** The scenario of the specification: the export of "+" over "a" and "b"
    has a diamond for the root, rectangles for the leaves, two edges from
    the root and none from a leaf. *)
Lemma export_scenario :
  graph_document T_plus_ab recs_plus_ab =
    [PrintText ("digraph G{" +:+ nl);
     PrintText (tab +:+ "graph [dpi=50];" +:+ nl +:+ nl);
     PrintNodeRecord 1 "diamond" "black" "+" "";
     PrintNodeRecord 2 "rectangle" "black" "a" "NAME";
     PrintNodeRecord 3 "rectangle" "black" "b" "NAME";
     PrintText nl;
     PrintEdge 1 2; PrintEdge 1 3;
     PrintText ("}" +:+ nl)].
Proof. reflexivity. Qed.

Lemma InsertParent_correct_witness :
  ∃ σ',
    InsertParent 1 4 σ_wrap = Ok σ' ∧
    trees σ' !! 1 = Some (mkTree 1 4 4) ∧
    (child_list <$> nodes σ' !! 1) = Some [4] ∧
    (child_list <$> nodes σ' !! 4) = Some [2] ∧
    (nd_parent <$> nodes σ' !! 2) = Some 4 ∧
    subtree 2 σ' 2 =
      Some (RNode 2 (mkNode (Some (name_tok "a")) (Some [3]) 4 2)
              [RNode 3 (mkNode (Some (name_tok "c")) None 2 3) []]).
Proof.
  destruct (InsertParent_correct 1 4 σ_wrap (mkTree 1 2 4)
              (mkNode (Some (name_tok "a")) (Some [3]) 1 2)
              (mkNode (Some (mkToken TOKEN_EQ (Some "=") PRSR_NONE)) None NULL 4)
              2 T_wrap)
    as (σ' & Hrun & Htr & HP & Hn & HX & _ & HT).
  - done.
  - reflexivity.
  - solve_has_text.
  - reflexivity.
  - done.
  - reflexivity.
  - done.
  - right. eexists _, _, _. split_and!; [reflexivity | reflexivity | done | done].
  - reflexivity.
  - apply (bool_decide_unpack _); vm_compute; exact I.
  - exists σ'. split; [exact Hrun|]. split; [exact Htr|].
    destruct HP as (pn & Hpn & HP' & _); [done|].
    injection Hpn as <-. cbn [nd_parent tr_current] in HP', Hn, HX.
    rewrite HP', Hn, HX. split_and!; [reflexivity.. | exact HT].
Defined.

(** The scenario of the specification: the cursor is the last of three
    siblings; [InsertParent] puts the new node in that last slot and keeps
    the order of the two earlier siblings. *)
Lemma InsertParent_last_of_three :
  (child_list <$> nodes σ_siblings !! 1) = Some [2; 3; 4] ∧
  (tr_current <$> trees σ_siblings !! 1) = Some 4 ∧
  ∃ σ',
    InsertParent 1 5 σ_siblings = Ok σ' ∧
    (child_list <$> nodes σ' !! 1) = Some [2; 3; 5] ∧
    (child_list <$> nodes σ' !! 5) = Some [4] ∧
    (nd_parent <$> nodes σ' !! 4) = Some 5 ∧
    (nd_parent <$> nodes σ' !! 5) = Some 1.
Proof.
  split_and!; [vm_compute; reflexivity.. |].
  exists (state_of (InsertParent 1 5 σ_siblings)).
  split_and!; vm_compute; reflexivity.
Qed.

(** The failing input of [AppendTree]: the second cursor is a leaf, so its
    children array was never built, and the call reads through a null
    array instead of moving no child. *)
Lemma AppendTree_leaf_is_undefined :
  (nd_children <$> nodes σ_two_roots !! 2) = Some None ∧
  (tr_current <$> trees σ_two_roots !! 2) = Some 2 ∧
  ∀ fuel, AppendTree fuel 1 2 σ_two_roots = Undef.
Proof.
  split_and!; [reflexivity.. |]. intros fuel.
  by apply (AppendTree_null_children fuel 1 2 σ_two_roots (mkTree 2 2 1)
              (mkNode (Some (mkToken TOKEN_EQ (Some "=") PRSR_NONE)) None NULL 2)).
Qed.

(** With children under the second cursor the call moves them. *)
Lemma AppendTree_two_children :
  AppendTree 5 1 2 σ_two_trees = Ok σ_spliced ∧
  kids σ_spliced 1 = Some [3; 4] ∧
  par σ_spliced 3 = Some 1 ∧ par σ_spliced 4 = Some 1 ∧
  (tr_current <$> trees σ_spliced !! 2) = Some 1.
Proof. split_and!; vm_compute; reflexivity. Qed.

(** A tree spliced onto itself: each turn of the loop adds a child to the
    array the loop runs over, so no budget is enough. *)
Lemma AppendTree_same_cursor_diverges :
  AppendTree 5 2 2 σ_two_trees = OutOfFuel ∧
  AppendTree 50 2 2 σ_two_trees = OutOfFuel.
Proof. split; reflexivity. Qed.


Lemma reachable_run4 : reachable canon bump_Node always 1 σ_run4.
Proof.
  assert (reachable canon bump_Node always 1 σ_run0) as H0.
  { by apply reachable_new. }
  assert (reachable canon bump_Node always 1 σ_run1) as H1.
  { apply (reachable_step _ _ _ _ σ_run0); [done|].
    by apply (step_CreateNode _ _ _ _ _ (name_tok "a") 1). }
  assert (reachable canon bump_Node always 1 σ_run2) as H2.
  { apply (reachable_step _ _ _ _ σ_run1); [done|].
    apply (step_AddChild _ _ _ _ _ 1 1); [|reflexivity].
    by split_and!. }
  assert (reachable canon bump_Node always 1 σ_run3) as H3.
  { apply (reachable_step _ _ _ _ σ_run2); [done|].
    by apply (step_CreateNode _ _ _ _ _ (name_tok "b") 2). }
  apply (reachable_step _ _ _ _ σ_run3); [done|].
  apply (step_InsertParent _ _ _ _ _ 2); [|reflexivity].
  by split_and!.
Defined.


(** ** Further properties on concrete trees *)

Ltac by_computation := vm_compute; first [reflexivity | exact I | discriminate | done].

Lemma reachable_run6 : reachable canon bump_Node always 1 σ_run6.
Proof.
  assert (reachable canon bump_Node always 1 σ_run5) as H5.
  { apply (reachable_step _ _ _ _ σ_run4); [exact reachable_run4|].
    by apply (step_CreateNode _ _ _ _ _ (name_tok "c") 3). }
  apply (reachable_step _ _ _ _ σ_run5); [done|].
  apply (step_AddChild _ _ _ _ _ 3 3); [|reflexivity].
  split_and!; by_computation.
Defined.

Lemma builder_keeps_blocks_witness :
  InsertParent 1 2 σ_run3 = Ok σ_run4 ∧ same_blocks σ_run3 σ_run4.
Proof.
  split; [reflexivity|].
  apply (proj1 (proj2 (proj2 builder_keeps_blocks)) 1 2 σ_run3 σ_run4).
  reflexivity.
Defined.

Lemma reachable_ids_unique_and_counted_witness :
  ids_are_addresses σ_run4 ∧
  (tr_size <$> trees σ_run4 !! 1) = Some 2.
Proof.
  destruct (reachable_ids_unique_and_counted canon bump_Node always
              bump_Node_fresh 1 σ_run4 reachable_run4) as (H1 & _ & H3).
  split; [exact H1 | exact H3].
Defined.

Lemma TreeCtor_result_witness :
  ∃ σ', TreeCtor' TOKEN_PLUS empty_state = Ok (1, σ') ∧
        trees σ' !! 1 = Some (mkTree 1 1 1).
Proof.
  pose proof (TreeCtor_result canon bump_Node always bump_Tree bump_Node_fresh
                TOKEN_PLUS empty_state) as H.
  cbv zeta in H. destruct H as (_ & _ & _ & H).
  destruct H as (σ' & H1 & H2 & _); [by_computation.. |].
  exists σ'. split; [exact H1 | exact H2].
Defined.

Lemma TreeCtor_reachable_witness :
  reachable canon bump_Node always 1 σ_root ∧ tree_inv 1 σ_root.
Proof.
  apply (TreeCtor_reachable canon bump_Node always bump_Tree bump_Node_fresh
           TOKEN_PLUS empty_state 1 σ_root); reflexivity.
Defined.

Lemma AddChild_then_Parent_witness :
  ∃ σ1 σ2,
    AddChild 1 3 σ_run5 = Ok (3, σ1) ∧ Parent 1 σ1 = Ok σ2 ∧
    trees σ2 = trees σ_run5 ∧
    kids σ2 2 = Some [1; 3] ∧
    GetChild σ2 2 1 = Ok 3.
Proof.
  destruct (AddChild_then_Parent 1 3 σ_run5
              (default zero_Tree (trees σ_run5 !! 1))
              (default zero_Node (nodes σ_run5 !! 2)))
    as (σ1 & σ2 & H1 & H2 & H3 & H4 & H5 & _);
    [done | solve_has_text | reflexivity | by_computation | reflexivity |].
  exists σ1, σ2. split_and!; [exact H1 | exact H2 | exact H3 | exact H4 | exact H5].
Defined.

Lemma AppendTree_same_cursor_never_returns_witness :
  AppendTree 7 2 2 σ_two_trees = OutOfFuel ∧
  AppendTree 7 2 2 σ_two_trees ≠ Ok σ_two_trees.
Proof.
  split; [reflexivity|].
  apply (AppendTree_same_cursor_never_returns 7 2 2 σ_two_trees
           (mkTree 2 2 3) (mkTree 2 2 3)
           (default zero_Node (nodes σ_two_trees !! 2)) 3 [4]); reflexivity.
Defined.

Lemma AppendTree_onto_null_cursor_never_returns_witness :
  (tr_current <$> trees σ_ascended !! 1) = Some NULL ∧
  AppendTree 9 1 2 σ_ascended = OutOfFuel ∧
  AppendTree 9 1 2 σ_ascended ≠ Ok σ_ascended.
Proof.
  split; [reflexivity|]. split; [reflexivity|].
  apply (AppendTree_onto_null_cursor_never_returns 9 1 2 σ_ascended
           (mkTree 1 NULL 1) (mkTree 2 2 3)
           (default zero_Node (nodes σ_ascended !! 2)) 3 4 []); reflexivity.
Defined.

Lemma export_passes_return_iff_witness :
  ∃ T recs, subtree 3 σ_plus_ab 1 = Some T ∧
    node_records canon T = Some recs ∧ recs_plus_ab = [] ++ recs.
Proof.
  apply (proj1 (proj1 (export_passes_return_iff canon 3 σ_plus_ab 1 [] recs_plus_ab))).
  reflexivity.
Defined.

Lemma DebugTree_returns_only_witness :
  1 ≠ NULL ∧ fopen_always σ_plus_ab graph_dot = true ∧
  ∃ tr T recs,
    trees σ_plus_ab !! 1 = Some tr ∧
    subtree 3 σ_plus_ab (tr_root tr) = Some T ∧
    node_records canon T = Some recs ∧
    state_of (DebugTree canon fopen_always 3 1 σ_plus_ab) =
      with_files (<[graph_dot := graph_document T recs]> (files σ_plus_ab)) σ_plus_ab.
Proof.
  apply (DebugTree_returns_only canon fopen_always 3 1 σ_plus_ab). reflexivity.
Defined.

Lemma export_never_returns_on_cycle_witness :
  descends σ_self 1 1 ∧
  ∀ fuel σ', DebugTree canon fopen_always fuel 1 σ_self ≠ Ok σ'.
Proof.
  assert (descends σ_self 1 1) as Hcyc.
  { apply (descends_child σ_self 1 [1] 1); [reflexivity | apply list_elem_of_here]. }
  split; [exact Hcyc|]. intros fuel σ'.
  apply (proj2 (proj2 (export_never_returns_on_cycle canon fopen_always σ_self 1 1
                         (or_introl eq_refl) Hcyc)) fuel 1 (mkTree 1 1 1) σ');
    reflexivity.
Defined.

Lemma AddChild_of_ancestor_makes_cycle_witness :
  ∃ σ', AddChild 1 1 σ_root = Ok (1, σ') ∧ descends σ' 1 1.
Proof.
  apply (AddChild_of_ancestor_makes_cycle 1 1 σ_root (mkTree 1 1 1)
           (default zero_Node (nodes σ_root !! 1)));
    [done | solve_has_text | reflexivity | done | reflexivity | by left].
Defined.

Lemma edges_one_less_than_nodes_witness :
  (length recs_plus_ab - 0 = S (length (edges_of T_plus_ab) - 0))%nat.
Proof.
  apply (edges_one_less_than_nodes canon 3 3 σ_plus_ab 1
           [] recs_plus_ab [] (edges_of T_plus_ab)); reflexivity.
Defined.

Lemma reachable_cursor_is_last_child_witness :
  ∃ front, kids σ_run6 2 = Some (front ++ [3]) ∧ 3 ∉ front.
Proof.
  apply (reachable_cursor_is_last_child canon bump_Node always bump_Node_fresh
           1 σ_run6 (mkTree 2 3 3) 2 reachable_run6); [reflexivity | reflexivity | done].
Defined.

Lemma InsertParent_overwrites_last_sibling_witness :
  ∃ σ',
    InsertParent 1 5 σ_mid = Ok σ' ∧
    kids σ' 1 = Some [2; 3; 5] ∧
    par σ' 3 = Some 5 ∧ par σ' 4 = Some 1 ∧
    ¬ forward σ' ∧ ¬ backward σ'.
Proof.
  destruct (InsertParent_overwrites_last_sibling 1 5 σ_mid (mkTree 1 3 5)
              (default zero_Node (nodes σ_mid !! 3))
              (default zero_Node (nodes σ_mid !! 5))
              (default zero_Node (nodes σ_mid !! 1)) [2; 3] 4)
    as (σ' & H1 & H2 & H3 & _ & H5 & _ & H7 & H8).
  - done.
  - reflexivity.
  - solve_has_text.
  - reflexivity.
  - done.
  - reflexivity.
  - done.
  - by_computation.
  - by_computation.
  - by_computation.
  - reflexivity.
  - reflexivity.
  - apply list_elem_of_further, list_elem_of_here.
  - apply (bool_decide_unpack _); vm_compute; exact I.
  - done.
  - done.
  - reflexivity.
  - exists σ'. split_and!; [exact H1 | exact H2 | exact H3 | exact H5 | exact H7 | exact H8].
Defined.

Lemma reachable_cursor_under_root_witness :
  2 ≠ NULL ∧ par σ_run6 2 = Some NULL ∧ (3 = 2 ∨ descends σ_run6 2 3).
Proof.
  apply (reachable_cursor_under_root canon bump_Node always bump_Node_fresh
           1 σ_run6 (mkTree 2 3 3) reachable_run6); [reflexivity | done].
Defined.

Lemma reachable_acyclic_witness :
  kids σ_run6 2 = Some [1; 3] ∧ ¬ descends σ_run6 2 2.
Proof.
  split; [reflexivity|].
  apply (reachable_acyclic canon bump_Node always bump_Node_fresh 1 σ_run6 2
           reachable_run6).
Defined.

Lemma reachable_export_returns_witness :
  ∃ fuel, ∀ fuel', (fuel ≤ fuel')%nat →
    ∃ σ', DebugTree canon fopen_always fuel' 1 σ_run6 = Ok σ' ∧
          nodes σ' = nodes σ_run6 ∧ trees σ' = trees σ_run6.
Proof.
  apply (reachable_export_returns canon bump_Node always fopen_always
           bump_Node_fresh 1 σ_run6 (mkTree 2 3 3) reachable_run6);
    [reflexivity | done | reflexivity].
Defined.

Lemma Ttype_reads_creation_kind_witness :
  Ttype σ_run1 1 = Ok TOKEN_NAME.
Proof.
  apply (proj1 (proj2 (Ttype_reads_creation_kind canon bump_Node always))
           1 (name_tok "a") σ_run0 1 σ_run1).
  reflexivity.
Defined.
